(** * deepmerge: a shallow embedding of [src/functions/deepmerge.ts]

    The merge engine works on JavaScript values.  Composite values
    (plain objects, arrays), functions and opaque objects (a [Date], a
    [RegExp], a class instance) have an identity and live in a heap;
    the engine aliases them, mutates them, and remembers the sources it
    has visited by identity.  The embedding therefore threads a store
    (heap and console) explicitly, and a set of visited locations.

    Scope of the value model:
    - numbers are integers, strings are [string]s;
    - property names are strings that are not array indices (so own
      properties are enumerated in creation order); symbol-named
      properties are absent, hence the two [getOwnPropertySymbols]
      spreads of the source contribute no key;
    - every property is an ordinary writable data property;
    - arrays are dense. *)

From stdpp Require Import base list strings gmap.
From Stdlib Require Import ZArith Lia.

(** ** Values and heap objects *)

(** Heap locations. *)
Abbreviation loc := nat.

Inductive value :=
| VUndef
| VNull
| VBool (b : bool)
| VNum (n : Z)
| VStr (s : string)
| VRef (l : loc).

#[global] Instance value_eq_dec : EqDecision value.
Proof. solve_decision. Defined.

(** A function object is either supplied by the caller ([FNative], its
    behaviour is a parameter of the development) or one of the closures
    [(...args) => { target(...args); source(...args); }] that the engine
    builds in compose mode; the closure captures [target] and [source]. *)
Inductive func :=
| FNative (id : nat)
| FCompose (target source : value).

Inductive obj :=
| OPlain (props : list (string * value))
| OArr (elems : list value)
| OFun (f : func)
| OOther (tag : nat).

Inductive event :=
| Warn (maxDepth : value)
| Log (id : nat) (args : list value).

Record store := Store { heap : list obj; console : list event }.

(** The state of one top-level call: the store and the [WeakMap] of
    visited sources.  Only [has] and [set] are used on the map and the
    stored value is never read back, so a set of locations is enough. *)
Record mstate := MState { mstore : store; visited : gset loc }.

(** ** Outcomes and the state-and-exception monad *)

Inductive error :=
| TypeError (msg : string)
| Thrown (v : value).

Inductive outcome (S A : Type) :=
| Ok (a : A) (s : S)
| Throw (e : error) (s : S)
| Diverge.
Arguments Ok {S A} a s.
Arguments Throw {S A} e s.
Arguments Diverge {S A}.

Definition M (S A : Type) : Type := S → outcome S A.

Definition ret {S A} (a : A) : M S A := λ s, Ok a s.

Definition bind {S A B} (m : M S A) (k : A → M S B) : M S B :=
  λ s, match m s with
       | Ok a s' => k a s'
       | Throw e s' => Throw e s'
       | Diverge => Diverge
       end.

Definition throw {S A} (e : error) : M S A := λ s, Throw e s.
Definition diverge {S A} : M S A := λ _, Diverge.
Definition gets {S A} (f : S → A) : M S A := λ s, Ok (f s) s.
Definition modify {S} (f : S → S) : M S unit := λ s, Ok tt (f s).

Declare Scope js_scope.
Delimit Scope js_scope with js.
Notation "x <~ m ;; k" := (bind m (λ x, k))
  (at level 100, m at next level, right associativity) : js_scope.
Notation "m ;;; k" := (bind m (λ _, k))
  (at level 100, right associativity) : js_scope.
Local Open Scope js_scope.

Fixpoint forM_ {S A} (l : list A) (f : A → M S unit) : M S unit :=
  match l with
  | [] => ret tt
  | x :: l' => f x ;;; forM_ l' f
  end.

Fixpoint foldM {S A B} (f : B → A → M S B) (l : list A) (b : B) : M S B :=
  match l with
  | [] => ret b
  | x :: l' => b' <~ f b x ;; foldM f l' b'
  end.

(** Run a store computation inside a merge: the visited set is not
    visible to it. *)
Definition lift {A} (m : M store A) : M mstate A :=
  λ s, match m (mstore s) with
       | Ok a st => Ok a (MState st (visited s))
       | Throw e st => Throw e (MState st (visited s))
       | Diverge => Diverge
       end.

(** ** JavaScript primitives used by the engine *)

(** [isPlainObject] of [src/types/guards.ts]: an object whose class is
    [Object] and whose prototype is [Object.prototype] or [null]. *)
Definition isPlainObject (h : list obj) (v : value) : bool :=
  match v with
  | VRef l => match h !! l with Some (OPlain _) => true | _ => false end
  | _ => false
  end.

Definition isArray (h : list obj) (v : value) : bool :=
  match v with
  | VRef l => match h !! l with Some (OArr _) => true | _ => false end
  | _ => false
  end.

(** [typeof v === 'function'] *)
Definition isFunction (h : list obj) (v : value) : bool :=
  match v with
  | VRef l => match h !! l with Some (OFun _) => true | _ => false end
  | _ => false
  end.

(** [v == null] *)
Definition isNullish (v : value) : bool :=
  match v with VUndef | VNull => true | _ => false end.

Definition truthy (v : value) : bool :=
  match v with
  | VUndef | VNull => false
  | VBool b => b
  | VNum n => negb (n =? 0)%Z
  | VStr s => negb (String.eqb s "")
  | VRef _ => true
  end.

Definition is_undef (v : value) : bool :=
  match v with VUndef => true | _ => false end.

Fixpoint get_prop (props : list (string * value)) (k : string) : value :=
  match props with
  | [] => VUndef
  | (k', v) :: ps => if String.eqb k' k then v else get_prop ps k
  end.

(** [o[k] = v] on an ordinary object: an existing property keeps its
    place, a new one is created last. *)
Fixpoint set_prop (props : list (string * value)) (k : string) (v : value)
  : list (string * value) :=
  match props with
  | [] => [(k, v)]
  | (k', v') :: ps =>
      if String.eqb k' k then (k', v) :: ps else (k', v') :: set_prop ps k v
  end.

(** [o[k]] for a value [o] known to be an object *)
Definition get (h : list obj) (o : value) (k : string) : value :=
  match o with
  | VRef l => match h !! l with Some (OPlain ps) => get_prop ps k | _ => VUndef end
  | _ => VUndef
  end.

(** [Object.keys(o)] *)
Definition keys (h : list obj) (o : value) : list string :=
  match o with
  | VRef l => match h !! l with Some (OPlain ps) => ps.*1 | _ => [] end
  | _ => []
  end.

(** [new Set(ks)], iterated: first occurrences, in order. *)
Definition set_of (ks : list string) : list string :=
  fold_left (λ acc k, if decide (k ∈ acc) then acc else acc ++ [k]) ks [].

(** the elements of an array, [[]] for anything else *)
Definition elems_of (h : list obj) (a : value) : list value :=
  match a with
  | VRef l => match h !! l with Some (OArr es) => es | _ => [] end
  | _ => []
  end.

(** [a[i]] *)
Definition index (h : list obj) (a : value) (i : nat) : value :=
  default VUndef (elems_of h a !! i).

(** [a[i] = v] on an array: in range it overwrites, at the end it
    extends (further out the gap reads as [undefined]). *)
Definition array_set (es : list value) (i : nat) (v : value) : list value :=
  if decide (i < length es) then <[i:=v]> es
  else es ++ replicate (i - length es) VUndef ++ [v].

Definition alloc (o : obj) : M mstate value :=
  λ s, let st := mstore s in
       Ok (VRef (length (heap st)))
          (MState (Store (heap st ++ [o]) (console st)) (visited s)).

Definition get_heap : M mstate (list obj) := gets (λ s, heap (mstore s)).

Definition update (l : loc) (o : obj) : M mstate unit :=
  modify (λ s, MState (Store (<[l:=o]> (heap (mstore s))) (console (mstore s)))
                      (visited s)).

(** [result[key] = v] where [result] is a plain object *)
Definition assign (result : value) (key : string) (v : value) : M mstate unit :=
  match result with
  | VRef l =>
      h <~ get_heap ;;
      match h !! l with
      | Some (OPlain ps) => update l (OPlain (set_prop ps key v))
      | _ => ret tt
      end
  | _ => ret tt
  end.

(** [merged[i] = v] where [merged] is an array *)
Definition assign_index (merged : value) (i : nat) (v : value) : M mstate unit :=
  match merged with
  | VRef l =>
      h <~ get_heap ;;
      match h !! l with
      | Some (OArr es) => update l (OArr (array_set es i v))
      | _ => ret tt
      end
  | _ => ret tt
  end.

(** [console.warn(...)] with the interpolated limit *)
Definition warn (maxDepth : value) : M mstate unit :=
  modify (λ s, MState (Store (heap (mstore s)) (console (mstore s) ++ [Warn maxDepth]))
                      (visited s)).

(** [visited.has(source)]: no primitive is ever a key. *)
Definition visited_has (source : value) : M mstate bool :=
  match source with
  | VRef l => gets (λ s, bool_decide (l ∈ visited s))
  | _ => ret false
  end.

(** [visited.set(source, result)]: a [WeakMap] key must be an object,
    any other key is a [TypeError]. *)
Definition visited_set (source : value) : M mstate unit :=
  match source with
  | VRef l => modify (λ s, MState (mstore s) ({[l]} ∪ visited s))
  | _ => throw (TypeError "Invalid value used as weak map key")
  end.

(** ToNumber, as far as the model goes: strings and objects read as
    [NaN] ([None]).  [maxDepth] is declared a number. *)
Definition to_number (v : value) : option Z :=
  match v with
  | VNum n => Some n
  | VNull => Some 0%Z
  | VBool b => Some (if b then 1 else 0)%Z
  | _ => None
  end.

(** [depth >= maxDepth] *)
Definition depth_reached (depth : Z) (maxDepth : value) : bool :=
  match to_number maxDepth with
  | Some m => (m <=? depth)%Z
  | None => false
  end.

(** ** Options *)

Record options := Options {
  arrayMerge : value;
  clone : value;
  functionMerge : value;
  maxDepth : value;
  customMerge : value
}.

(** [const { x = d } = options]: the default stands in for [undefined]. *)
Definition or_default (v d : value) : value :=
  if is_undef v then d else v.

Definition default_options : options :=
  Options (VStr "replace") (VBool true) (VStr "replace") (VNum 100) VUndef.

Definition is_compose (o : options) : bool :=
  bool_decide (functionMerge o = VStr "compose").

Section Engine.

(** The behaviour of the functions supplied by the caller. *)
Variable native : nat → list value → M store value.

(** ** Calling a function value *)

Fixpoint call (fuel : nat) (f : value) (args : list value) : M store value :=
  match fuel with
  | O => diverge
  | S fuel' =>
      λ st,
        match f with
        | VRef l =>
            match heap st !! l with
            | Some (OFun (FNative id)) => native id args st
            | Some (OFun (FCompose target source)) =>
                (call fuel' target args ;;;
                 call fuel' source args ;;;
                 ret VUndef) st
            | _ => Throw (TypeError "not a function") st
            end
        | _ => Throw (TypeError "not a function") st
        end
  end.

(** ** The engine, for resolved options [o] *)

Variable o : options.

Section Body.

(** [rec] stands for the recursive call [mergeObjects]. *)
Variable fuel : nat.
Variable rec : value → list value → Z → M mstate value.

(** lines 280-308 *)
Definition merge_index (target source merged : value) (i : nat) : M mstate unit :=
  h <~ get_heap ;;
  if decide (i < length (elems_of h target) ∧ i < length (elems_of h source)) then
    if isPlainObject h (index h target i) && isPlainObject h (index h source i) then
      r <~ rec (index h target i) [index h source i] 0%Z ;;
      assign_index merged i r
    else assign_index merged i (index h source i)
  else if decide (i < length (elems_of h target)) then
    assign_index merged i (index h target i)
  else assign_index merged i (index h source i).

Definition mergeArrays (target source strategy : value) : M mstate value :=
  h <~ get_heap ;;
  if isFunction h strategy then lift (call fuel strategy [target; source])
  else if bool_decide (strategy = VStr "concat") then
    alloc (OArr (elems_of h target ++ elems_of h source))
  else if bool_decide (strategy = VStr "merge") then
    let maxLength := length (elems_of h target) `max` length (elems_of h source) in
    merged <~ alloc (OArr []) ;;
    forM_ (seq 0 maxLength) (merge_index target source merged) ;;;
    ret merged
  else alloc (OArr (elems_of h source)).

(** the function case, lines 192-201 and 244-254 *)
Definition merge_functions (target source : value) : M mstate value :=
  if is_compose o then alloc (OFun (FCompose target source)) else ret source.

(** lines 186-205: the target is a leaf *)
Fixpoint leaf_loop (target : value) (sources : list value) : M mstate value :=
  match sources with
  | [] => ret target
  | source :: rest =>
      if is_undef source then leaf_loop target rest
      else
        merged <~ (if truthy (customMerge o)
                   then lift (call fuel (customMerge o) [VStr ""; target; source])
                   else ret VUndef) ;;
        if negb (is_undef merged) then ret merged
        else
          h <~ get_heap ;;
          if isFunction h target && isFunction h source
          then merge_functions target source
          else ret source
  end.

(** lines 234-270: one key of a pair of plain objects *)
Definition merge_key (depth : Z) (result source : value) (key : string)
  : M mstate unit :=
  h <~ get_heap ;;
  let targetValue := get h result key in
  let sourceValue := get h source key in
  decided <~ (if truthy (customMerge o)
              then r <~ lift (call fuel (customMerge o)
                                [VStr key; targetValue; sourceValue]) ;;
                   ret (negb (is_undef r))
              else ret false) ;;
  if (decided : bool) then
    r <~ lift (call fuel (customMerge o) [VStr key; targetValue; sourceValue]) ;;
    assign result key r
  else
    h <~ get_heap ;;
    if isFunction h targetValue && isFunction h sourceValue then
      r <~ merge_functions targetValue sourceValue ;;
      assign result key r
    else if isPlainObject h targetValue && isPlainObject h sourceValue then
      r <~ rec targetValue [sourceValue] (depth + 1)%Z ;;
      assign result key r
    else if isArray h targetValue && isArray h sourceValue then
      r <~ mergeArrays targetValue sourceValue (arrayMerge o) ;;
      assign result key r
    else if negb (is_undef sourceValue) then assign result key sourceValue
    else ret tt.

(** lines 214-275: one source of a composite target *)
Definition merge_source (depth : Z) (result source : value) : M mstate value :=
  if isNullish source then ret result
  else
    seen <~ visited_has source ;;
    if (seen : bool) then ret result
    else
      visited_set source ;;;
      h <~ get_heap ;;
      if isArray h result && isArray h source then
        mergeArrays result source (arrayMerge o)
      else if isPlainObject h result && isPlainObject h source then
        forM_ (set_of (keys h result ++ keys h source))
              (merge_key depth result source) ;;;
        ret result
      else ret source.

(** lines 208-212 *)
Definition clone_target (target : value) : M mstate value :=
  if truthy (clone o) then
    h <~ get_heap ;;
    if isArray h target then alloc (OArr (elems_of h target))
    else match target with
         | VRef l =>
             match h !! l with
             | Some (OPlain ps) => alloc (OPlain ps)
             | _ => alloc (OPlain [])
             end
         | _ => alloc (OPlain [])
         end
  else ret target.

(** lines 176-278 *)
Definition mergeObjects_body (target : value) (sources : list value) (depth : Z)
  : M mstate value :=
  if depth_reached depth (maxDepth o) then
    warn (maxDepth o) ;;; ret target
  else
    h <~ get_heap ;;
    if negb (isPlainObject h target) && negb (isArray h target) then
      leaf_loop target sources
    else
      result <~ clone_target target ;;
      foldM (merge_source depth) sources result.

End Body.

Fixpoint mergeObjects (fuel : nat) (target : value) (sources : list value)
  (depth : Z) : M mstate value :=
  match fuel with
  | O => diverge
  | S fuel' => mergeObjects_body fuel' (mergeObjects fuel') target sources depth
  end.

End Engine.

(** ** The entry point, lines 139-174 *)

(** the test on the last argument, lines 148-157 *)
Definition is_options (h : list obj) (lastArg : value) : bool :=
  match lastArg with
  | VRef l =>
      match h !! l with
      | Some (OPlain ps) =>
          negb (is_undef (get_prop ps "arrayMerge"))
          || negb (is_undef (get_prop ps "clone"))
          || negb (is_undef (get_prop ps "customMerge"))
          || negb (is_undef (get_prop ps "functionMerge"))
          || negb (is_undef (get_prop ps "maxDepth"))
      | _ => false
      end
  | _ => false
  end.

(** lines 164-170 *)
Definition resolve_options (h : list obj) (lastArg : value) : options :=
  Options (or_default (get h lastArg "arrayMerge") (VStr "replace"))
          (or_default (get h lastArg "clone") (VBool true))
          (or_default (get h lastArg "functionMerge") (VStr "replace"))
          (or_default (get h lastArg "maxDepth") (VNum 100))
          (get h lastArg "customMerge").

(** [args[args.length - 1]] *)
Definition last_arg (args : list value) : value := default VUndef (last args).

(** lines 143-162 *)
Definition parse_args (h : list obj) (args : list value) : list value * options :=
  let lastArg := last_arg args in
  if is_options h lastArg
  then (removelast args, resolve_options h lastArg)
  else (args, default_options).

(** lines 172-174: a new visited map, dropped at return *)
Definition run_merge (native : nat → list value → M store value) (o : options)
  (fuel : nat) (target : value) (sources : list value) : M store value :=
  λ st,
    match mergeObjects native o fuel target sources 0%Z (MState st ∅) with
    | Ok v s => Ok v (mstore s)
    | Throw e s => Throw e (mstore s)
    | Diverge => Diverge
    end.

Definition deepmerge (native : nat → list value → M store value) (fuel : nat)
  (target : value) (args : list value) : M store value :=
  λ st,
    let '(sources, o) := parse_args (heap st) args in
    run_merge native o fuel target sources st.

(** * Properties *)

Definition returned {S A} (r : outcome S A) : option A :=
  match r with Ok a _ => Some a | _ => None end.

Definition final {S A} (r : outcome S A) : option S :=
  match r with Ok _ s => Some s | _ => None end.

(** A caller-supplied function that records its call on the console and
    returns its own number. *)
Definition log_native (id : nat) (args : list value) : M store value :=
  λ st, Ok (VNum (Z.of_nat id)) (Store (heap st) (console st ++ [Log id args])).

(** ** Heap lookups after an allocation *)

Section Lookup.
Context (h : list obj).

Lemma lookup_alloc (o : obj) : (h ++ [o]) !! length h = Some o.
Proof. by rewrite list_lookup_middle. Qed.

Lemma lookup_alloc_old (o : obj) (l : loc) (x : obj) :
  h !! l = Some x → (h ++ [o]) !! l = Some x.
Proof. intros H. by apply lookup_app_l_Some. Qed.

End Lookup.

(** ** The list-form call: the list is one source *)

Lemma list_argument_is_a_source native fuel st t a ps :
  heap st !! t = Some (OPlain ps) →
  isArray (heap st) a = true →
  deepmerge native (S fuel) (VRef t) [a] st
  = Ok a (Store (heap st ++ [OPlain ps]) (console st)).
Proof.
  intros Ht Ha. destruct a as [| | | | |la]; try discriminate.
  unfold isArray in Ha. destruct (heap st !! la) as [[]|] eqn:Hla; try discriminate.
  unfold deepmerge, parse_args, run_merge, last_arg, is_options. simpl. rewrite Hla.
  unfold mergeObjects_body, bind, get_heap, gets. simpl. rewrite Ht. simpl.
  unfold clone_target. simpl. unfold bind, get_heap, gets. simpl. rewrite Ht. simpl.
  unfold merge_source, bind. simpl.
  rewrite bool_decide_eq_false_2 by set_solver. simpl.
  rewrite lookup_alloc.
  rewrite (lookup_alloc_old _ _ _ _ Hla). simpl. reflexivity.
Qed.

(** C1.  The call [deepmerge({a:1}, [{b:2}])] passes the list [[{b:2}]]
    as the only source: the list is not unpacked, it meets the type
    mismatch branch and is returned as it is, whereas the variadic call
    [deepmerge({a:1}, {b:2})] returns a new object [{a:1, b:2}].  The
    same holds when an options object follows the list. *)
Theorem deepmerge_list_form_returns_the_list :
  let a1 := OPlain [("a", VNum 1)] in
  let b2 := OPlain [("b", VNum 2)] in
  let opts := OPlain [("clone", VBool true)] in
  let st := Store [a1; b2; OArr [VRef 1]; opts] [] in
  ∀ native fuel,
    deepmerge native (S fuel) (VRef 0) [VRef 2] st
      = Ok (VRef 2) (Store [a1; b2; OArr [VRef 1]; opts; a1] [])
    ∧ deepmerge native (S fuel) (VRef 0) [VRef 2; VRef 3] st
      = Ok (VRef 2) (Store [a1; b2; OArr [VRef 1]; opts; a1] [])
    ∧ deepmerge native (S fuel) (VRef 0) [VRef 1] st
      = Ok (VRef 4)
           (Store [a1; b2; OArr [VRef 1]; opts;
                   OPlain [("a", VNum 1); ("b", VNum 2)]] []).
Proof. intros a1 b2 opts st native fuel. repeat split; reflexivity. Qed.

(** ** A leaf target takes the first defined source *)

Definition is_scalar (v : value) : bool :=
  match v with VUndef | VRef _ => false | _ => true end.

Definition is_leaf (h : list obj) (v : value) : bool :=
  negb (isPlainObject h v) && negb (isArray h v).

Lemma scalar_not_options h v : is_scalar v = true → is_options h v = false.
Proof. by destruct v. Qed.

Lemma last_arg_cons_scalar h x args :
  Forall (λ v, is_scalar v = true) (x :: args) →
  is_options h (last_arg (x :: args)) = false.
Proof.
  intros HF. unfold last_arg.
  destruct (last (x :: args)) as [v|] eqn:E; [|done].
  apply scalar_not_options.
  apply last_Some_elem_of in E. by eapply Forall_forall in HF.
Qed.

(** C3.  For a leaf target and scalar sources the loop of lines 186-204
    returns at the first source: [deepmerge(1, 2, 3)] is [2], and so is
    every merge of a leaf with a list of non-undefined scalars equal to
    the head of that list, whatever follows it. *)
Theorem leaf_target_returns_first_source native fuel st target x y rest :
  is_leaf (heap st) target = true →
  Forall (λ v, is_scalar v = true) (x :: y :: rest) →
  deepmerge native (S fuel) target (x :: y :: rest) st = Ok x st.
Proof.
  intros Hleaf HF. unfold deepmerge, parse_args, run_merge.
  rewrite (last_arg_cons_scalar _ _ _ HF).
  unfold is_leaf in Hleaf.
  simpl. unfold mergeObjects_body, bind, get_heap, gets. simpl.
  rewrite Hleaf. simpl.
  apply Forall_cons_1 in HF as [Hx _].
  destruct x; try discriminate; simpl; unfold bind, ret, get_heap, gets; simpl;
    rewrite ?andb_false_r; by destruct st.
Qed.

Lemma leaf_target_returns_first_source_witness :
  deepmerge log_native 1 (VNum 1) [VNum 2; VNum 3] (Store [] []) = Ok (VNum 2) (Store [] [])
  ∧ VNum 2 ≠ VNum 3.
Proof.
  split; [|discriminate].
  apply (leaf_target_returns_first_source log_native 0 (Store [] []) (VNum 1)
           (VNum 2) (VNum 3) []).
  - reflexivity.
  - repeat constructor.
Defined.

(** C5.  With the default options (clone enabled) the call
    [deepmerge(t, [], t, {b:2})] on [t = {a:1}] returns [t] itself and
    leaves [t] equal to [{a:1, b:2}]: the empty list replaces the copy
    of [t], then [t], met as a source, replaces the list without being
    copied, and the last source is written into it. *)
Theorem clone_does_not_protect_an_aliased_target :
  let st := Store [OPlain [("a", VNum 1)]; OArr []; OPlain [("b", VNum 2)]] [] in
  ∀ native fuel,
    ∃ st', deepmerge native (S fuel) (VRef 0) [VRef 1; VRef 0; VRef 2] st
           = Ok (VRef 0) st'
      ∧ heap st !! 0 = Some (OPlain [("a", VNum 1)])
      ∧ heap st' !! 0 = Some (OPlain [("a", VNum 1); ("b", VNum 2)]).
Proof. intros st native fuel. eexists. repeat split; reflexivity. Qed.

(** C9.  With the default options an array target followed by the plain
    sources [s1 = {a:1}] and [s2 = {b:2}] returns [s1] itself, and [s1],
    an object of the caller, has received the key of [s2]. *)
Theorem mismatched_source_is_mutated :
  let st := Store [OArr []; OPlain [("a", VNum 1)]; OPlain [("b", VNum 2)]] [] in
  ∀ native fuel,
    ∃ st', deepmerge native (S fuel) (VRef 0) [VRef 1; VRef 2] st = Ok (VRef 1) st'
      ∧ heap st !! 1 = Some (OPlain [("a", VNum 1)])
      ∧ heap st' !! 1 = Some (OPlain [("a", VNum 1); ("b", VNum 2)]).
Proof. intros st native fuel. eexists. repeat split; reflexivity. Qed.

(** ** A null source *)

Definition is_composite_obj (ob : obj) : bool :=
  match ob with OPlain _ | OArr _ => true | _ => false end.

Lemma composite_not_leaf h l ob :
  h !! l = Some ob → is_composite_obj ob = true → is_leaf h (VRef l) = false.
Proof. intros H Hc. unfold is_leaf. simpl. rewrite H. by destruct ob. Qed.

(** C10.  A leaf target merged with the single source [null] returns
    [null] (line 187 only skips [undefined]); a plain object or an array
    merged with [null] returns a copy with the same content (line 215
    skips [null]) and nothing else changes. *)
Theorem null_source_replaces_leaf_only native fuel st target :
  (is_leaf (heap st) target = true →
     deepmerge native (S fuel) target [VNull] st = Ok VNull st)
  ∧ (∀ l ob, target = VRef l → heap st !! l = Some ob →
       is_composite_obj ob = true →
       deepmerge native (S fuel) target [VNull] st
       = Ok (VRef (length (heap st))) (Store (heap st ++ [ob]) (console st))).
Proof.
  split.
  - intros Hleaf. unfold deepmerge, parse_args, run_merge, is_leaf in *. simpl.
    unfold mergeObjects_body, bind, get_heap, gets. simpl.
    rewrite Hleaf. simpl. unfold bind, ret, get_heap, gets. simpl.
    rewrite andb_false_r. by destruct st.
  - intros l ob -> Hl Hc. unfold deepmerge, parse_args, run_merge. simpl.
    unfold mergeObjects_body, bind, get_heap, gets. simpl. rewrite Hl.
    destruct ob; try discriminate; simpl;
      unfold clone_target, bind, get_heap, gets; simpl; rewrite Hl; reflexivity.
Qed.

Lemma null_source_replaces_leaf_only_witness :
  deepmerge log_native 1 (VNum 5) [VNull] (Store [OPlain [("a", VNum 1)]] [])
    = Ok VNull (Store [OPlain [("a", VNum 1)]] [])
  ∧ deepmerge log_native 1 (VRef 0) [VNull] (Store [OPlain [("a", VNum 1)]] [])
    = Ok (VRef 1) (Store [OPlain [("a", VNum 1)]; OPlain [("a", VNum 1)]] []).
Proof.
  split.
  - apply (null_source_replaces_leaf_only log_native 0
             (Store [OPlain [("a", VNum 1)]] []) (VNum 5)). reflexivity.
  - apply (proj2 (null_source_replaces_leaf_only log_native 0
             (Store [OPlain [("a", VNum 1)]] []) (VRef 0)) 0 (OPlain [("a", VNum 1)]));
      reflexivity.
Defined.

(** ** Function composition *)

Lemma isFunction_alloc h v o : isFunction h v = true → isFunction (h ++ [o]) v = true.
Proof.
  destruct v; simpl; try done.
  destruct (h !! l) as [ob|] eqn:E; [|done].
  by rewrite (lookup_alloc_old _ _ _ _ E).
Qed.

(** C2, as the code has it.  With [functionMerge: 'compose'] a target
    function [f] and a source function [g] merge into a new function
    object, the closure of lines 194-197; the same closure is stored
    under a key whose two values are functions (lines 248-251).  A call
    of the closure runs [f], then [g] from the store [f] left, and
    returns [undefined]: both return values are dropped. *)
Theorem compose_runs_target_then_source native fuel st f g lo :
  isFunction (heap st) f = true →
  isFunction (heap st) g = true →
  heap st !! lo = Some (OPlain [("functionMerge", VStr "compose")]) →
  let c := length (heap st) in
  deepmerge native (S fuel) f [g; VRef lo] st
    = Ok (VRef c) (Store (heap st ++ [OFun (FCompose f g)]) (console st))
  ∧ (∀ k t s, heap st !! t = Some (OPlain [(k, f)]) →
       heap st !! s = Some (OPlain [(k, g)]) →
       deepmerge native (S fuel) (VRef t) [VRef s; VRef lo] st
       = Ok (VRef c)
            (Store (heap st ++ [OPlain [(k, VRef (S c))]; OFun (FCompose f g)])
                   (console st)))
  ∧ (∀ n args s l a s1 b s2,
       heap s !! l = Some (OFun (FCompose f g)) →
       call native n f args s = Ok a s1 →
       call native n g args s1 = Ok b s2 →
       call native (S n) (VRef l) args s = Ok VUndef s2).
Proof.
  intros Hf Hg Hlo c. split; [|split].
  - unfold deepmerge, parse_args, run_merge, last_arg, is_options, resolve_options. simpl. rewrite Hlo. simpl.
    destruct f as [| | | | |lf]; try discriminate.
    destruct g as [| | | | |lg]; try discriminate.
    simpl in Hf, Hg.
    unfold mergeObjects_body, bind, get_heap, gets. simpl.
    destruct (heap st !! lf) as [[]|] eqn:Ef; try discriminate.
    destruct (heap st !! lg) as [[]|] eqn:Eg; try discriminate.
    simpl. unfold bind, get_heap, gets. simpl. rewrite Ef, Eg. reflexivity.
  - intros k t s Ht Hs.
    unfold deepmerge, parse_args, run_merge, last_arg, is_options, resolve_options. simpl. rewrite Hlo. simpl.
    unfold mergeObjects_body, bind, get_heap, gets. simpl. rewrite Ht. simpl.
    unfold clone_target, bind, get_heap, gets. simpl. rewrite Ht. simpl.
    unfold merge_source, bind. simpl.
    rewrite bool_decide_eq_false_2 by set_solver. simpl.
    rewrite lookup_alloc, (lookup_alloc_old _ _ _ _ Hs). simpl.
    unfold set_of. simpl.
    destruct (decide (k ∈ [k])) as [_|Hn]; [|by exfalso; apply Hn; left]. simpl.
    unfold merge_key, bind, get_heap, gets. simpl.
    rewrite lookup_alloc, (lookup_alloc_old _ _ _ _ Hs). simpl.
    rewrite String.eqb_refl.
    rewrite !isFunction_alloc by done. simpl.
    unfold merge_functions, assign, bind, get_heap, gets. simpl.
    rewrite lookup_app_l by (rewrite length_app; simpl; lia).
    rewrite lookup_alloc. simpl. rewrite String.eqb_refl.
    unfold update, modify, ret. simpl. do 2 f_equal.
    rewrite <- (assoc_L (++)). simpl.
    rewrite insert_app_r_alt by lia. rewrite Nat.sub_diag. simpl.
    rewrite length_app. simpl. subst c. by rewrite Nat.add_1_r.
  - intros n args s l a s1 b s2 Hl Ha Hb. simpl. rewrite Hl.
    unfold bind. by rewrite Ha, Hb.
Qed.

Lemma compose_runs_target_then_source_witness :
  let st := Store [OFun (FNative 1); OFun (FNative 2);
                   OPlain [("functionMerge", VStr "compose")]] [] in
  deepmerge log_native 1 (VRef 0) [VRef 1; VRef 2] st
  = Ok (VRef 3) (Store (heap st ++ [OFun (FCompose (VRef 0) (VRef 1))]) []).
Proof.
  intros st.
  apply (proj1 (compose_runs_target_then_source log_native 0 st (VRef 0) (VRef 1) 2
                  eq_refl eq_refl eq_refl)).
Defined.

(** C2, as the claim has it, fails: here the source function returns
    [2], and the composed function, called on the store the merge left,
    logs the call of the target and then the call of the source but
    returns [undefined], not what the source returned. *)
Lemma compose_does_not_return_the_source_value :
  let st := Store [OFun (FNative 1); OFun (FNative 2);
                   OPlain [("functionMerge", VStr "compose")]] [] in
  ∃ c st',
    deepmerge log_native 1 (VRef 0) [VRef 1; VRef 2] st = Ok c st'
    ∧ returned (call log_native 2 (VRef 1) [VNum 9] st') = Some (VNum 2)
    ∧ final (call log_native 2 c [VNum 9] st')
      = Some (Store (heap st') [Log 1 [VNum 9]; Log 2 [VNum 9]])
    ∧ returned (call log_native 2 c [VNum 9] st')
      ≠ returned (call log_native 2 (VRef 1) [VNum 9] st').
Proof. intros st. do 2 eexists. repeat split; [reflexivity..|discriminate]. Qed.

(** ** Properties of an object, keys of a pair of objects *)

Lemma get_prop_set_prop_eq ps k v : get_prop (set_prop ps k v) k = v.
Proof.
  induction ps as [|[k' v'] ps IH]; simpl.
  - by rewrite String.eqb_refl.
  - destruct (String.eqb k' k) eqn:E; simpl; by rewrite E.
Qed.

Lemma get_prop_set_prop_ne ps k k' v :
  k ≠ k' → get_prop (set_prop ps k v) k' = get_prop ps k'.
Proof.
  intros Hne. induction ps as [|[k0 v0] ps IH]; simpl.
  - by rewrite (proj2 (String.eqb_neq k k')).
  - destruct (String.eqb k0 k) eqn:E; simpl.
    + apply String.eqb_eq in E as ->.
      by rewrite (proj2 (String.eqb_neq k k')).
    + by rewrite IH.
Qed.

Lemma get_prop_not_in ps k : k ∉ ps.*1 → get_prop ps k = VUndef.
Proof.
  induction ps as [|[k' v'] ps IH]; simpl; [done|].
  intros Hn. apply not_elem_of_cons in Hn as [Hne Hn].
  rewrite (proj2 (String.eqb_neq k' k)) by done. by apply IH.
Qed.

Definition set_add (acc : list string) (k : string) : list string :=
  if decide (k ∈ acc) then acc else acc ++ [k].

Lemma set_of_fold ks : set_of ks = fold_left set_add ks [].
Proof. reflexivity. Qed.

Lemma set_add_NoDup acc k : NoDup acc → NoDup (set_add acc k).
Proof.
  intros H. unfold set_add. case_decide; [done|].
  apply NoDup_app. split; [done|]. split; [|apply NoDup_singleton].
  intros x Hx Hx'. apply list_elem_of_singleton in Hx' as ->. done.
Qed.

Lemma fold_set_add_NoDup ks acc : NoDup acc → NoDup (fold_left set_add ks acc).
Proof.
  revert acc. induction ks as [|k ks IH]; intros acc H; simpl; [done|].
  by apply IH, set_add_NoDup.
Qed.

Lemma elem_of_set_add acc k x : x ∈ set_add acc k ↔ x ∈ acc ∨ x = k.
Proof.
  unfold set_add. case_decide.
  - split; [by left|]. intros [?| ->]; done.
  - rewrite elem_of_app, list_elem_of_singleton. done.
Qed.

Lemma elem_of_fold_set_add ks acc x :
  x ∈ fold_left set_add ks acc ↔ x ∈ acc ∨ x ∈ ks.
Proof.
  revert acc. induction ks as [|k ks IH]; intros acc; simpl.
  - split; [by left|]. intros [?|H]; [done|]. by apply elem_of_nil in H.
  - rewrite IH, elem_of_set_add, elem_of_cons. tauto.
Qed.

Lemma set_of_NoDup ks : NoDup (set_of ks).
Proof. rewrite set_of_fold. apply fold_set_add_NoDup, NoDup_nil_2. Qed.

Lemma elem_of_set_of ks x : x ∈ set_of ks ↔ x ∈ ks.
Proof.
  rewrite set_of_fold, elem_of_fold_set_add. split; [|by right].
  intros [H|H]; [by apply elem_of_nil in H|done].
Qed.

Lemma insert_alloc (h : list obj) (x y : obj) :
  <[length h:=y]> (h ++ [x]) = h ++ [y].
Proof. rewrite insert_app_r_alt by lia. by rewrite Nat.sub_diag. Qed.

(** ** A source that refers to itself *)

(** what the key loop leaves in a result that had none of the keys *)
Definition copy_step (ps acc : list (string * value)) (k : string)
  : list (string * value) :=
  if is_undef (get_prop ps k) then acc else set_prop acc k (get_prop ps k).

Definition copy_defined (ps : list (string * value)) (ks : list string)
  (acc : list (string * value)) : list (string * value) :=
  fold_left (copy_step ps) ks acc.

Lemma copy_step_get_ne ps acc k0 k :
  k ≠ k0 → get_prop (copy_step ps acc k0) k = get_prop acc k.
Proof.
  intros Hne. unfold copy_step.
  destruct (is_undef (get_prop ps k0)); [done|].
  by apply get_prop_set_prop_ne.
Qed.

Lemma copy_defined_get ps ks acc k :
  NoDup ks →
  get_prop (copy_defined ps ks acc) k
  = if decide (k ∈ ks) then
      if is_undef (get_prop ps k) then get_prop acc k else get_prop ps k
    else get_prop acc k.
Proof.
  unfold copy_defined. revert acc.
  induction ks as [|k0 ks IH]; intros acc Hnd; cbn [fold_left].
  - by rewrite decide_False by apply not_elem_of_nil.
  - apply NoDup_cons in Hnd as [Hk0 Hnd]. rewrite IH by done.
    destruct (decide (k = k0)) as [->|Hne].
    + rewrite decide_False by done. rewrite decide_True by left.
      unfold copy_step.
      destruct (is_undef (get_prop ps k0)) eqn:E; [done|].
      by rewrite get_prop_set_prop_eq.
    + rewrite copy_step_get_ne by done.
      destruct (decide (k ∈ ks)) as [Hin|Hin].
      * by rewrite decide_True by (by right).
      * rewrite decide_False; [done|].
        intros H. apply elem_of_cons in H as [?|?]; done.
Qed.

Section SelfReference.
Context (native : nat → list value → M store value) (fuel : nat).
Context (rec : value → list value → Z → M mstate value).
Context (h : list obj) (con : list event) (src : loc) (ps : list (string * value)).
Hypothesis Hsrc : h !! src = Some (OPlain ps).

Lemma merge_key_into_absent acc vis k :
  get_prop acc k = VUndef →
  merge_key native default_options fuel rec 0 (VRef (length h)) (VRef src) k
    (MState (Store (h ++ [OPlain acc]) con) vis)
  = Ok tt (MState (Store (h ++ [OPlain (copy_defined ps [k] acc)]) con) vis).
Proof.
  intros Hk. unfold merge_key, bind, get_heap, gets. simpl.
  rewrite lookup_alloc, (lookup_alloc_old _ _ _ _ Hsrc), Hk. simpl.
  unfold copy_defined, copy_step. simpl.
  destruct (is_undef (get_prop ps k)) eqn:E; simpl; [done|].
  unfold assign, bind, get_heap, gets. simpl. rewrite lookup_alloc.
  unfold update, modify. simpl. by rewrite insert_alloc.
Qed.

Lemma merge_keys_into_absent ks acc vis :
  NoDup ks →
  (∀ k, k ∈ ks → get_prop acc k = VUndef) →
  forM_ ks (merge_key native default_options fuel rec 0 (VRef (length h)) (VRef src))
    (MState (Store (h ++ [OPlain acc]) con) vis)
  = Ok tt (MState (Store (h ++ [OPlain (copy_defined ps ks acc)]) con) vis).
Proof.
  revert acc. induction ks as [|k ks IH]; intros acc Hnd Habs; simpl; [done|].
  apply NoDup_cons in Hnd as [Hk Hnd].
  unfold bind. rewrite merge_key_into_absent by (apply Habs; left).
  unfold copy_defined in *. simpl. apply IH; [done|].
  intros k' Hk'.
  rewrite copy_step_get_ne by (by intros ->). apply Habs. by right.
Qed.

End SelfReference.



(** The guard of lines 217-220: a source that was visited is skipped. *)
Lemma visited_source_is_skipped native o fuel rec depth result l s :
  l ∈ visited s →
  merge_source native o fuel rec depth result (VRef l) s = Ok result s.
Proof.
  intros Hl. unfold merge_source, bind. simpl.
  unfold gets. by rewrite bool_decide_eq_true_2.
Qed.

(** * Reasoning about runs

    [wpg partial m Q s]: the run of [m] from [s] returns and its result
    and final state satisfy [Q]; when [partial] is set, a run that
    throws or exhausts its fuel is accepted as well. *)

Definition wpg {S A} (partial : bool) (m : M S A) (Q : A → S → Prop) (s : S) : Prop :=
  match m s with
  | Ok a s' => Q a s'
  | _ => partial = true
  end.

Abbreviation wp := (wpg false).
Abbreviation wlp := (wpg true).

Section Rules.
Context {S : Type} (p : bool).

Lemma wpg_ret {A} (a : A) (Q : A → S → Prop) s : Q a s → wpg p (ret a) Q s.
Proof. done. Qed.

Lemma wpg_bind {A B} (m : M S A) (k : A → M S B) (Q : B → S → Prop) s :
  wpg p m (λ a s', wpg p (k a) Q s') s → wpg p (bind m k) Q s.
Proof. unfold wpg, bind. by destruct (m s). Qed.

Lemma wpg_bind_inv {A B} (m : M S A) (k : A → M S B) (Q : B → S → Prop) s :
  wpg p (bind m k) Q s → wpg true m (λ a s', wpg p (k a) Q s') s.
Proof. unfold wpg, bind. by destruct (m s). Qed.

Lemma wpg_mono {A} (m : M S A) (Q Q' : A → S → Prop) s :
  wpg p m Q s → (∀ a s', Q a s' → Q' a s') → wpg p m Q' s.
Proof. unfold wpg. destruct (m s); auto. Qed.

Lemma wpg_gets {A} (f : S → A) (Q : A → S → Prop) s : Q (f s) s → wpg p (gets f) Q s.
Proof. done. Qed.

Lemma wpg_modify (f : S → S) (Q : unit → S → Prop) s : Q tt (f s) → wpg p (modify f) Q s.
Proof. done. Qed.

Lemma wpg_ok {A} (m : M S A) (Q : A → S → Prop) s a s' :
  m s = Ok a s' → Q a s' → wpg p m Q s.
Proof. unfold wpg. by intros ->. Qed.

(** a loop with an invariant on the elements still to come *)
Lemma wpg_forM {A} (f : A → M S unit) (I : list A → S → Prop) l s :
  I l s →
  (∀ x rest s, I (x :: rest) s → wpg p (f x) (λ _ s', I rest s') s) →
  wpg p (forM_ l f) (λ _ s', I [] s') s.
Proof.
  intros HI Hstep. revert s HI. induction l as [|x l IH]; intros s HI; simpl.
  - by apply wpg_ret.
  - apply wpg_bind. eapply wpg_mono; [by apply Hstep|]. simpl. auto.
Qed.

Lemma wpg_foldM {A B} (f : B → A → M S B) (I : list A → B → S → Prop) l b s :
  I l b s →
  (∀ x rest b s, I (x :: rest) b s → wpg p (f b x) (λ b' s', I rest b' s') s) →
  wpg p (foldM f l b) (λ b' s', I [] b' s') s.
Proof.
  intros HI Hstep. revert b s HI. induction l as [|x l IH]; intros b s HI; simpl.
  - by apply wpg_ret.
  - apply wpg_bind. eapply wpg_mono; [by apply Hstep|]. simpl. auto.
Qed.

End Rules.

Lemma wp_wlp {S A} (m : M S A) (Q Q' : A → S → Prop) s :
  wp m Q s → wlp m Q' s → wp m (λ a s', Q a s' ∧ Q' a s') s.
Proof. unfold wpg. destruct (m s); auto. Qed.

Lemma wp_returns {S A} (m : M S A) (Q : A → S → Prop) s :
  wp m Q s ↔ ∃ a s', m s = Ok a s' ∧ Q a s'.
Proof.
  unfold wpg. split.
  - destruct (m s); try done. eauto.
  - by intros (a & s' & -> & HQ).
Qed.

Lemma wlp_returns {S A} (m : M S A) (Q : A → S → Prop) s :
  wlp m Q s ↔ ∀ a s', m s = Ok a s' → Q a s'.
Proof.
  unfold wpg. split.
  - intros H a s' E. by rewrite E in H.
  - intros H. destruct (m s); auto.
Qed.

Lemma wp_weaken {S A} (m : M S A) (Q : A → S → Prop) s : wp m Q s → wlp m Q s.
Proof. unfold wpg. by destruct (m s). Qed.

(** * What a merge may change *)

Definition hp (s : mstate) : list obj := heap (mstore s).
Arguments hp : simpl never.

Definition with_heap (s : mstate) (h : list obj) : mstate :=
  MState (Store h (console (mstore s))) (visited s).

(** A plain object stays a plain object, any other object stays what
    it is. *)
Definition stable (ob ob' : obj) : Prop :=
  match ob with
  | OPlain _ => match ob' with OPlain _ => True | _ => False end
  | _ => ob' = ob
  end.

Lemma stable_refl ob : stable ob ob.
Proof. by destruct ob. Qed.

Lemma stable_trans ob1 ob2 ob3 : stable ob1 ob2 → stable ob2 ob3 → stable ob1 ob3.
Proof. destruct ob1, ob2; simpl; try done; by intros ? ->. Qed.

(** [ext s s']: the heap grew, the visited set grew, and no object
    changed its kind; arrays, functions and opaque objects are intact. *)
Definition ext (s s' : mstate) : Prop :=
  length (hp s) ≤ length (hp s')
  ∧ visited s ⊆ visited s'
  ∧ ∀ l ob, hp s !! l = Some ob → ∃ ob', hp s' !! l = Some ob' ∧ stable ob ob'.

(** [keeps P s s']: the objects of [s] at the locations in [P] are
    intact in [s']. *)
Definition keeps (P : loc → Prop) (s s' : mstate) : Prop :=
  ∀ l ob, P l → hp s !! l = Some ob → hp s' !! l = Some ob.

(** [noplain s s']: the plain objects of [s'] were there in [s]. *)
Definition noplain (s s' : mstate) : Prop :=
  ∀ l ps', hp s' !! l = Some (OPlain ps') → ∃ ps, hp s !! l = Some (OPlain ps).

Lemma ext_refl s : ext s s.
Proof. repeat split; [done..|]. intros l ob H. exists ob. split; [done|apply stable_refl]. Qed.

Lemma ext_trans s1 s2 s3 : ext s1 s2 → ext s2 s3 → ext s1 s3.
Proof.
  intros (Hl1 & Hv1 & H1) (Hl2 & Hv2 & H2). repeat split; [lia|set_solver|].
  intros l ob Hl. destruct (H1 _ _ Hl) as (ob2 & Hob2 & Hs2).
  destruct (H2 _ _ Hob2) as (ob3 & Hob3 & Hs3).
  exists ob3. split; [done|]. by eapply stable_trans.
Qed.

Lemma keeps_refl P s : keeps P s s.
Proof. by intros l ob _ H. Qed.

Lemma keeps_trans P s1 s2 s3 : keeps P s1 s2 → keeps P s2 s3 → keeps P s1 s3.
Proof. intros H1 H2 l ob HP Hl. eauto. Qed.

Lemma keeps_weaken (P P' : loc → Prop) s s' :
  (∀ l, P' l → P l) → keeps P s s' → keeps P' s s'.
Proof. intros HP H l ob HP' Hl. eauto. Qed.

Lemma noplain_refl s : noplain s s.
Proof. intros l ps H. eauto. Qed.

Lemma noplain_trans s1 s2 s3 : noplain s1 s2 → noplain s2 s3 → noplain s1 s3.
Proof. intros H1 H2 l ps H. destruct (H2 _ _ H) as [ps2 Hps2]. eauto. Qed.

Lemma ext_kind_plain s s' v :
  ext s s' → isPlainObject (hp s) v = true → isPlainObject (hp s') v = true.
Proof.
  intros (_ & _ & H). destruct v; simpl; try done.
  destruct (hp s !! l) as [ob|] eqn:E; [|done].
  destruct (H _ _ E) as (ob' & -> & Hst). by destruct ob, ob'.
Qed.

Lemma ext_kind_array s s' v :
  ext s s' → isArray (hp s) v = true → isArray (hp s') v = true.
Proof.
  intros (_ & _ & H). destruct v; simpl; try done.
  destruct (hp s !! l) as [ob|] eqn:E; [|done].
  destruct (H _ _ E) as (ob' & -> & Hst). destruct ob; try done.
  simpl in Hst. by subst.
Qed.

Lemma ext_elems s s' v :
  ext s s' → isArray (hp s) v = true → elems_of (hp s') v = elems_of (hp s) v.
Proof.
  intros (_ & _ & H). destruct v; simpl; try done.
  destruct (hp s !! l) as [ob|] eqn:E; [|done].
  destruct (H _ _ E) as (ob' & -> & Hst). destruct ob; try done.
  simpl in Hst. by subst.
Qed.

(** ** Primitive steps *)

Arguments alloc : simpl never.
Arguments get : simpl never.
Arguments assign : simpl never.
Arguments assign_index : simpl never.
Arguments merge_functions : simpl never.
Arguments mergeArrays : simpl never.
Arguments merge_index : simpl never.
Arguments merge_key : simpl never.
Arguments merge_source : simpl never.
Arguments clone_target : simpl never.

Section Steps.
Context (p : bool).

Lemma wpg_alloc (ob : obj) (Q : value → mstate → Prop) s :
  Q (VRef (length (hp s))) (with_heap s (hp s ++ [ob])) → wpg p (alloc ob) Q s.
Proof. done. Qed.

Lemma wpg_get_heap (Q : list obj → mstate → Prop) s :
  Q (hp s) s → wpg p get_heap Q s.
Proof. done. Qed.

Lemma wpg_assign result key v (Q : unit → mstate → Prop) s :
  (∀ l ps, result = VRef l → hp s !! l = Some (OPlain ps) →
     Q tt (with_heap s (<[l:=OPlain (set_prop ps key v)]> (hp s)))) →
  (isPlainObject (hp s) result = false → Q tt s) →
  wpg p (assign result key v) Q s.
Proof.
  intros H1 H2. unfold assign. destruct result; try by apply H2.
  apply wpg_bind, wpg_get_heap. simpl in H2.
  destruct (hp s !! l) as [[]|] eqn:E; try by (apply wpg_ret, H2).
  by apply wpg_modify, H1.
Qed.

Lemma wpg_assign_index merged i v (Q : unit → mstate → Prop) s :
  (∀ l es, merged = VRef l → hp s !! l = Some (OArr es) →
     Q tt (with_heap s (<[l:=OArr (array_set es i v)]> (hp s)))) →
  (isArray (hp s) merged = false → Q tt s) →
  wpg p (assign_index merged i v) Q s.
Proof.
  intros H1 H2. unfold assign_index. destruct merged; try by apply H2.
  apply wpg_bind, wpg_get_heap. simpl in H2.
  destruct (hp s !! l) as [[]|] eqn:E; try by (apply wpg_ret, H2).
  by apply wpg_modify, H1.
Qed.

End Steps.

Lemma alloc_ext s ob : ext s (with_heap s (hp s ++ [ob])).
Proof.
  repeat split; simpl.
  - unfold hp. simpl. rewrite length_app. lia.
  - done.
  - intros l o' H. exists o'. split; [by apply lookup_alloc_old|apply stable_refl].
Qed.

Lemma alloc_keeps P s ob : keeps P s (with_heap s (hp s ++ [ob])).
Proof. intros l o' _ H. by apply lookup_alloc_old. Qed.

Lemma alloc_noplain s ob :
  (∀ ps, ob ≠ OPlain ps) → noplain s (with_heap s (hp s ++ [ob])).
Proof.
  intros Hob l ps'. unfold hp. simpl. intros H.
  destruct (decide (l < length (heap (mstore s)))) as [Hlt|Hge].
  - rewrite lookup_app_l in H by done. eauto.
  - apply lookup_app_Some in H as [H|[_ H]].
    + apply lookup_lt_Some in H. lia.
    + apply list_lookup_singleton_Some in H as [_ H]. by apply Hob in H.
Qed.

Lemma update_plain_ext s l ps ps' :
  hp s !! l = Some (OPlain ps) → ext s (with_heap s (<[l:=OPlain ps']> (hp s))).
Proof.
  intros Hl. repeat split; simpl.
  - unfold hp. simpl. by rewrite length_insert.
  - done.
  - intros l' ob H. unfold hp in *. simpl.
    destruct (decide (l = l')) as [<-|Hne].
    + rewrite list_lookup_insert_eq by (by eapply lookup_lt_Some).
      eexists. split; [done|]. rewrite Hl in H. by injection H as <-.
    + rewrite list_lookup_insert_ne by done. exists ob. split; [done|apply stable_refl].
Qed.

Lemma update_keeps (P : loc → Prop) s l ob :
  ¬ P l → keeps P s (with_heap s (<[l:=ob]> (hp s))).
Proof.
  intros HP l' ob' HP' H. unfold hp in *. simpl.
  rewrite list_lookup_insert_ne; [done|]. by intros ->.
Qed.

Lemma update_plain_noplain s l ps ps' :
  hp s !! l = Some (OPlain ps) → noplain s (with_heap s (<[l:=OPlain ps']> (hp s))).
Proof.
  intros Hl l' ps0. unfold hp in *. simpl. intros H.
  destruct (decide (l = l')) as [<-|Hne]; [eauto|].
  rewrite list_lookup_insert_ne in H by done. eauto.
Qed.

Lemma update_array_noplain s l es es' :
  hp s !! l = Some (OArr es) → noplain s (with_heap s (<[l:=OArr es']> (hp s))).
Proof.
  intros Hl l' ps0. unfold hp in *. simpl. intros H.
  destruct (decide (l = l')) as [<-|Hne].
  - rewrite list_lookup_insert_eq in H by (by eapply lookup_lt_Some). done.
  - rewrite list_lookup_insert_ne in H by done. eauto.
Qed.

(** ** The built-in strategies *)

(** no [customMerge], and an [arrayMerge] that is not an object (so not
    a function) *)
Definition no_callbacks (o : options) : Prop :=
  truthy (customMerge o) = false ∧ ∀ l, arrayMerge o ≠ VRef l.

(** [rel o P s s']: what a piece of the engine may do to the state when
    it may write to the objects outside [P] only.  When [clone] is off
    it may write anywhere, but it creates no plain object. *)
Definition rel (o : options) (P : loc → Prop) (s s' : mstate) : Prop :=
  ext s s'
  ∧ (truthy (clone o) = true → keeps P s s')
  ∧ (truthy (clone o) = false → noplain s s').

(** what a call [mergeObjects(target, srcs, depth)] may change: with
    [clone] on, nothing but the sources before the last one *)
Definition changes (o : options) (srcs : list value) (s s' : mstate) : Prop :=
  rel o (λ l, VRef l ∉ removelast srcs) s s'.

Definition fresh (s : mstate) (v : value) : Prop :=
  ∃ r, v = VRef r ∧ length (hp s) ≤ r.

Section Rel.
Context (o : options).

Lemma rel_refl P s : rel o P s s.
Proof. split; [apply ext_refl|]. split; intros _; [apply keeps_refl|apply noplain_refl]. Qed.

Lemma rel_trans P s1 s2 s3 : rel o P s1 s2 → rel o P s2 s3 → rel o P s1 s3.
Proof.
  intros (He1 & Hk1 & Hn1) (He2 & Hk2 & Hn2). split; [by eapply ext_trans|].
  split; intros Hc.
  - eapply keeps_trans; eauto.
  - eapply noplain_trans; eauto.
Qed.

Lemma rel_weaken (P P' : loc → Prop) s s' :
  (∀ l, l < length (hp s) → P' l → P l) → rel o P s s' → rel o P' s s'.
Proof.
  intros HP (He & Hk & Hn). split; [done|]. split; [|done].
  intros Hc l ob HP' Hl. apply Hk; [done| |done].
  apply HP; [|done]. by eapply lookup_lt_Some.
Qed.

Lemma rel_alloc P s ob :
  (truthy (clone o) = false → ∀ ps, ob ≠ OPlain ps) →
  rel o P s (with_heap s (hp s ++ [ob])).
Proof.
  intros Hob. split; [apply alloc_ext|]. split; intros Hc.
  - apply alloc_keeps.
  - by apply alloc_noplain, Hob.
Qed.

Lemma rel_update_plain (P : loc → Prop) s l ps ps' :
  hp s !! l = Some (OPlain ps) → ¬ P l →
  rel o P s (with_heap s (<[l:=OPlain ps']> (hp s))).
Proof.
  intros Hl HP. split; [by eapply update_plain_ext|]. split; intros Hc.
  - by apply update_keeps.
  - by eapply update_plain_noplain.
Qed.

Lemma rel_console P s c :
  rel o P s (MState (Store (hp s) c) (visited s)).
Proof.
  split; [|split; intros _].
  - repeat split; [done..|]. intros l ob H. exists ob. split; [done|apply stable_refl].
  - by intros l ob _ H.
  - intros l ps H. eauto.
Qed.

Lemma rel_visit P s l :
  rel o P s (MState (mstore s) ({[l]} ∪ visited s)).
Proof.
  split; [|split; intros _].
  - repeat split; [done|set_solver|]. intros l' ob H. exists ob. split; [done|apply stable_refl].
  - by intros l' ob _ H.
  - intros l' ps H. eauto.
Qed.

End Rel.

Lemma ext_update_fresh s0 s m ob :
  ext s0 s → length (hp s0) ≤ m → ext s0 (with_heap s (<[m:=ob]> (hp s))).
Proof.
  intros (Hlen & Hv & H) Hm. repeat split.
  - unfold hp at 2. simpl. by rewrite length_insert.
  - done.
  - intros l o' Hl. destruct (H _ _ Hl) as (o'' & Ho'' & Hst). exists o''.
    split; [|done]. unfold hp at 1. simpl.
    rewrite list_lookup_insert_ne; [done|].
    apply lookup_lt_Some in Hl. lia.
Qed.

Lemma keeps_update_fresh P s0 s m ob :
  keeps P s0 s → length (hp s0) ≤ m → keeps P s0 (with_heap s (<[m:=ob]> (hp s))).
Proof.
  intros H Hm l o' HP Hl. unfold hp at 1. simpl.
  rewrite list_lookup_insert_ne; [by apply H|].
  apply lookup_lt_Some in Hl. lia.
Qed.

Lemma noplain_update_array s0 s m es es' :
  noplain s0 s → hp s !! m = Some (OArr es) →
  noplain s0 (with_heap s (<[m:=OArr es']> (hp s))).
Proof.
  intros H Hm. eapply noplain_trans; [done|]. by eapply update_array_noplain.
Qed.

Lemma rel_update_fresh_array o P s0 s m es es' :
  rel o P s0 s → length (hp s0) ≤ m → hp s !! m = Some (OArr es) →
  rel o P s0 (with_heap s (<[m:=OArr es']> (hp s))).
Proof.
  intros (He & Hk & Hn) Hm Hl. split; [by apply ext_update_fresh|].
  split; intros Hc.
  - by apply keeps_update_fresh; auto.
  - by eapply noplain_update_array; auto.
Qed.

Lemma rel_seq o (P P' Q : loc → Prop) s1 s2 s3 :
  rel o P s1 s2 → rel o P' s2 s3 →
  (truthy (clone o) = true → ∀ l, l < length (hp s1) → Q l → P l ∧ P' l) →
  rel o Q s1 s3.
Proof.
  intros (He1 & Hk1 & Hn1) (He2 & Hk2 & Hn2) HQ. split; [by eapply ext_trans|].
  split; intros Hc.
  - intros l ob HQl Hl.
    destruct (HQ Hc l) as [HP HP']; [by eapply lookup_lt_Some|done|].
    apply Hk2; [done..|]. by apply Hk1.
  - eapply noplain_trans; eauto.
Qed.

Lemma isFunction_not_ref h v : (∀ l, v ≠ VRef l) → isFunction h v = false.
Proof. destruct v; try done. intros H. by destruct (H l). Qed.

Lemma fresh_ext s s' v : ext s s' → fresh s' v → fresh s v.
Proof. intros (Hlen & _) (r & -> & Hr). exists r. split; [done|lia]. Qed.

(** ** The engine without callbacks: what each part may change *)

Abbreviation anywhere := (λ _ : loc, True).

Section Frame.
Context (native : nat → list value → M store value) (o : options) (fuel : nat).
Context (rec : value → list value → Z → M mstate value).
Hypothesis Hno : no_callbacks o.

Section NoRec.
Context (p : bool).

Lemma merge_functions_rel P target source s :
  wpg p (merge_functions o target source)
    (λ r s', rel o P s s' ∧ (r = source ∨ fresh s r)) s.
Proof.
  unfold merge_functions. destruct (is_compose o).
  - apply wpg_alloc. split; [by apply rel_alloc|].
    right. by eexists.
  - apply wpg_ret. split; [apply rel_refl|by left].
Qed.

Lemma leaf_loop_rel P target sources s :
  wpg p (leaf_loop native o fuel target sources) (λ _ s', rel o P s s') s.
Proof.
  induction sources as [|source rest IH]; simpl.
  - apply wpg_ret, rel_refl.
  - destruct (is_undef source); [done|].
    destruct Hno as [-> _]. apply wpg_bind, wpg_ret. simpl.
    apply wpg_bind, wpg_get_heap.
    destruct (isFunction (hp s) target && isFunction (hp s) source).
    + eapply wpg_mono; [apply (merge_functions_rel P)|]. by intros r s' [? _].
    + apply wpg_ret, rel_refl.
Qed.

Lemma clone_target_rel target s :
  wpg p (clone_target o target)
    (λ r s', rel o anywhere s s'
             ∧ if truthy (clone o) then fresh s r else r = target ∧ s' = s) s.
Proof.
  unfold clone_target. destruct (truthy (clone o)) eqn:Hc.
  - apply wpg_bind, wpg_get_heap.
    assert (∀ ob, wpg p (alloc ob) (λ r s', rel o anywhere s s' ∧ fresh s r) s) as Ha.
    { intros ob. apply wpg_alloc. split; [apply rel_alloc; congruence|by eexists]. }
    destruct (isArray (hp s) target); [apply Ha|].
    destruct target; try apply Ha. destruct (hp s !! l) as [[]|]; apply Ha.
  - apply wpg_ret. split; [apply rel_refl|done].
Qed.

Lemma assign_rel s0 result key v s :
  rel o (λ l, VRef l ≠ result) s0 s →
  wpg p (assign result key v) (λ _ s', rel o (λ l, VRef l ≠ result) s0 s') s.
Proof.
  intros H. apply wpg_assign; [|done].
  intros l ps Heq Hl. subst result. eapply rel_trans; [done|].
  eapply rel_update_plain; [done|]. by intros ?.
Qed.

End NoRec.

Hypothesis Hrec : ∀ t srcs d s, wlp (rec t srcs d) (λ _ s', changes o srcs s s') s.

Lemma rec_single_rel t source d s :
  wlp (rec t [source] d) (λ _ s', rel o anywhere s s') s.
Proof.
  eapply wpg_mono; [apply Hrec|]. intros ? s'. unfold changes. simpl.
  apply rel_weaken. intros l _ _. apply not_elem_of_nil.
Qed.

Lemma merge_index_rel s0 m target source i s :
  rel o anywhere s0 s → length (hp s0) ≤ m →
  wlp (merge_index rec target source (VRef m) i) (λ _ s', rel o anywhere s0 s') s.
Proof.
  intros H0 Hm. unfold merge_index. apply wpg_bind, wpg_get_heap.
  assert (∀ v s1, rel o anywhere s0 s1 →
            wlp (assign_index (VRef m) i v) (λ _ s', rel o anywhere s0 s') s1) as Hset.
  { intros v s1 H1. apply wpg_assign_index; [|done].
    intros l es [= <-] Hl. by eapply rel_update_fresh_array. }
  repeat case_decide; try by apply Hset.
  destruct (isPlainObject (hp s) (index (hp s) target i)
            && isPlainObject (hp s) (index (hp s) source i)); [|by apply Hset].
  apply wpg_bind. eapply wpg_mono; [apply rec_single_rel|].
  intros r s1 H1. simpl. apply Hset. by eapply rel_trans.
Qed.

Lemma mergeArrays_rel target source s :
  wlp (mergeArrays native fuel rec target source (arrayMerge o))
    (λ r s', rel o anywhere s s' ∧ fresh s r) s.
Proof.
  unfold mergeArrays. apply wpg_bind, wpg_get_heap.
  rewrite isFunction_not_ref by apply Hno.
  assert (∀ ob, (∀ ps, ob ≠ OPlain ps) →
            wlp (alloc ob) (λ r s', rel o anywhere s s' ∧ fresh s r) s) as Ha.
  { intros ob Hob. apply wpg_alloc. split; [by apply rel_alloc|by eexists]. }
  case_bool_decide; [by apply Ha|].
  case_bool_decide; [|by apply Ha].
  apply wpg_bind, wpg_alloc, wpg_bind.
  eapply wpg_mono.
  - apply (wpg_forM _ _ (λ _ s1, rel o anywhere s s1)).
    + by apply rel_alloc.
    + intros i _ s1 H1. by apply merge_index_rel.
  - intros ? s1 H1. simpl. apply wpg_ret. split; [done|by eexists].
Qed.

Lemma merge_key_rel depth result source key s :
  wlp (merge_key native o fuel rec depth result source key)
    (λ _ s', rel o (λ l, VRef l ≠ result) s s') s.
Proof.
  unfold merge_key. apply wpg_bind, wpg_get_heap.
  destruct Hno as [Hcm _]. rewrite Hcm.
  apply wpg_bind, wpg_ret. simpl. apply wpg_bind, wpg_get_heap.
  set (tv := get (hp s) result key). set (sv := get (hp s) source key).
  destruct (isFunction (hp s) tv && isFunction (hp s) sv).
  { apply wpg_bind. eapply wpg_mono; [apply (merge_functions_rel _ (λ l, VRef l ≠ result))|].
    intros r s1 [H1 _]. simpl. by apply assign_rel. }
  destruct (isPlainObject (hp s) tv && isPlainObject (hp s) sv).
  { apply wpg_bind. eapply wpg_mono; [apply rec_single_rel|].
    intros r s1 H1. simpl. apply assign_rel. revert H1. by apply rel_weaken. }
  destruct (isArray (hp s) tv && isArray (hp s) sv).
  { apply wpg_bind. eapply wpg_mono; [apply mergeArrays_rel|].
    intros r s1 [H1 _]. simpl. apply assign_rel. revert H1. by apply rel_weaken. }
  destruct (negb (is_undef sv)).
  - apply assign_rel, rel_refl.
  - apply wpg_ret, rel_refl.
Qed.

Lemma merge_source_rel depth result source s :
  wlp (merge_source native o fuel rec depth result source)
    (λ r s', rel o (λ l, VRef l ≠ result) s s'
             ∧ (r = result
                ∨ (r = source ∧ ∃ x, r = VRef x ∧ x ∈ visited s')
                ∨ fresh s r)) s.
Proof.
  unfold merge_source.
  destruct (isNullish source); [apply wpg_ret; split; [apply rel_refl|by left]|].
  destruct source as [| | | | |x]; try done.
  apply wpg_bind, wpg_gets.
  case_bool_decide; [apply wpg_ret; split; [apply rel_refl|by left]|].
  apply wpg_bind, wpg_modify, wpg_bind, wpg_get_heap.
  set (s1 := MState (mstore s) ({[x]} ∪ visited s)).
  assert (rel o (λ l, VRef l ≠ result) s s1) as H1 by apply rel_visit.
  destruct (isArray (hp s1) result && isArray (hp s1) (VRef x)).
  { eapply wpg_mono; [apply mergeArrays_rel|].
    intros r s2 [H2 Hr]. split; [|by right; right].
    eapply rel_trans; [done|]. revert H2. by apply rel_weaken. }
  destruct (isPlainObject (hp s1) result && isPlainObject (hp s1) (VRef x)).
  - apply wpg_bind. eapply wpg_mono.
    + apply (wpg_forM _ _ (λ _ s2, rel o (λ l, VRef l ≠ result) s s2)); [done|].
      intros k _ s2 H2. eapply wpg_mono; [apply merge_key_rel|].
      intros ? s3 H3. by eapply rel_trans.
    + intros ? s2 H2. simpl. apply wpg_ret. split; [done|by left].
  - apply wpg_ret. split; [done|]. right; left. split; [done|].
    exists x. split; [done|]. subst s1. simpl. set_solver.
Qed.

Lemma mergeObjects_body_changes target sources depth s :
  wlp (mergeObjects_body native o fuel rec target sources depth)
    (λ _ s', changes o sources s s') s.
Proof.
  unfold mergeObjects_body, changes.
  destruct (depth_reached depth (maxDepth o)).
  { apply wpg_bind, wpg_modify, wpg_ret. apply rel_console. }
  apply wpg_bind, wpg_get_heap.
  destruct (negb (isPlainObject (hp s) target) && negb (isArray (hp s) target)).
  { apply leaf_loop_rel. }
  apply wpg_bind. eapply wpg_mono; [apply clone_target_rel|].
  intros r0 s1 [H1 Hr0]. simpl.
  eapply wpg_mono.
  - apply (wpg_foldM _ _
      (λ todo r s2, ∃ done, sources = done ++ todo
         ∧ rel o (λ l, VRef l ∉ removelast done) s s2
         ∧ (truthy (clone o) = true → fresh s r ∨ r ∈ done))).
    + exists []. split; [done|]. split.
      * revert H1. by apply rel_weaken.
      * intros Hc. rewrite Hc in Hr0. by left.
    + intros x rest r s2 (done & -> & H2 & Hr).
      eapply wpg_mono; [apply merge_source_rel|].
      intros r' s3 [H3 Hr']. exists (done ++ [x]).
      split; [by rewrite <- (assoc_L (++))|]. split.
      * eapply rel_seq; [exact H2|exact H3|].
        intros Hc l Hl. rewrite removelast_last. intros Hin. split.
        -- intros Hin'. apply Hin. clear -Hin'.
           induction done as [|a [|b done] IH]; simpl in *.
           ++ by apply elem_of_nil in Hin'.
           ++ by apply elem_of_nil in Hin'.
           ++ apply elem_of_cons in Hin' as [->|Hin']; [left|right; by apply IH].
        -- intros <-. destruct (Hr Hc) as [(r0' & [= <-] & Hge)|Hd]; [lia|done].
      * intros Hc. destruct Hr' as [->|[[-> _]|Hf]].
        -- destruct (Hr Hc) as [?|?]; [by left|right]. apply elem_of_app. by left.
        -- right. apply elem_of_app. right. by left.
        -- left. destruct H2 as [He _]. by eapply fresh_ext.
  - intros r s2 (done & Hd & H2 & _). simpl in *.
    rewrite app_nil_r in Hd. by subst.
Qed.

End Frame.

(** With [clone] on and no callback, a call of [mergeObjects] leaves
    every object that existed intact, except the sources before the
    last one; with [clone] off it creates no plain object.  Arrays,
    functions and opaque objects are never written. *)
Lemma mergeObjects_changes native o fuel target sources depth s :
  no_callbacks o →
  wlp (mergeObjects native o fuel target sources depth)
    (λ _ s', changes o sources s s') s.
Proof.
  intros Hno. revert target sources depth s.
  induction fuel as [|fuel IH]; intros target sources depth s; simpl; [done|].
  by apply mergeObjects_body_changes.
Qed.

(** * Termination without callbacks

    Every call of [mergeObjects] that goes past the visited test adds
    its source to the visited set, and every source is an object of
    the heap the top-level call started from: the sources are read
    from source objects, and those are either unchanged ([clone] on:
    only the working results are written, and they are new or visited)
    or hold no new plain object ([clone] off: none is created).  So
    the number of initial objects not yet visited bounds the depth of
    the recursion, whatever [maxDepth] is. *)

Definition refs (ob : obj) : list value :=
  match ob with
  | OPlain ps => ps.*2
  | OArr es => es
  | _ => []
  end.

Definition old (n : nat) (v : value) : Prop := ∀ l, v = VRef l → l < n.

(** no object of the heap refers outside the heap *)
Definition wf_heap (h : list obj) : Prop :=
  ∀ l ob v, h !! l = Some ob → v ∈ refs ob → old (length h) v.

(** a source the declared types admit: [null], [undefined] or an
    object of the heap *)
Definition src_valid (n : nat) (v : value) : Prop :=
  isNullish v = true ∨ ∃ l, v = VRef l ∧ l < n.

Definition mu (n : nat) (s : mstate) : nat :=
  size (set_seq 0 n ∖ visited s : gset nat).

Lemma mu_mono n s s' : visited s ⊆ visited s' → mu n s' ≤ mu n s.
Proof. intros H. apply subseteq_size. set_solver. Qed.

Lemma mu_visit n s x :
  x < n → x ∉ visited s → mu n (MState (mstore s) ({[x]} ∪ visited s)) < mu n s.
Proof.
  intros Hx Hv. apply subset_size. simpl.
  assert (x ∈ (set_seq 0 n : gset nat)) by (apply elem_of_set_seq; lia).
  set_solver.
Qed.

Lemma get_prop_in ps k : get_prop ps k = VUndef ∨ get_prop ps k ∈ ps.*2.
Proof.
  induction ps as [|[k' v] ps IH]; simpl; [by left|].
  destruct (String.eqb k' k).
  - right. left.
  - destruct IH as [->|IH]; [by left|right; by right].
Qed.

Section Total.
Context (native : nat → list value → M store value) (o : options).
Context (sI : mstate).
Hypothesis Hno : no_callbacks o.
Hypothesis Hwf : wf_heap (hp sI).

Abbreviation N0 := (length (hp sI)).

(** the initial objects not visited so far are as they were *)
Definition pinned (s : mstate) : Prop :=
  ∀ l ob, hp sI !! l = Some ob → l ∉ visited s → hp s !! l = Some ob.

Definition Good (s : mstate) : Prop :=
  ext sI s
  ∧ (truthy (clone o) = true → pinned s)
  ∧ (truthy (clone o) = false → noplain sI s).

(** the source being merged is an initial object, as it was *)
Definition intact (s : mstate) (v : value) : Prop :=
  truthy (clone o) = true → ∀ x, v = VRef x → x < N0 ∧ hp s !! x = hp sI !! x.

(** the working result is new or visited *)
Definition res_ok (s : mstate) (r : value) : Prop :=
  truthy (clone o) = true → ∃ l, r = VRef l ∧ (N0 ≤ l ∨ l ∈ visited s).

Lemma Good_init : Good sI.
Proof.
  split; [apply ext_refl|]. split; intros _; [|apply noplain_refl].
  by intros l ob H _.
Qed.

Lemma Good_step (P : loc → Prop) s s' :
  Good s → rel o P s s' →
  (truthy (clone o) = true → ∀ l, l < N0 → l ∉ visited s' → P l) →
  Good s'.
Proof.
  intros (He & Hp & Hn) (He' & Hk & Hn') HP.
  split; [by eapply ext_trans|]. split; intros Hc.
  - intros l ob Hl Hv. apply (Hk Hc).
    + apply (HP Hc); [by eapply lookup_lt_Some|done].
    + apply (Hp Hc); [done|]. destruct He' as (_ & Hvis & _). set_solver.
  - eapply noplain_trans; eauto.
Qed.

Lemma Good_anywhere s s' : Good s → rel o anywhere s s' → Good s'.
Proof. intros H Hr. eapply Good_step; [done..|]. done. Qed.

Lemma Good_length s : Good s → N0 ≤ length (hp s).
Proof. by intros ((? & _) & _). Qed.

Lemma Good_plain_old s v :
  Good s → truthy (clone o) = false → isPlainObject (hp s) v = true →
  ∃ l, v = VRef l ∧ l < N0.
Proof.
  intros (_ & _ & Hn) Hc Hv. destruct v; try done. simpl in Hv.
  destruct (hp s !! l) as [[]|] eqn:E; try done.
  destruct (Hn Hc _ _ E) as [ps Hps]. exists l. split; [done|].
  by eapply lookup_lt_Some.
Qed.

Lemma plain_is_ref h v : isPlainObject h v = true → ∃ l, v = VRef l.
Proof. destruct v; try done. eauto. Qed.

(** the plain values under the keys of an intact source are initial
    objects *)
Lemma site_plain s x k :
  Good s → intact s (VRef x) →
  isPlainObject (hp s) (get (hp s) (VRef x) k) = true →
  ∃ l, get (hp s) (VRef x) k = VRef l ∧ l < N0.
Proof.
  intros HG Hi Hp. destruct (truthy (clone o)) eqn:Hc.
  - destruct (plain_is_ref _ _ Hp) as [l Hl]. exists l. split; [done|].
    destruct (Hi Hc x eq_refl) as [Hx Hxx].
    revert Hl. unfold get. rewrite Hxx.
    destruct (hp sI !! x) as [[ps| | |]|] eqn:E; try done.
    intros Hl. destruct (get_prop_in ps k) as [Hu|Hin]; [congruence|].
    rewrite Hl in Hin. by apply (Hwf _ _ _ E Hin).
  - by apply (Good_plain_old s).
Qed.

Lemma array_intact s a :
  Good s → a < N0 → isArray (hp s) (VRef a) = true → hp s !! a = hp sI !! a.
Proof.
  intros ((_ & _ & He) & _) Ha Harr. simpl in Harr.
  destruct (lookup_lt_is_Some_2 (hp sI) a Ha) as [ob Hob].
  destruct (He _ _ Hob) as (ob' & Hob' & Hst). rewrite Hob', Hob.
  rewrite Hob' in Harr. destruct ob'; try done.
  destruct ob; simpl in Hst; try done; congruence.
Qed.

(** an array under a key of an intact source is an initial array, as
    it was *)
Lemma site_array s x k :
  Good s → intact s (VRef x) →
  isArray (hp s) (get (hp s) (VRef x) k) = true →
  intact s (get (hp s) (VRef x) k).
Proof.
  intros HG Hi Harr Hc a Ha.
  destruct (Hi Hc x eq_refl) as [Hx Hxx].
  assert (a < N0) as Hlt.
  { revert Ha. unfold get. rewrite Hxx.
    destruct (hp sI !! x) as [[ps| | |]|] eqn:E; try done.
    intros Hl. destruct (get_prop_in ps k) as [Hu|Hin]; [congruence|].
    rewrite Hl in Hin. by apply (Hwf _ _ _ E Hin). }
  split; [done|]. apply array_intact; [done..|]. by rewrite <- Ha.
Qed.

(** the plain elements of an intact source array are initial objects *)
Lemma site_elem s src i :
  Good s → intact s src → isArray (hp s) src = true →
  isPlainObject (hp s) (index (hp s) src i) = true →
  ∃ l, index (hp s) src i = VRef l ∧ l < N0.
Proof.
  intros HG Hi Harr Hp. destruct (truthy (clone o)) eqn:Hc.
  - destruct (plain_is_ref _ _ Hp) as [l Hl]. exists l. split; [done|].
    destruct src as [| | | | |a]; try done.
    destruct (Hi Hc a eq_refl) as [Ha Haa].
    revert Hl. unfold index, elems_of. rewrite Haa.
    destruct (hp sI !! a) as [[|es| |]|] eqn:E; try done.
    destruct (es !! i) as [v|] eqn:Ei; [|done]. simpl. intros ->.
    apply (Hwf _ _ (VRef l) E); [|done]. simpl. by eapply list_elem_of_lookup_2.
  - by apply (Good_plain_old s).
Qed.

Lemma intact_array_ext s s' src :
  intact s src → isArray (hp s) src = true → ext s s' → intact s' src.
Proof.
  intros Hi Harr (_ & _ & He) Hc a ->. destruct (Hi Hc a eq_refl) as [Ha Haa].
  split; [done|]. rewrite <- Haa. simpl in Harr.
  destruct (hp s !! a) as [ob|] eqn:E; [|done].
  destruct (He _ _ E) as (ob' & -> & Hst). destruct ob; try done.
  simpl in Hst. by subst.
Qed.

Lemma intact_keeps (P : loc → Prop) s s' x :
  intact s (VRef x) → rel o P s s' → (truthy (clone o) = true → P x) →
  intact s' (VRef x).
Proof.
  intros Hi (_ & Hk & _) HP Hc a [= <-]. destruct (Hi Hc x eq_refl) as [Hx Hxx].
  split; [done|]. rewrite <- Hxx.
  destruct (hp s !! x) as [ob|] eqn:E.
  - by apply (Hk Hc _ _ (HP Hc)).
  - apply lookup_ge_None in E.
    destruct (lookup_lt_is_Some_2 (hp sI) x Hx) as [ob Hob]. rewrite Hob in Hxx.
    apply lookup_ge_None in E. congruence.
Qed.

Lemma res_ok_distinct s s' r l :
  res_ok s r → visited s ⊆ visited s' → truthy (clone o) = true →
  l < N0 → l ∉ visited s' → VRef l ≠ r.
Proof.
  intros Hr Hv Hc Hl Hn <-. destruct (Hr Hc) as (l' & [= <-] & [?|?]); [lia|set_solver].
Qed.

Lemma total_assign result key v s : wp (assign result key v) (λ _ _, True) s.
Proof. by apply wpg_assign. Qed.

Lemma total_assign_index merged i v s : wp (assign_index merged i v) (λ _ _, True) s.
Proof. by apply wpg_assign_index. Qed.

Section Walk.
Context (fuel : nat) (rec : value → list value → Z → M mstate value) (n : nat).
Hypothesis Hrec : ∀ t srcs d s, wlp (rec t srcs d) (λ _ s', changes o srcs s s') s.
Hypothesis Hrec_total : ∀ t l d s,
  Good s → l < N0 → mu N0 s < n → wp (rec t [VRef l] d) (λ _ _, True) s.

Lemma total_merge_index target source m i s :
  Good s → mu N0 s < n → intact s source → isArray (hp s) source = true →
  wp (merge_index rec target source (VRef m) i) (λ _ _, True) s.
Proof.
  intros HG Hmu Hi Harr. unfold merge_index. apply wpg_bind, wpg_get_heap.
  repeat case_decide; try apply total_assign_index.
  destruct (isPlainObject (hp s) (index (hp s) target i)) eqn:Ht; simpl;
    [|apply total_assign_index].
  destruct (isPlainObject (hp s) (index (hp s) source i)) eqn:Hs;
    [|apply total_assign_index].
  destruct (site_elem s source i HG Hi Harr Hs) as (l & -> & Hl).
  apply wpg_bind. eapply wpg_mono; [by apply Hrec_total|].
  intros r s1 _. apply total_assign_index.
Qed.

Lemma total_mergeArrays target source s :
  Good s → mu N0 s < n → intact s source → isArray (hp s) source = true →
  wp (mergeArrays native fuel rec target source (arrayMerge o)) (λ _ _, True) s.
Proof.
  intros HG Hmu Hi Harr. unfold mergeArrays. apply wpg_bind, wpg_get_heap.
  rewrite isFunction_not_ref by apply Hno.
  case_bool_decide; [by apply wpg_alloc|].
  case_bool_decide; [|by apply wpg_alloc].
  apply wpg_bind, wpg_alloc, wpg_bind.
  eapply wpg_mono.
  - apply (wpg_forM _ _ (λ _ s1, rel o anywhere s s1)).
    + by apply rel_alloc.
    + intros i ? s1 H1.
      assert (ext s s1) as He1 by apply H1.
      eapply wpg_mono.
      * apply wp_wlp; [|by apply (merge_index_rel o rec Hrec s)].
        apply total_merge_index.
        -- by eapply Good_anywhere.
        -- eapply Nat.le_lt_trans; [|done]. apply mu_mono, He1.
        -- by eapply intact_array_ext.
        -- by eapply ext_kind_array.
      * by intros ? s2 [_ H2].
  - intros ? s1 _. by apply wpg_ret.
Qed.

Lemma total_merge_key depth result x key s :
  Good s → mu N0 s < n → intact s (VRef x) →
  wp (merge_key native o fuel rec depth result (VRef x) key) (λ _ _, True) s.
Proof.
  intros HG Hmu Hi. unfold merge_key. apply wpg_bind, wpg_get_heap.
  destruct Hno as [Hcm _]. rewrite Hcm.
  apply wpg_bind, wpg_ret. simpl. apply wpg_bind, wpg_get_heap.
  set (tv := get (hp s) result key).
  destruct (isFunction (hp s) tv && isFunction (hp s) (get (hp s) (VRef x) key)).
  { apply wpg_bind.
    eapply wpg_mono; [apply (merge_functions_rel o false anywhere)|].
    intros r s1 _. apply total_assign. }
  destruct (isPlainObject (hp s) tv && isPlainObject (hp s) (get (hp s) (VRef x) key))
    eqn:Hpp.
  { apply andb_true_iff in Hpp as [Ht Hs].
    destruct (site_plain s x key HG Hi Hs) as (l & Hl & Hlt). rewrite Hl.
    apply wpg_bind. eapply wpg_mono; [by apply Hrec_total|].
    intros r s1 _. apply total_assign. }
  destruct (isArray (hp s) tv && isArray (hp s) (get (hp s) (VRef x) key)) eqn:Haa.
  { apply andb_true_iff in Haa as [Hta Hsa].
    apply wpg_bind. eapply wpg_mono.
    - apply total_mergeArrays; [done..| |done]. by apply site_array.
    - intros r s1 _. apply total_assign. }
  destruct (negb _); [apply total_assign|by apply wpg_ret].
Qed.

Lemma total_merge_source depth result source s :
  Good s → mu N0 s ≤ n → src_valid N0 source → res_ok s result →
  wp (merge_source native o fuel rec depth result source) (λ _ _, True) s.
Proof.
  intros HG Hmu Hsrc Hres. unfold merge_source.
  destruct (isNullish source) eqn:Hnull; [by apply wpg_ret|].
  destruct Hsrc as [Hsrc|(x & -> & Hx)]; [congruence|].
  apply wpg_bind, wpg_gets.
  case_bool_decide as Hvis; [by apply wpg_ret|].
  apply wpg_bind, wpg_modify, wpg_bind, wpg_get_heap.
  set (s1 := MState (mstore s) ({[x]} ∪ visited s)).
  assert (Good s1) as HG1.
  { eapply Good_step; [done|apply (rel_visit o anywhere)|done]. }
  assert (mu N0 s1 < n) as Hmu1.
  { eapply Nat.lt_le_trans; [by apply mu_visit|done]. }
  assert (intact s1 (VRef x)) as Hi1.
  { intros Hc a [= <-]. split; [done|].
    destruct (lookup_lt_is_Some_2 (hp sI) x Hx) as [ob Hob].
    destruct HG as (_ & Hp & _). rewrite Hob. by apply (Hp Hc). }
  destruct (isArray (hp s1) result && isArray (hp s1) (VRef x)) eqn:Harr.
  { apply andb_true_iff in Harr as [_ Harr]. by apply total_mergeArrays. }
  destruct (isPlainObject (hp s1) result && isPlainObject (hp s1) (VRef x));
    [|by apply wpg_ret].
  apply wpg_bind. eapply wpg_mono.
  - apply (wpg_forM _ _ (λ _ s2, rel o (λ l, VRef l ≠ result) s1 s2));
      [apply rel_refl|].
    intros k ? s2 H2.
    assert (visited s ⊆ visited s2) as Hvs.
    { destruct H2 as ((_ & Hv & _) & _). subst s1. simpl in Hv. set_solver. }
    eapply wpg_mono.
    + apply wp_wlp; [|by apply (merge_key_rel native o fuel rec Hno Hrec)].
      apply total_merge_key.
      * eapply Good_step; [exact HG1|exact H2|].
        intros Hc l Hl Hn. by eapply res_ok_distinct.
      * eapply Nat.le_lt_trans; [|exact Hmu1]. apply mu_mono, H2.
      * eapply intact_keeps; [exact Hi1|exact H2|].
        intros Hc. by eapply (res_ok_distinct s s).
    + intros ? s3 [_ H3]. by eapply rel_trans.
  - intros ? s2 _. by apply wpg_ret.
Qed.

Lemma total_body target sources depth s :
  Good s → mu N0 s ≤ n → Forall (src_valid N0) sources →
  wp (mergeObjects_body native o fuel rec target sources depth) (λ _ _, True) s.
Proof.
  intros HG Hmu Hsrcs. unfold mergeObjects_body.
  destruct (depth_reached depth (maxDepth o)).
  { by apply wpg_bind, wpg_modify, wpg_ret. }
  apply wpg_bind, wpg_get_heap.
  destruct (negb (isPlainObject (hp s) target) && negb (isArray (hp s) target)).
  { eapply wpg_mono; [apply (leaf_loop_rel native o fuel Hno false anywhere)|done]. }
  apply wpg_bind. eapply wpg_mono; [apply (clone_target_rel o false)|].
  intros r0 s1 [H1 Hr0]. simpl.
  eapply wpg_mono.
  - apply (wpg_foldM _ _
      (λ todo r s2, Good s2 ∧ mu N0 s2 ≤ n ∧ res_ok s2 r
                    ∧ Forall (src_valid N0) todo)).
    + split; [by eapply Good_anywhere|]. split.
      { etrans; [|exact Hmu]. apply mu_mono, H1. }
      split; [|done]. intros Hc. rewrite Hc in Hr0.
      destruct Hr0 as (l & -> & Hl). exists l. split; [done|left].
      apply Good_length in HG. lia.
    + intros x rest r s2 (HG2 & Hmu2 & Hr & HF).
      apply Forall_cons in HF as [Hx HF].
      eapply wpg_mono.
      * apply wp_wlp; [|by apply (merge_source_rel native o fuel rec Hno Hrec)].
        by apply total_merge_source.
      * intros r' s3 [_ [H3 Hr']].
        assert (visited s2 ⊆ visited s3) as Hv by apply H3.
        split.
        { eapply Good_step; [exact HG2|exact H3|].
          intros Hc l Hl Hn. by eapply res_ok_distinct. }
        split; [etrans; [|exact Hmu2]; by apply mu_mono|].
        split; [|done]. intros Hc.
        destruct Hr' as [->|[[_ (y & -> & Hy)]|(y & -> & Hy)]].
        -- destruct (Hr Hc) as (l & -> & [?|?]); exists l; (split; [done|]);
             [by left|right; set_solver].
        -- exists y. auto.
        -- exists y. split; [done|left]. apply Good_length in HG2. lia.
  - by intros.
Qed.

End Walk.

Lemma mergeObjects_total n target sources depth s :
  Good s → mu N0 s ≤ n → Forall (src_valid N0) sources →
  wp (mergeObjects native o (S n) target sources depth) (λ _ _, True) s.
Proof.
  revert target sources depth s.
  induction n as [|n IH]; intros target sources depth s HG Hmu Hsrcs;
    cbn [mergeObjects].
  - apply (total_body 0 (mergeObjects native o 0) 0);
      [intros; by apply mergeObjects_changes|intros; lia|done..].
  - apply (total_body (S n) (mergeObjects native o (S n)) (S n));
      [intros; by apply mergeObjects_changes| |done..].
    intros t l d s' HG' Hl Hmu'. apply IH; [done|lia|].
    apply Forall_singleton. right. eauto.
Qed.

End Total.

(** ** The depth guard and the completion of a merge *)

Lemma Forall_removelast {A} (P : A → Prop) (l : list A) :
  Forall P l → Forall P (removelast l).
Proof.
  induction 1 as [|x l Hx Hl IH]; simpl; [done|].
  destruct l; [done|]. by constructor.
Qed.

Lemma mu_bound n s : mu n s ≤ n.
Proof.
  unfold mu. etrans; [apply (subseteq_size _ (set_seq 0 n))|]; [set_solver|].
  by rewrite size_set_seq.
Qed.

Lemma depth_guard native o fuel target sources depth s :
  depth_reached depth (maxDepth o) = true →
  mergeObjects native o (S fuel) target sources depth s
  = Ok target (MState (Store (hp s) (console (mstore s) ++ [Warn (maxDepth o)]))
                      (visited s)).
Proof. intros H. simpl. unfold mergeObjects_body. by rewrite H. Qed.




(** ** The positional array merge *)

Lemma kind_plain_stable s s' v :
  ext s s' → old (length (hp s)) v →
  isPlainObject (hp s') v = isPlainObject (hp s) v.
Proof.
  intros (_ & _ & He) Hold. destruct v as [| | | | |l]; try done. simpl.
  destruct (lookup_lt_is_Some_2 (hp s) l (Hold l eq_refl)) as [ob Hob].
  destruct (He _ _ Hob) as (ob' & -> & Hst). rewrite Hob.
  destruct ob, ob'; simpl in Hst; try done.
Qed.

Lemma array_set_end es (e : value) : array_set es (length es) e = es ++ [e].
Proof.
  unfold array_set. rewrite decide_False by lia. by rewrite Nat.sub_diag.
Qed.

Lemma seq_cons_inv x rest i k :
  x :: rest = seq i k → x = i ∧ rest = seq (S i) (k - 1) ∧ 0 < k.
Proof.
  destruct k as [|k]; simpl; [done|]. intros [= -> ->].
  rewrite Nat.sub_0_r. repeat split. lia.
Qed.

Section ArrayMerge.
Context (native : nat → list value → M store value) (o : options) (f : nat).
Context (s0 : mstate) (lt ls : loc) (ts ss : list value).
Hypothesis Hno : no_callbacks o.
Hypothesis Hwf : wf_heap (hp s0).
Hypothesis Hf : length (hp s0) < f.
Hypothesis Ht : hp s0 !! lt = Some (OArr ts).
Hypothesis Hs : hp s0 !! ls = Some (OArr ss).

Abbreviation rec0 := (mergeObjects native o f).

(** what the code stores at index [i] *)
Definition merged_elem (i : nat) (e : value) : Prop :=
  match ts !! i, ss !! i with
  | Some a, Some b =>
      if isPlainObject (hp s0) a && isPlainObject (hp s0) b
      then ∃ s1 s2, rec0 a [b] 0%Z s1 = Ok e s2
      else e = b
  | Some a, None => e = a
  | None, Some b => e = b
  | None, None => e = VUndef
  end.

Lemma rec0_changes t srcs d s :
  wlp (rec0 t srcs d) (λ _ s', changes o srcs s s') s.
Proof. by apply mergeObjects_changes. Qed.

Lemma rec0_total t l d s :
  Good o s0 s → l < length (hp s0) → mu (length (hp s0)) s < f →
  wp (rec0 t [VRef l] d) (λ _ _, True) s.
Proof.
  intros HG Hl Hmu. destruct f as [|n]; [lia|].
  apply (mergeObjects_total native o s0 Hno Hwf); [done|lia|].
  apply Forall_singleton. right. eauto.
Qed.

Lemma elems_stable s l es :
  ext s0 s → hp s0 !! l = Some (OArr es) → elems_of (hp s) (VRef l) = es.
Proof.
  intros He Hl.
  assert (isArray (hp s0) (VRef l) = true) as Ha by (unfold isArray; by rewrite Hl).
  rewrite (ext_elems s0 s _ He Ha). unfold elems_of. by rewrite Hl.
Qed.

Lemma elem_old l es i v :
  hp s0 !! l = Some (OArr es) → es !! i = Some v → old (length (hp s0)) v.
Proof.
  intros Hl Hi. apply (Hwf _ _ v Hl). simpl. by eapply list_elem_of_lookup_2.
Qed.

(** one iteration, lines 291-301 *)
Lemma merge_index_content m es i s :
  ext s0 s → hp s !! m = Some (OArr es) →
  wlp (merge_index rec0 (VRef lt) (VRef ls) (VRef m) i)
    (λ _ s', ∃ e, hp s' !! m = Some (OArr (array_set es i e)) ∧ merged_elem i e) s.
Proof.
  intros He Hm. unfold merge_index. apply wpg_bind, wpg_get_heap.
  assert (∀ e s1, hp s1 !! m = Some (OArr es) → merged_elem i e →
            wlp (assign_index (VRef m) i e)
              (λ _ s', ∃ e, hp s' !! m = Some (OArr (array_set es i e))
                            ∧ merged_elem i e) s1) as Hset.
  { intros e s1 Hm1 He1. apply wpg_assign_index.
    - intros l es' [= <-] Hl. rewrite Hm1 in Hl. injection Hl as <-.
      exists e. split; [|done]. unfold hp at 1. simpl.
      rewrite list_lookup_insert_eq; [done|]. by eapply lookup_lt_Some.
    - simpl. by rewrite Hm1. }
  unfold index. rewrite !(elems_stable s _ _ He Ht), !(elems_stable s _ _ He Hs).
  case_decide as Hboth.
  - destruct Hboth as [Hit His].
    destruct (lookup_lt_is_Some_2 ts i Hit) as [a Ha].
    destruct (lookup_lt_is_Some_2 ss i His) as [b Hb].
    rewrite Ha, Hb. simpl.
    rewrite (kind_plain_stable s0 s a He (elem_old _ _ _ _ Ht Ha)).
    rewrite (kind_plain_stable s0 s b He (elem_old _ _ _ _ Hs Hb)).
    destruct (isPlainObject (hp s0) a && isPlainObject (hp s0) b) eqn:Hpp.
    + unfold wpg, bind. destruct (rec0 a [b] 0%Z s) as [r s1| |] eqn:Hrun; try done.
      apply Hset.
      * pose proof (rec0_changes a [b] 0%Z s) as Hch. unfold wpg in Hch.
        rewrite Hrun in Hch. destruct Hch as ((_ & _ & Hst) & _).
        destruct (Hst _ _ Hm) as (ob' & -> & Hob'). simpl in Hob'. by subst.
      * unfold merged_elem. rewrite Ha, Hb, Hpp. eauto.
    + apply Hset; [done|]. unfold merged_elem. by rewrite Ha, Hb, Hpp.
  - case_decide as Hit.
    + destruct (lookup_lt_is_Some_2 ts i Hit) as [a Ha]. rewrite Ha. simpl.
      assert (ss !! i = None) as Hb by (apply lookup_ge_None_2; lia).
      apply Hset; [done|]. unfold merged_elem. by rewrite Ha, Hb.
    + assert (ts !! i = None) as Ha by (apply lookup_ge_None_2; lia).
      apply Hset; [done|]. unfold merged_elem. rewrite Ha.
      by destruct (ss !! i).
Qed.


End ArrayMerge.

(** a checker for [wf_heap] *)
Definition old_b (n : nat) (v : value) : bool :=
  match v with VRef l => l <? n | _ => true end.

Definition wf_heapb (h : list obj) : bool :=
  forallb (λ ob, forallb (old_b (length h)) (refs ob)) h.

Lemma wf_heapb_sound h : wf_heapb h = true → wf_heap h.
Proof.
  unfold wf_heapb. rewrite forallb_forall. intros H l ob v Hl Hv l' ->.
  assert (In ob h) as Hin.
  { apply list_elem_of_In. by eapply list_elem_of_lookup_2. }
  specialize (H ob Hin). rewrite forallb_forall in H.
  specialize (H (VRef l')). simpl in H. apply Nat.ltb_lt, H.
  by apply list_elem_of_In.
Qed.


(** * Idempotence

    The value a merge returns is compared with the value a second merge
    of the same source returns by their unfoldings: the trees obtained
    by following the references of the heap. *)

#[local] Set Warnings "-register-all".
Inductive tree :=
| TPrim (v : value)
| TObj (ps : list (string * tree))
| TArr (es : list tree).

Fixpoint getT (ps : list (string * tree)) (k : string) : tree :=
  match ps with
  | [] => TPrim VUndef
  | (k', t) :: ps' => if String.eqb k' k then t else getT ps' k
  end.

Fixpoint setT (ps : list (string * tree)) (k : string) (t : tree)
  : list (string * tree) :=
  match ps with
  | [] => [(k, t)]
  | (k', t') :: ps' =>
      if String.eqb k' k then (k', t) :: ps' else (k', t') :: setT ps' k t
  end.

Definition is_obj (t : tree) : bool :=
  match t with TObj _ => true | _ => false end.

Definition is_undefT (t : tree) : bool :=
  match t with TPrim VUndef => true | _ => false end.

(** ** The merge with the default options, on trees

    With [functionMerge: 'replace'] two functions give the source, and
    with [arrayMerge: 'replace'] two arrays give a copy of the source:
    on trees both are the case "the source is defined". *)

Definition pm_value (rec : Z → tree → tree → tree) (d : Z) (tv sv : tree) : tree :=
  if is_obj tv && is_obj sv then rec (d + 1)%Z tv sv
  else if negb (is_undefT sv) then sv else tv.

Definition pm_key (rec : Z → tree → tree → tree) (d : Z)
  (sp acc : list (string * tree)) (k : string) : list (string * tree) :=
  let tv := getT acc k in
  let sv := getT sp k in
  if is_obj tv && is_obj sv then setT acc k (rec (d + 1)%Z tv sv)
  else if negb (is_undefT sv) then setT acc k sv
  else acc.

Definition pm_composite (T U : tree) : tree :=
  match U with
  | TPrim v => if isNullish v then T else U
  | _ => U
  end.

Definition pm_body (rec : Z → tree → tree → tree) (d : Z) (T U : tree) : tree :=
  if (100 <=? d)%Z then T
  else
    match T with
    | TPrim _ => if is_undefT U then T else U
    | TObj tp =>
        match U with
        | TObj sp =>
            TObj (fold_left (pm_key rec d sp) (set_of (tp.*1 ++ sp.*1)) tp)
        | _ => pm_composite T U
        end
    | TArr _ => pm_composite T U
    end.

Fixpoint pmerge (fuel : nat) (d : Z) (T U : tree) : tree :=
  match fuel with
  | O => T
  | S fuel' => pm_body (pmerge fuel') d T U
  end.

(** ** Properties of trees *)

Lemma getT_setT_eq ps k t : getT (setT ps k t) k = t.
Proof.
  induction ps as [|[k' t'] ps IH]; simpl.
  - by rewrite String.eqb_refl.
  - destruct (String.eqb k' k) eqn:E; simpl; by rewrite E.
Qed.

Lemma getT_setT_ne ps k k' t : k ≠ k' → getT (setT ps k t) k' = getT ps k'.
Proof.
  intros Hne. induction ps as [|[k0 t0] ps IH]; simpl.
  - by rewrite (proj2 (String.eqb_neq k k')).
  - destruct (String.eqb k0 k) eqn:E; simpl.
    + apply String.eqb_eq in E as ->.
      by rewrite (proj2 (String.eqb_neq k k')).
    + by rewrite IH.
Qed.

Lemma getT_not_in ps k : k ∉ ps.*1 → getT ps k = TPrim VUndef.
Proof.
  induction ps as [|[k' t'] ps IH]; simpl; [done|].
  intros Hn. apply not_elem_of_cons in Hn as [Hne Hn].
  rewrite (proj2 (String.eqb_neq k' k)) by done. by apply IH.
Qed.

Lemma setT_same ps k : k ∈ ps.*1 → setT ps k (getT ps k) = ps.
Proof.
  induction ps as [|[k' t'] ps IH]; simpl.
  - intros H. by apply elem_of_nil in H.
  - intros H. destruct (String.eqb k' k) eqn:E; [done|].
    apply elem_of_cons in H as [->|H].
    + by rewrite String.eqb_refl in E.
    + by rewrite IH.
Qed.

Lemma elem_of_setT ps k t k' : k' ∈ (setT ps k t).*1 ↔ k' ∈ ps.*1 ∨ k' = k.
Proof.
  induction ps as [|[k0 t0] ps IH]; simpl.
  - rewrite list_elem_of_singleton. split; [by right|]. intros [H|H]; [|done].
    by apply elem_of_nil in H.
  - destruct (String.eqb k0 k) eqn:E; simpl.
    + apply String.eqb_eq in E as ->. rewrite !elem_of_cons. tauto.
    + rewrite !elem_of_cons, IH. tauto.
Qed.

Lemma defined_in_keys ps k : is_undefT (getT ps k) = false → k ∈ ps.*1.
Proof.
  intros H. destruct (decide (k ∈ ps.*1)) as [|Hn]; [done|].
  by rewrite getT_not_in in H.
Qed.

Section PureMerge.
Context (rec : Z → tree → tree → tree) (d : Z) (sp : list (string * tree)).

Lemma pm_key_get_ne acc k k' : k ≠ k' → getT (pm_key rec d sp acc k) k' = getT acc k'.
Proof.
  intros Hne. unfold pm_key.
  destruct (is_obj _ && is_obj _); [by apply getT_setT_ne|].
  destruct (negb _); [by apply getT_setT_ne|done].
Qed.

Lemma pm_key_get_eq acc k :
  getT (pm_key rec d sp acc k) k = pm_value rec d (getT acc k) (getT sp k).
Proof.
  unfold pm_key, pm_value.
  destruct (is_obj _ && is_obj _); [by apply getT_setT_eq|].
  destruct (negb _); [by apply getT_setT_eq|done].
Qed.

Lemma pm_fold_get ks acc k :
  NoDup ks →
  getT (fold_left (pm_key rec d sp) ks acc) k
  = if decide (k ∈ ks) then pm_value rec d (getT acc k) (getT sp k)
    else getT acc k.
Proof.
  revert acc. induction ks as [|k0 ks IH]; intros acc Hnd; cbn [fold_left].
  - by rewrite decide_False by apply not_elem_of_nil.
  - apply NoDup_cons in Hnd as [Hk0 Hnd]. rewrite IH by done.
    destruct (decide (k = k0)) as [->|Hne].
    + rewrite decide_False by done. rewrite decide_True by left.
      apply pm_key_get_eq.
    + rewrite pm_key_get_ne by done.
      destruct (decide (k ∈ ks)) as [Hin|Hin].
      * by rewrite decide_True by (by right).
      * rewrite decide_False; [done|].
        intros H. apply elem_of_cons in H as [?|?]; done.
Qed.

Lemma pm_key_keys acc k k' : k' ∈ acc.*1 → k' ∈ (pm_key rec d sp acc k).*1.
Proof.
  intros H. unfold pm_key.
  destruct (is_obj _ && is_obj _); [apply elem_of_setT; by left|].
  destruct (negb _); [apply elem_of_setT; by left|done].
Qed.

Lemma pm_fold_keys ks acc k' :
  k' ∈ acc.*1 → k' ∈ (fold_left (pm_key rec d sp) ks acc).*1.
Proof.
  revert acc. induction ks as [|k0 ks IH]; intros acc H; cbn [fold_left]; [done|].
  by apply IH, pm_key_keys.
Qed.

Lemma pm_fold_id ks acc :
  (∀ k, k ∈ ks → pm_key rec d sp acc k = acc) →
  fold_left (pm_key rec d sp) ks acc = acc.
Proof.
  induction ks as [|k0 ks IH]; intros H; cbn [fold_left]; [done|].
  rewrite H by left. apply IH. intros k Hk. apply H. by right.
Qed.

End PureMerge.

Lemma pmerge_keeps_obj f d T U : is_obj T = true → is_obj U = true →
  is_obj (pmerge f d T U) = true.
Proof.
  destruct f as [|f]; simpl; [done|]. unfold pm_body.
  destruct (100 <=? d)%Z; [done|]. by destruct T, U.
Qed.

(** merging a tree into itself changes nothing *)
Lemma pmerge_self f d X : pmerge f d X X = X.
Proof.
  revert d X. induction f as [|f IH]; intros d X; simpl; [done|].
  unfold pm_body. destruct (100 <=? d)%Z; [done|].
  destruct X as [v|sp|es]; simpl.
  - by destruct v.
  - f_equal. apply pm_fold_id. intros k _. unfold pm_key.
    destruct (is_obj (getT sp k)) eqn:Ho; simpl.
    + rewrite IH. apply setT_same, defined_in_keys. by destruct (getT sp k) as [[]| |].
    + destruct (is_undefT (getT sp k)) eqn:Hu; simpl; [done|].
      by apply setT_same, defined_in_keys.
  - done.
Qed.

(** a second merge of the same source changes nothing *)
Lemma pmerge_idempotent f d T U :
  pmerge f d (pmerge f d T U) U = pmerge f d T U.
Proof.
  revert d T U. induction f as [|f IH]; intros d T U; simpl; [done|].
  unfold pm_body. destruct (100 <=? d)%Z eqn:Hd; [done|].
  assert (∀ X, pm_body (pmerge f) d X X = X) as Hself.
  { intros X. apply (pmerge_self (S f)). }
  unfold pm_body in Hself. setoid_rewrite Hd in Hself.
  destruct T as [tv|tp|te].
  - destruct (is_undefT U) eqn:Hu; [done|].
    specialize (Hself U). by rewrite Hu in Hself.
  - destruct U as [sv|sp|se].
    + simpl. destruct (isNullish sv) eqn:Hn; simpl; [done|].
      by destruct sv.
    + f_equal.
      set (mp := fold_left (pm_key (pmerge f) d sp) (set_of (tp.*1 ++ sp.*1)) tp).
      apply pm_fold_id. intros k _.
      assert (getT mp k = pm_value (pmerge f) d (getT tp k) (getT sp k)) as Hget.
      { subst mp. rewrite pm_fold_get by apply set_of_NoDup.
        case_decide as Hin; [done|].
        rewrite elem_of_set_of, elem_of_app in Hin.
        rewrite !getT_not_in by tauto. done. }
      unfold pm_key. rewrite Hget. unfold pm_value.
      destruct (is_obj (getT tp k) && is_obj (getT sp k)) eqn:Hboth.
      * apply andb_true_iff in Hboth as [Ht Hs].
        rewrite pmerge_keeps_obj, Hs by done. simpl. rewrite IH.
        assert (getT mp k = pmerge f (d + 1) (getT tp k) (getT sp k)) as <-.
        { rewrite Hget. unfold pm_value. by rewrite Ht, Hs. }
        apply setT_same, defined_in_keys. rewrite Hget. unfold pm_value.
        rewrite Ht, Hs. simpl.
        pose proof (pmerge_keeps_obj f (d + 1) _ _ Ht Hs) as Ho.
        by destruct (pmerge f (d + 1) (getT tp k) (getT sp k)) as [[]| |].
      * destruct (is_undefT (getT sp k)) eqn:Hu; simpl.
        -- assert (is_obj (getT sp k) = false) as -> by (by destruct (getT sp k) as [[]| |]).
           by rewrite andb_false_r.
        -- assert (getT mp k = getT sp k) as Hm.
           { rewrite Hget. unfold pm_value. by rewrite Hboth, Hu. }
           assert (k ∈ mp.*1) as Hk by (apply defined_in_keys; by rewrite Hm).
           destruct (is_obj (getT sp k)); simpl.
           ++ rewrite pmerge_self, <- Hm. by apply setT_same.
           ++ rewrite <- Hm. by apply setT_same.
    + done.
  - destruct U as [sv|sp|se]; simpl; try done.
    + destruct (isNullish sv) eqn:Hn; simpl; [done|]. by destruct sv.
    + apply (Hself (TObj sp)).
Qed.

(** ** Unfoldings with locations

    [models h L]: the heap [h] holds, at the locations written in [L],
    exactly the objects and arrays that [L] displays.  A leaf is a
    primitive value or a reference to a function or an opaque object. *)

#[local] Set Warnings "-register-all".
Inductive ltree :=
| LLeaf (v : value)
| LObj (l : loc) (ps : list (string * ltree))
| LArr (l : loc) (es : list ltree).

Definition root (L : ltree) : value :=
  match L with
  | LLeaf v => v
  | LObj l _ => VRef l
  | LArr l _ => VRef l
  end.

Fixpoint shape (L : ltree) : tree :=
  match L with
  | LLeaf v => TPrim v
  | LObj _ ps => TObj (map (λ '(k, c), (k, shape c)) ps)
  | LArr _ es => TArr (map shape es)
  end.

(** every location an unfolding mentions *)
Fixpoint locs (L : ltree) : list loc :=
  match L with
  | LLeaf (VRef l) => [l]
  | LLeaf _ => []
  | LObj l ps => l :: concat (map (λ '(k, c), locs c) ps)
  | LArr l es => l :: concat (map locs es)
  end.

(** the plain objects reached through keys only: those a merge with
    the default options may visit as sources *)
Fixpoint plocs (L : ltree) : list loc :=
  match L with
  | LObj l ps => l :: concat (map (λ '(k, c), plocs c) ps)
  | _ => []
  end.

(** the locations a merge may add to the visited set *)
Definition vlocs (L : ltree) : list loc :=
  match L with
  | LObj _ _ => plocs L
  | _ => match root L with VRef l => [l] | _ => [] end
  end.

Definition valP (ps : list (string * ltree)) : list (string * value) :=
  map (λ '(k, c), (k, root c)) ps.

Definition shapeP (ps : list (string * ltree)) : list (string * tree) :=
  map (λ '(k, c), (k, shape c)) ps.

Definition is_leaf_obj (ob : obj) : bool :=
  match ob with OFun _ | OOther _ => true | _ => false end.

Definition leaf_ok (h : list obj) (v : value) : Prop :=
  ∀ l, v = VRef l → ∃ ob, h !! l = Some ob ∧ is_leaf_obj ob = true.

Inductive models (h : list obj) : ltree → Prop :=
| models_leaf v : leaf_ok h v → models h (LLeaf v)
| models_obj l ps :
    h !! l = Some (OPlain (valP ps)) →
    Forall (λ kc, models h kc.2) ps →
    models h (LObj l ps)
| models_arr l es :
    h !! l = Some (OArr (map root es)) →
    Forall (models h) es →
    models h (LArr l es).

Fixpoint getL (ps : list (string * ltree)) (k : string) : ltree :=
  match ps with
  | [] => LLeaf VUndef
  | (k', c) :: ps' => if String.eqb k' k then c else getL ps' k
  end.

Fixpoint setL (ps : list (string * ltree)) (k : string) (c : ltree)
  : list (string * ltree) :=
  match ps with
  | [] => [(k, c)]
  | (k', c') :: ps' =>
      if String.eqb k' k then (k', c) :: ps' else (k', c') :: setL ps' k c
  end.

(** two values of a heap are structurally equal *)
Definition deep_equal (h : list obj) (v1 v2 : value) : Prop :=
  ∃ L1 L2, models h L1 ∧ root L1 = v1 ∧ models h L2 ∧ root L2 = v2
           ∧ shape L1 = shape L2.

Section ltree_induction.
Context (P : ltree → Prop).
Hypothesis Hleaf : ∀ v, P (LLeaf v).
Hypothesis Hobj : ∀ l ps, Forall (λ kc, P kc.2) ps → P (LObj l ps).
Hypothesis Harr : ∀ l es, Forall P es → P (LArr l es).

Fixpoint ltree_induction (L : ltree) : P L :=
  match L with
  | LLeaf v => Hleaf v
  | LObj l ps =>
      Hobj l ps
        ((fix go (ps : list (string * ltree)) : Forall (λ kc, P kc.2) ps :=
            match ps with
            | [] => @List.Forall_nil _ _
            | (k, c) :: ps' => @List.Forall_cons _ (λ kc : string * ltree, P kc.2) (k, c) ps' (ltree_induction c) (go ps')
            end) ps)
  | LArr l es =>
      Harr l es
        ((fix go (es : list ltree) : Forall P es :=
            match es with
            | [] => @List.Forall_nil _ _
            | c :: es' => @List.Forall_cons _ P c es' (ltree_induction c) (go es')
            end) es)
  end.

End ltree_induction.

Lemma get_prop_valP ps k : get_prop (valP ps) k = root (getL ps k).
Proof.
  induction ps as [|[k' c] ps IH]; simpl; [done|]. by destruct (String.eqb k' k).
Qed.

Lemma getT_shapeP ps k : getT (shapeP ps) k = shape (getL ps k).
Proof.
  induction ps as [|[k' c] ps IH]; simpl; [done|]. by destruct (String.eqb k' k).
Qed.

Lemma set_prop_valP ps k c : set_prop (valP ps) k (root c) = valP (setL ps k c).
Proof.
  induction ps as [|[k' c'] ps IH]; simpl; [done|].
  destruct (String.eqb k' k); simpl; [done|]. f_equal. exact IH.
Qed.

Lemma setT_shapeP ps k c : setT (shapeP ps) k (shape c) = shapeP (setL ps k c).
Proof.
  induction ps as [|[k' c'] ps IH]; simpl; [done|].
  destruct (String.eqb k' k); simpl; [done|]. f_equal. exact IH.
Qed.

Lemma valP_keys ps : (valP ps).*1 = ps.*1.
Proof. induction ps as [|[k c] ps IH]; simpl; [done|]. f_equal. exact IH. Qed.

Lemma shapeP_keys ps : (shapeP ps).*1 = ps.*1.
Proof. induction ps as [|[k c] ps IH]; simpl; [done|]. f_equal. exact IH. Qed.

Lemma Forall_getL (Q : ltree → Prop) ps k :
  Forall (λ kc, Q kc.2) ps → Q (LLeaf VUndef) → Q (getL ps k).
Proof.
  intros H Hu. induction H as [|[k' c] ps Hc _ IH]; simpl; [done|].
  by destruct (String.eqb k' k).
Qed.

Lemma Forall_setL (Q : ltree → Prop) ps k c :
  Forall (λ kc, Q kc.2) ps → Q c → Forall (λ kc, Q kc.2) (setL ps k c).
Proof.
  intros H Hc. induction H as [|[k' c'] ps Hc' H IH]; simpl.
  - by repeat constructor.
  - destruct (String.eqb k' k); by constructor.
Qed.

Lemma elem_of_child_locs ps k l :
  l ∈ locs (getL ps k) → l ∈ concat (map (λ '(k, c), locs c) ps).
Proof.
  induction ps as [|[k' c] ps IH]; simpl.
  - intros H. by apply elem_of_nil in H.
  - rewrite elem_of_app. destruct (String.eqb k' k); auto.
Qed.

Lemma elem_of_child_plocs ps k l :
  l ∈ plocs (getL ps k) → l ∈ concat (map (λ '(k, c), plocs c) ps).
Proof.
  induction ps as [|[k' c] ps IH]; simpl.
  - intros H. by apply elem_of_nil in H.
  - rewrite elem_of_app. destruct (String.eqb k' k); auto.
Qed.

Lemma child_plocs_NoDup ps k :
  NoDup (concat (map (λ '(k, c), plocs c) ps)) → NoDup (plocs (getL ps k)).
Proof.
  induction ps as [|[k' c] ps IH]; simpl; [intros _; apply NoDup_nil_2|].
  intros H. apply NoDup_app in H as (Hc & _ & Hps).
  destruct (String.eqb k' k); auto.
Qed.

Lemma child_plocs_disjoint ps k k' l :
  NoDup (concat (map (λ '(k, c), plocs c) ps)) → k ≠ k' →
  l ∈ plocs (getL ps k) → l ∈ plocs (getL ps k') → False.
Proof.
  induction ps as [|[k0 c] ps IH]; simpl.
  - intros _ _ H. by apply elem_of_nil in H.
  - intros H Hne. apply NoDup_app in H as (Hc & Hdis & Hps).
    destruct (String.eqb k0 k) eqn:E; destruct (String.eqb k0 k') eqn:E'.
    + apply String.eqb_eq in E, E'. congruence.
    + intros H1 H2. eapply Hdis; [done|]. by eapply elem_of_child_plocs.
    + intros H1 H2. eapply Hdis; [done|]. by eapply elem_of_child_plocs.
    + by apply IH.
Qed.

(** ** What [models] needs of the heap *)

Lemma models_agree h h' L :
  models h L → (∀ l, l ∈ locs L → h' !! l = h !! l) → models h' L.
Proof.
  induction L as [v|l ps IH|l es IH] using ltree_induction; intros Hm Hag.
  - inversion_clear Hm as [? Hv| |]. constructor. intros l ->.
    rewrite Hag by left. by apply Hv.
  - inversion_clear Hm as [|? ? Hl Hps|]. simpl in Hag. constructor.
    + rewrite Hag by left. done.
    + assert (∀ l', l' ∈ concat (map (λ '(k, c), locs c) ps) → h' !! l' = h !! l')
        as Hag' by (intros; apply Hag; by right).
      clear Hag Hl. induction ps as [|[k c] ps IHps]; [done|].
      apply Forall_cons in IH as [IHc IH]. apply Forall_cons in Hps as [Hc Hps].
      simpl in Hag'. constructor.
      * apply IHc; [done|]. intros. apply Hag', elem_of_app. by left.
      * apply IHps; [done..|]. intros. apply Hag', elem_of_app. by right.
  - inversion_clear Hm as [| |? ? Hl Hes]. simpl in Hag. constructor.
    + rewrite Hag by left. done.
    + assert (∀ l', l' ∈ concat (map locs es) → h' !! l' = h !! l')
        as Hag' by (intros; apply Hag; by right).
      clear Hag Hl. induction es as [|c es IHes]; [done|].
      apply Forall_cons in IH as [IHc IH]. apply Forall_cons in Hes as [Hc Hes].
      simpl in Hag'. constructor.
      * apply IHc; [done|]. intros. apply Hag', elem_of_app. by left.
      * apply IHes; [done..|]. intros. apply Hag', elem_of_app. by right.
Qed.

Lemma models_lt h L l : models h L → l ∈ locs L → l < length h.
Proof.
  revert l. induction L as [v|l0 ps IH|l0 es IH] using ltree_induction;
    intros l Hm Hl.
  - inversion_clear Hm as [? Hv| |]. destruct v; simpl in Hl;
      try by apply elem_of_nil in Hl.
    apply list_elem_of_singleton in Hl as ->.
    destruct (Hv _ eq_refl) as (ob & Hob & _). by eapply lookup_lt_Some.
  - inversion_clear Hm as [|? ? Hl0 Hps|]. simpl in Hl.
    apply elem_of_cons in Hl as [->|Hl]; [by eapply lookup_lt_Some|].
    clear Hl0. induction ps as [|[k c] ps IHps]; simpl in Hl.
    + by apply elem_of_nil in Hl.
    + apply Forall_cons in IH as [IHc IH]. apply Forall_cons in Hps as [Hc Hps].
      apply elem_of_app in Hl as [Hl|Hl]; [by apply IHc|by apply IHps].
  - inversion_clear Hm as [| |? ? Hl0 Hes]. simpl in Hl.
    apply elem_of_cons in Hl as [->|Hl]; [by eapply lookup_lt_Some|].
    clear Hl0. induction es as [|c es IHes]; simpl in Hl.
    + by apply elem_of_nil in Hl.
    + apply Forall_cons in IH as [IHc IH]. apply Forall_cons in Hes as [Hc Hes].
      apply elem_of_app in Hl as [Hl|Hl]; [by apply IHc|by apply IHes].
Qed.

Lemma models_keeps s s' L :
  models (hp s) L → keeps anywhere s s' → models (hp s') L.
Proof.
  intros Hm Hk. eapply models_agree; [done|]. intros l Hl.
  destruct (lookup_lt_is_Some_2 (hp s) l (models_lt _ _ _ Hm Hl)) as [ob Hob].
  rewrite Hob. by apply Hk.
Qed.

Lemma models_update h L r ob :
  models h L → r ∉ locs L → models (<[r:=ob]> h) L.
Proof.
  intros Hm Hr. eapply models_agree; [done|]. intros l Hl.
  apply list_lookup_insert_ne. by intros ->.
Qed.

Lemma models_alloc h L ob : models h L → models (h ++ [ob]) L.
Proof.
  intros Hm. eapply models_agree; [done|]. intros l Hl.
  apply lookup_app_l. by eapply models_lt.
Qed.

Lemma models_undef h : models h (LLeaf VUndef).
Proof. constructor. by intros l. Qed.

Lemma models_child h l ps k : models h (LObj l ps) → models h (getL ps k).
Proof.
  inversion_clear 1 as [|? ? _ Hps|].
  apply (Forall_getL (models h)); [done|apply models_undef].
Qed.

(** the tests of the code, read on the unfolding *)
Lemma models_plain h L : models h L → isPlainObject h (root L) = is_obj (shape L).
Proof.
  inversion_clear 1 as [v Hv|l ps Hl _|l es Hl _]; simpl; try by rewrite Hl.
  destruct v; try done. simpl. destruct (Hv _ eq_refl) as (ob & -> & Hob).
  by destruct ob.
Qed.

Definition is_arr (t : tree) : bool :=
  match t with TArr _ => true | _ => false end.

Lemma models_array h L : models h L → isArray h (root L) = is_arr (shape L).
Proof.
  inversion_clear 1 as [v Hv|l ps Hl _|l es Hl _]; simpl; try by rewrite Hl.
  destruct v; try done. simpl. destruct (Hv _ eq_refl) as (ob & -> & Hob).
  by destruct ob.
Qed.

Lemma models_function h L :
  models h L → isFunction h (root L) = true →
  is_obj (shape L) = false ∧ is_arr (shape L) = false ∧ is_undefT (shape L) = false.
Proof.
  inversion_clear 1 as [v Hv|l ps Hl _|l es Hl _]; simpl; try by rewrite Hl.
  by destruct v.
Qed.

Lemma shape_undef L : is_undefT (shape L) = is_undef (root L).
Proof. by destruct L as [[]| |]. Qed.

(** ** The engine computes the merge of the unfoldings *)

Arguments valP : simpl never.
Arguments shapeP : simpl never.

Lemma shape_obj l ps : shape (LObj l ps) = TObj (shapeP ps).
Proof. done. Qed.

Lemma is_compose_default : is_compose default_options = false.
Proof. done. Qed.

(** a source that can be merged: an unfolding whose plain objects are
    all different and not visited *)
Definition src_pre (s : mstate) (LS : ltree) : Prop :=
  models (hp s) LS ∧ NoDup (plocs LS) ∧ ∀ l, l ∈ vlocs LS → l ∉ visited s.

(** a composite target takes no number, string or boolean source *)
Definition compat (LT LS : ltree) : Prop :=
  (∃ v, LT = LLeaf v) ∨ isNullish (root LS) = true ∨ ∃ x, root LS = VRef x.

Definition refined (f : nat) (d : Z) (s : mstate) (LT LS : ltree)
  (r : value) (s' : mstate) : Prop :=
  ∃ L', models (hp s') L' ∧ root L' = r
        ∧ shape L' = pmerge f d (shape LT) (shape LS)
        ∧ (∀ l, l ∈ locs L' → l ∈ locs LT ∨ l ∈ locs LS ∨ length (hp s) ≤ l)
        ∧ (∀ l, l ∈ visited s' → l ∈ visited s ∨ l ∈ vlocs LS).

Lemma elem_of_member_locs ps (kc : string * ltree) l :
  kc ∈ ps → l ∈ locs kc.2 → l ∈ concat (map (λ '(k, c), locs c) ps).
Proof.
  induction ps as [|[k' c] ps IH]; simpl.
  - intros H. by apply elem_of_nil in H.
  - rewrite elem_of_cons, elem_of_app. intros [->|H] Hl; auto.
Qed.

Lemma pm_key_shape rec d spL accL k :
  pm_key rec d (shapeP spL) (shapeP accL) k
  = if is_obj (shape (getL accL k)) && is_obj (shape (getL spL k))
    then setT (shapeP accL) k (rec (d + 1)%Z (shape (getL accL k)) (shape (getL spL k)))
    else if negb (is_undef (root (getL spL k)))
         then setT (shapeP accL) k (shape (getL spL k))
         else shapeP accL.
Proof. unfold pm_key. by rewrite !getT_shapeP, shape_undef. Qed.

Lemma hp_with_heap s h : hp (with_heap s h) = h.
Proof. done. Qed.

Section Refine.
Context (native : nat → list value → M store value) (f' : nat).

Abbreviation o0 := default_options.
Abbreviation rec1 := (mergeObjects native o0 f').

Hypothesis IH : ∀ d s LT LS,
  models (hp s) LT → src_pre s LS → compat LT LS →
  (100 < Z.of_nat f' + d)%Z → 1 ≤ f' →
  wp (rec1 (root LT) [root LS] d) (refined f' d s LT LS) s.

Lemma no_callbacks_default : no_callbacks o0.
Proof. split; [done|]. by intros l. Qed.

Lemma rec1_keeps t src d s :
  wlp (rec1 t [src] d) (λ _ s', rel o0 anywhere s s') s.
Proof.
  eapply wpg_mono; [apply mergeObjects_changes, no_callbacks_default|].
  intros ? s'. unfold changes. simpl. apply rel_weaken.
  intros l _ _. apply not_elem_of_nil.
Qed.

(** *** The key loop of a pair of plain objects *)

Section Keys.
Context (d : Z) (s0 : mstate) (LT LS : ltree) (x : loc) (spL : list (string * ltree)).
Context (V2 : gset loc).
Hypothesis HLS : LS = LObj x spL.
Hypothesis Hdepth : (100 <=? d)%Z = false.
Hypothesis Hfuel : (100 < Z.of_nat (S f') + d)%Z.
Hypothesis HndS : NoDup (plocs LS).
Hypothesis HV2 : ∀ l, l ∈ V2 → l ∉ concat (map (λ '(k, c), plocs c) spL).

Abbreviation r := (length (hp s0)).
Hypothesis HlocsS : ∀ l, l ∈ locs LS → l < r.

Definition child_ok (s : mstate) (c : ltree) : Prop :=
  models (hp s) c ∧ r ∉ locs c
  ∧ ∀ l, l ∈ locs c → l ∈ locs LT ∨ l ∈ locs LS ∨ r ≤ l.

(** the part of the invariant that any extension of the heap keeps *)
Definition key_frame (s : mstate) (accL : list (string * ltree)) : Prop :=
  hp s !! r = Some (OPlain (valP accL))
  ∧ Forall (λ kc, child_ok s kc.2) accL
  ∧ hp s !! x = Some (OPlain (valP spL))
  ∧ Forall (λ kc, models (hp s) kc.2) spL.

Definition key_visited (rest : list string) (s : mstate) : Prop :=
  ∀ l, l ∈ visited s →
       l ∈ V2 ∨ ∃ k', k' ∉ rest ∧ l ∈ plocs (getL spL k').

Definition key_inv (final : list (string * tree)) (rest : list string)
  (s : mstate) : Prop :=
  ∃ accL,
    key_frame s accL
    ∧ fold_left (pm_key (pmerge f') d (shapeP spL)) rest (shapeP accL) = final
    ∧ key_visited rest s
    ∧ NoDup rest.

Lemma child_ok_keeps s s' c :
  child_ok s c → keeps anywhere s s' → child_ok s' c.
Proof. intros (Hm & Hr & Hl) Hk. split; [by eapply models_keeps|done]. Qed.

Lemma key_frame_keeps s s' accL :
  key_frame s accL → keeps anywhere s s' → key_frame s' accL.
Proof.
  intros (Hr & Hacc & Hx & Hsp) Hk. split; [by apply (Hk _ _ I)|]. split.
  { eapply Forall_impl; [done|]. intros kc Hc. exact (child_ok_keeps _ _ _ Hc Hk). }
  split; [by apply (Hk _ _ I)|].
  eapply Forall_impl; [done|]. intros kc Hc. exact (models_keeps _ _ _ Hc Hk).
Qed.

Lemma child_ok_undef s : child_ok s (LLeaf VUndef).
Proof.
  split; [apply models_undef|]. split; [apply not_elem_of_nil|].
  intros l Hl. by apply elem_of_nil in Hl.
Qed.

Lemma source_child s accL k :
  key_frame s accL →
  models (hp s) (getL spL k) ∧ r ∉ locs (getL spL k)
  ∧ ∀ l, l ∈ locs (getL spL k) → l ∈ locs LS.
Proof.
  intros (_ & _ & _ & Hsp).
  assert (∀ l, l ∈ locs (getL spL k) → l ∈ locs LS) as Hin.
  { intros l Hl. rewrite HLS. simpl. right. by eapply elem_of_child_locs. }
  split; [apply (Forall_getL (models (hp s))); [done|apply models_undef]|].
  split; [|done]. intros Hr. apply Hin, HlocsS in Hr. lia.
Qed.

(** storing under [k] a value whose unfolding is known *)
Lemma assign_child final k rest s accL L1 :
  key_frame s accL → child_ok s L1 →
  fold_left (pm_key (pmerge f') d (shapeP spL)) rest
    (setT (shapeP accL) k (shape L1)) = final →
  key_visited rest s → NoDup rest →
  wp (assign (VRef r) k (root L1)) (λ _ s', key_inv final rest s') s.
Proof.
  intros (Hr & Hacc & Hx & Hsp) (Hm1 & Hr1 & Hl1) Hfold Hvis Hnd.
  assert (x ≠ r) as Hxr.
  { intros ->. apply lookup_lt_Some in Hx.
    assert (r < r); [|lia]. apply HlocsS. rewrite HLS. simpl. left. }
  apply wpg_assign; [|unfold isPlainObject; by rewrite Hr].
  intros l ps [= <-] Hl. rewrite Hr in Hl. injection Hl as <-.
  exists (setL accL k L1). rewrite set_prop_valP.
  split; [|split; [by rewrite <- setT_shapeP|done]].
  set (s' := with_heap s _).
  assert (hp s' = <[r:=OPlain (valP (setL accL k L1))]> (hp s)) as Hhp by done.
  unfold key_frame. rewrite Hhp. split.
  { apply list_lookup_insert_eq. by eapply lookup_lt_Some. }
  split.
  { apply (Forall_setL (child_ok s')).
    - eapply Forall_impl; [exact Hacc|]. intros kc (Hm & Hrc & Hlc).
      split; [rewrite Hhp; by apply models_update|done].
    - split; [rewrite Hhp; by apply models_update|done]. }
  split; [by rewrite list_lookup_insert_ne|].
  eapply Forall_forall. intros kc Hkc.
  apply models_update; [by eapply (proj1 (Forall_forall _ _) Hsp)|].
  intros Hin. assert (r < r); [|lia]. apply HlocsS. rewrite HLS. simpl. right.
  by eapply elem_of_member_locs.
Qed.


Lemma key_visited_tail k rest s : key_visited (k :: rest) s → key_visited rest s.
Proof.
  intros Hvis l Hl. destruct (Hvis l Hl) as [?|(k' & Hk' & ?)]; [by left|right].
  exists k'. split; [|done]. intros ?. apply Hk'. by right.
Qed.

Lemma is_obj_root L : is_obj (shape L) = true → ∃ l ps, L = LObj l ps.
Proof. destruct L; try done. eauto. Qed.

Lemma is_arr_root L : is_arr (shape L) = true → ∃ a es, L = LArr a es.
Proof. destruct L; try done. eauto. Qed.

(** one key, lines 234-270 *)
Lemma key_step final k rest s :
  key_inv final (k :: rest) s →
  wp (merge_key native o0 f' rec1 d (VRef r) (VRef x) k)
     (λ _ s', key_inv final rest s') s.
Proof.
  intros (accL & Hfr & Hfold & Hvis & Hnd).
  apply NoDup_cons in Hnd as [Hk Hnd].
  pose proof (key_visited_tail _ _ _ Hvis) as Hvis'.
  pose proof Hfr as (Hr & Hacc & Hx & Hsp).
  destruct (source_child s accL k Hfr) as (Hsm & Hsr & Hsl).
  assert (child_ok s (getL accL k)) as Htv.
  { apply (Forall_getL (child_ok s)); [done|apply child_ok_undef]. }
  assert (child_ok s (getL spL k)) as Hsv.
  { split; [done|]. split; [done|]. intros l Hl. right; left; auto. }
  cbn [fold_left] in Hfold. rewrite pm_key_shape in Hfold.
  unfold merge_key. apply wpg_bind, wpg_get_heap.
  assert (get (hp s) (VRef r) k = root (getL accL k)) as ->.
  { unfold get. rewrite Hr. apply get_prop_valP. }
  assert (get (hp s) (VRef x) k = root (getL spL k)) as ->.
  { unfold get. rewrite Hx. apply get_prop_valP. }
  change (truthy (customMerge o0)) with false. cbv iota.
  apply wpg_bind, wpg_ret. apply wpg_bind, wpg_get_heap.
  set (tvL := getL accL k) in *. set (svL := getL spL k) in *.
  pose proof (proj1 Htv) as Htm.
  rewrite <- (models_plain _ _ Htm), <- (models_plain _ _ Hsm) in Hfold.
  destruct (isFunction (hp s) (root tvL) && isFunction (hp s) (root svL)) eqn:EF.
  { apply andb_true_iff in EF as [EF1 EF2].
    destruct (models_function _ _ Htm EF1) as (Ho1 & _ & _).
    destruct (models_function _ _ Hsm EF2) as (_ & _ & Hu2).
    rewrite (models_plain _ _ Htm), Ho1 in Hfold. rewrite shape_undef in Hu2.
    rewrite Hu2 in Hfold. simpl in Hfold.
    unfold merge_functions. rewrite is_compose_default. apply wpg_bind, wpg_ret.
    by apply (assign_child final k rest s accL svL). }
  destruct (isPlainObject (hp s) (root tvL) && isPlainObject (hp s) (root svL)) eqn:EP.
  { apply andb_true_iff in EP as [EP1 EP2].
    rewrite (models_plain _ _ Hsm) in EP2.
    destruct (is_obj_root _ EP2) as (xs & cps & Hsv_eq).
    apply wpg_bind.
    eapply wpg_mono.
    { apply wp_wlp; [|apply rec1_keeps].
      apply (IH (d + 1)%Z s tvL svL); [done| |right; right; rewrite Hsv_eq; by eexists|lia|lia].
      split; [done|]. split.
      { apply child_plocs_NoDup. rewrite HLS in HndS. simpl in HndS.
        by apply NoDup_cons in HndS as [_ ?]. }
      intros l Hl Hv. rewrite Hsv_eq in Hl. simpl in Hl.
      change (l ∈ plocs (LObj xs cps)) in Hl. rewrite <- Hsv_eq in Hl.
      destruct (Hvis l Hv) as [HV|(k' & Hk' & Hl')].
      - apply (HV2 l HV). by eapply elem_of_child_plocs.
      - rewrite HLS in HndS. simpl in HndS. apply NoDup_cons in HndS as [_ HndS].
        apply (child_plocs_disjoint spL k k' l HndS); [|done..].
        intros ->. apply Hk'. left. }
    intros rv s1 [(L' & Hm' & Hroot & Hshape & Hlocs & Hvis1) (Hext & Hkeep & _)].
    specialize (Hkeep eq_refl).
    assert (r < length (hp s)) as Hrlt by by eapply lookup_lt_Some.
    rewrite <- Hroot.
    apply (assign_child final k rest s1 accL L').
    - by eapply key_frame_keeps.
    - split; [done|]. destruct Htv as (_ & Htr & Htl). split.
      + intros Hin. destruct (Hlocs _ Hin) as [?|[?|?]]; [done|done|lia].
      + intros l Hl. destruct (Hlocs _ Hl) as [?|[?|?]]; [auto|auto|].
        right; right. lia.
    - rewrite Hshape. by rewrite <- Hfold.
    - intros l Hl. destruct (Hvis1 l Hl) as [Hv|Hv].
      + by apply Hvis'.
      + right. exists k. split; [done|]. fold svL. rewrite Hsv_eq in Hv |- *.
        exact Hv.
    - done. }
  destruct (isArray (hp s) (root tvL) && isArray (hp s) (root svL)) eqn:EA.
  { apply andb_true_iff in EA as [_ EA2].
    rewrite (models_array _ _ Hsm) in EA2.
    destruct (is_arr_root _ EA2) as (a & es & Heq).
    rewrite Heq in Hsm, Hsv, Hfold |- *.
    inversion_clear Hsm as [| |? ? Ha Hes].
    simpl in Hfold.
    apply wpg_bind. unfold mergeArrays. apply wpg_bind, wpg_get_heap.
    assert (isFunction (hp s) (arrayMerge o0) = false) as -> by done.
    rewrite bool_decide_eq_false_2 by done.
    rewrite bool_decide_eq_false_2 by done.
    assert (elems_of (hp s) (root (LArr a es)) = map root es) as ->.
    { unfold elems_of. simpl. by rewrite Ha. }
    apply wpg_alloc.
    set (s1 := with_heap s _).
    assert (hp s1 = hp s ++ [OArr (map root es)]) as Hhp by done.
    assert (r < length (hp s)) as Hrlt by by eapply lookup_lt_Some.
    assert (keeps anywhere s s1) as Hkeep.
    { intros l ob _ Hl. rewrite Hhp. by apply lookup_app_l_Some. }
    apply (assign_child final k rest s1 accL (LArr (length (hp s)) es)).
    - by eapply key_frame_keeps.
    - destruct Hsv as (_ & Hsvr & Hsvl).
      simpl in Hsvr, Hsvl. split.
      { constructor.
        - rewrite Hhp. by apply list_lookup_middle.
        - eapply Forall_impl; [exact Hes|]. intros c Hc. rewrite Hhp.
          by apply models_alloc. }
      split.
      { simpl. intros Hin. apply elem_of_cons in Hin as [?|Hin]; [lia|].
        apply Hsvr. by right. }
      simpl. intros l Hl. apply elem_of_cons in Hl as [->|Hl].
      + right; right. lia.
      + apply Hsvl. by right.
    - done.
    - done.
    - done. }
  destruct (is_undef (root svL)) eqn:EU; simpl in Hfold |- *.
  - apply wpg_ret. by exists accL.
  - by apply (assign_child final k rest s accL svL).
Qed.

End Keys.

Lemma elem_of_concat_locs ps l :
  l ∈ concat (map (λ '(k, c), locs c) ps) →
  ∃ kc : string * ltree, kc ∈ ps ∧ l ∈ locs kc.2.
Proof.
  induction ps as [|[k' c] ps IHps]; simpl.
  - intros H. by apply elem_of_nil in H.
  - rewrite elem_of_app. intros [H|H].
    + exists (k', c). split; [left|done].
    + destruct (IHps H) as (kc & ? & ?). exists kc. split; [by right|done].
Qed.

Lemma root_in_vlocs L x : root L = VRef x → x ∈ vlocs L.
Proof.
  destruct L as [v|l ps|l es]; simpl; intros H.
  - rewrite H. left.
  - injection H as ->. left.
  - injection H as ->. left.
Qed.

Lemma nullish_leaf L : isNullish (root L) = true → ∃ v, L = LLeaf v ∧ isNullish v = true.
Proof. destruct L; try done. eauto. Qed.

(** the target is a leaf, lines 184-206 *)
Lemma refine_leaf d s v LS :
  (100 <=? d)%Z = false → models (hp s) (LLeaf v) → models (hp s) LS →
  wp (leaf_loop native o0 f' v [root LS])
     (refined (S f') d s (LLeaf v) LS) s.
Proof.
  intros Hd HmT HmS. cbn [leaf_loop].
  assert (pmerge (S f') d (shape (LLeaf v)) (shape LS)
          = if is_undef (root LS) then TPrim v else shape LS) as Hpure.
  { cbn [pmerge]. unfold pm_body. by rewrite Hd, shape_undef. }
  unfold refined. rewrite Hpure.
  destruct (is_undef (root LS)) eqn:EU.
  - apply wpg_ret. exists (LLeaf v). auto 10.
  - change (truthy (customMerge o0)) with false. cbv iota.
    apply wpg_bind, wpg_ret. cbn [is_undef negb]. apply wpg_bind, wpg_get_heap.
    unfold merge_functions. rewrite is_compose_default.
    assert (wp (ret (root LS))
              (λ r s', ∃ L', models (hp s') L' ∧ root L' = r ∧ shape L' = shape LS
                 ∧ (∀ l, l ∈ locs L' → l ∈ locs (LLeaf v) ∨ l ∈ locs LS ∨ length (hp s) ≤ l)
                 ∧ (∀ l, l ∈ visited s' → l ∈ visited s ∨ l ∈ vlocs LS)) s) as Hret.
    { apply wpg_ret. exists LS. auto 10. }
    by destruct (isFunction (hp s) v && isFunction (hp s) (root LS)).
Qed.


(** the target is a plain object, lines 208-275 *)
Lemma refine_plain d s t tpL LS :
  (100 <=? d)%Z = false → (100 < Z.of_nat (S f') + d)%Z →
  models (hp s) (LObj t tpL) → src_pre s LS → compat (LObj t tpL) LS →
  wp (result <~ clone_target o0 (VRef t) ;;
      foldM (merge_source native o0 f' rec1 d) [root LS] result)
     (refined (S f') d s (LObj t tpL) LS) s.
Proof.
  intros Hd Hfuel HmT (HmS & HndS & HvS) Hc.
  inversion HmT as [|? ? Ht Htps|]; subst.
  unfold clone_target. change (truthy (clone o0)) with true. cbv iota.
  apply wpg_bind, wpg_bind, wpg_get_heap.
  assert (isArray (hp s) (VRef t) = false) as -> by (simpl; by rewrite Ht).
  rewrite Ht. apply wpg_alloc.
  set (s1 := with_heap s _).
  assert (hp s1 = hp s ++ [OPlain (valP tpL)]) as Hhp1 by done.
  assert (hp s1 !! length (hp s) = Some (OPlain (valP tpL))) as Hr1.
  { rewrite Hhp1. by apply list_lookup_middle. }
  assert (∀ L, models (hp s) L → models (hp s1) L) as Hm1.
  { intros L HL. rewrite Hhp1. by apply models_alloc. }
  assert (models (hp s1) (LObj (length (hp s)) tpL)) as HmR.
  { constructor; [done|]. eapply Forall_impl; [exact Htps|]. intros kc. apply Hm1. }
  cbn [foldM]. apply wpg_bind. unfold merge_source.
  destruct (isNullish (root LS)) eqn:EN.
  { apply wpg_ret, wpg_ret. exists (LObj (length (hp s)) tpL).
    split; [done|]. split; [done|]. split; [|split].
    - destruct (nullish_leaf _ EN) as (v & -> & Hv). cbn [pmerge]. unfold pm_body.
      rewrite Hd. simpl. by rewrite Hv.
    - simpl. intros l Hl. apply elem_of_cons in Hl as [->|Hl]; [right; right; lia|].
      left. by right.
    - intros l Hl. by left. }
  destruct Hc as [(v & Hv)|[Hn|(x & Hx)]]; [done|congruence|].
  rewrite Hx. unfold visited_has. apply wpg_bind, wpg_gets.
  rewrite bool_decide_eq_false_2 by (apply HvS, root_in_vlocs, Hx).
  unfold visited_set. apply wpg_bind, wpg_modify. apply wpg_bind, wpg_get_heap.
  set (s2 := MState _ _).
  assert (hp s2 = hp s1) as Hhp2 by done.
  assert (isArray (hp s2) (VRef (length (hp s))) = false) as ->.
  { simpl. by rewrite Hhp2, Hr1. }
  assert (isPlainObject (hp s2) (VRef (length (hp s))) = true) as ->.
  { simpl. by rewrite Hhp2, Hr1. }
  cbn [andb]. rewrite <- Hx.
  rewrite (models_plain (hp s2) LS) by (rewrite Hhp2; by apply Hm1).
  assert (visited s2 = {[x]} ∪ visited s) as Hvis2 by done.
  destruct (is_obj (shape LS)) eqn:EO.
  2:{ apply wpg_ret, wpg_ret. exists LS. split; [rewrite Hhp2; by apply Hm1|].
      split; [done|]. split; [|split].
      - cbn [pmerge]. unfold pm_body. rewrite Hd. simpl.
        destruct LS as [v|? ?|? ?]; try done. simpl in Hx. by rewrite Hx.
      - auto.
      - intros l Hl. rewrite Hvis2 in Hl. apply elem_of_union in Hl as [Hl|Hl]; [|by left].
        apply elem_of_singleton in Hl as ->. right. by apply root_in_vlocs. }
  destruct (is_obj_root _ EO) as (x' & spL & ->). simpl in Hx. injection Hx as ->.
  inversion HmS as [|? ? Hxs Hsps|]; subst.
  assert (keys (hp s2) (VRef (length (hp s))) = tpL.*1) as ->.
  { simpl. by rewrite Hhp2, Hr1, valP_keys. }
  assert (keys (hp s2) (root (LObj x spL)) = spL.*1) as ->.
  { simpl. rewrite Hhp2, Hhp1, (lookup_app_l_Some _ _ _ _ Hxs). apply valP_keys. }
  simpl (root _).
  set (K := set_of (tpL.*1 ++ spL.*1)).
  set (final := fold_left (pm_key (pmerge f') d (shapeP spL)) K (shapeP tpL)).
  assert (∀ l, l ∈ locs (LObj x spL) → l < length (hp s)) as HlocsS.
  { intros l Hl. by eapply models_lt. }
  assert (∀ l, l ∈ visited s2 → l ∉ concat (map (λ '(k, c), plocs c) spL)) as HV2.
  { intros l Hl Hin. rewrite Hvis2 in Hl. apply elem_of_union in Hl as [Hl|Hl].
    - apply elem_of_singleton in Hl as ->. simpl in HndS.
      by apply NoDup_cons in HndS as [? _].
    - apply (HvS l); [|done]. simpl. by right. }
  apply wpg_bind.
  eapply wpg_mono.
  { apply wpg_forM with (I := λ rest s', key_inv d s (LObj t tpL) (LObj x spL) x spL
                                    (visited s2) final rest s').
    - exists tpL. split; [|split; [done|split; [by left|apply set_of_NoDup]]].
      split; [by rewrite Hhp2|]. split.
      { eapply Forall_forall. intros kc Hkc.
        assert (models (hp s) kc.2) as Hkm by by eapply (proj1 (Forall_forall _ _) Htps).
        split; [rewrite Hhp2; by apply Hm1|]. split.
        - intros Hin. apply (models_lt _ _ _ Hkm) in Hin. lia.
        - intros l Hl. left. simpl. right. by eapply elem_of_member_locs. }
      split; [rewrite Hhp2, Hhp1; by apply lookup_app_l_Some|].
      eapply Forall_impl; [exact Hsps|]. intros kc Hc. rewrite Hhp2. by apply Hm1.
    - intros k rest s'. by apply key_step. }
  intros _ s3 (accL & (Hr3 & Hacc & _ & _) & Hfin & Hvis3 & _).
  apply wpg_ret, wpg_ret. exists (LObj (length (hp s)) accL).
  split; [|split; [done|split; [|split]]].
  - constructor; [done|]. eapply Forall_impl; [exact Hacc|]. by intros kc (? & _).
  - cbn [pmerge]. unfold pm_body. rewrite Hd. rewrite !shape_obj, !shapeP_keys.
    f_equal. exact Hfin.
  - simpl. intros l Hl. apply elem_of_cons in Hl as [->|Hl]; [right; right; lia|].
    destruct (elem_of_concat_locs _ _ Hl) as (kc & Hkc & Hlk).
    destruct (proj1 (Forall_forall _ _) Hacc kc Hkc) as (_ & _ & Hb).
    destruct (Hb l Hlk) as [?|[?|?]]; auto.
  - intros l Hl. destruct (Hvis3 l Hl) as [HV|(k' & _ & Hk')].
    + rewrite Hvis2 in HV. apply elem_of_union in HV as [HV|HV]; [|by left].
      apply elem_of_singleton in HV as ->. right. left.
    + right. simpl. right. by eapply elem_of_child_plocs.
Qed.


(** the target is an array, lines 208-225 and 271-274 *)
Lemma refine_array d s t tes LS :
  (100 <=? d)%Z = false →
  models (hp s) (LArr t tes) → src_pre s LS → compat (LArr t tes) LS →
  wp (result <~ clone_target o0 (VRef t) ;;
      foldM (merge_source native o0 f' rec1 d) [root LS] result)
     (refined (S f') d s (LArr t tes) LS) s.
Proof.
  intros Hd HmT (HmS & HndS & HvS) Hc.
  inversion HmT as [| |? ? Ht Htes]; subst.
  unfold clone_target. change (truthy (clone o0)) with true. cbv iota.
  apply wpg_bind, wpg_bind, wpg_get_heap.
  assert (isArray (hp s) (VRef t) = true) as -> by (simpl; by rewrite Ht).
  assert (elems_of (hp s) (VRef t) = map root tes) as ->.
  { unfold elems_of. by rewrite Ht. }
  apply wpg_alloc.
  set (s1 := with_heap s _).
  assert (hp s1 = hp s ++ [OArr (map root tes)]) as Hhp1 by done.
  assert (hp s1 !! length (hp s) = Some (OArr (map root tes))) as Hr1.
  { rewrite Hhp1. by apply list_lookup_middle. }
  assert (∀ L, models (hp s) L → models (hp s1) L) as Hm1.
  { intros L HL. rewrite Hhp1. by apply models_alloc. }
  assert (models (hp s1) (LArr (length (hp s)) tes)) as HmR.
  { constructor; [done|]. eapply Forall_impl; [exact Htes|]. intros c. apply Hm1. }
  cbn [foldM]. apply wpg_bind. unfold merge_source.
  destruct (isNullish (root LS)) eqn:EN.
  { apply wpg_ret, wpg_ret. exists (LArr (length (hp s)) tes).
    split; [done|]. split; [done|]. split; [|split].
    - destruct (nullish_leaf _ EN) as (v & -> & Hv). cbn [pmerge]. unfold pm_body.
      rewrite Hd. simpl. by rewrite Hv.
    - simpl. intros l Hl. apply elem_of_cons in Hl as [->|Hl]; [right; right; lia|].
      left. by right.
    - intros l Hl. by left. }
  destruct Hc as [(v & Hv)|[Hn|(x & Hx)]]; [done|congruence|].
  rewrite Hx. unfold visited_has. apply wpg_bind, wpg_gets.
  rewrite bool_decide_eq_false_2 by (apply HvS, root_in_vlocs, Hx).
  unfold visited_set. apply wpg_bind, wpg_modify. apply wpg_bind, wpg_get_heap.
  set (s2 := MState _ _).
  assert (hp s2 = hp s1) as Hhp2 by done.
  assert (isArray (hp s2) (VRef (length (hp s))) = true) as ->.
  { simpl. by rewrite Hhp2, Hr1. }
  assert (isPlainObject (hp s2) (VRef (length (hp s))) = false) as ->.
  { simpl. by rewrite Hhp2, Hr1. }
  cbn [andb]. rewrite <- Hx.
  assert (models (hp s2) LS) as HmS2 by (rewrite Hhp2; by apply Hm1).
  rewrite (models_array (hp s2) LS) by done.
  assert (visited s2 = {[x]} ∪ visited s) as Hvis2 by done.
  assert (∀ l, l ∈ visited s2 → l ∈ visited s ∨ l ∈ vlocs LS) as Hvis.
  { intros l Hl. rewrite Hvis2 in Hl. apply elem_of_union in Hl as [Hl|Hl]; [|by left].
    apply elem_of_singleton in Hl as ->. right. by apply root_in_vlocs. }
  destruct (is_arr (shape LS)) eqn:EA.
  2:{ apply wpg_ret, wpg_ret. exists LS. split; [done|].
      split; [done|]. split; [|auto].
      cbn [pmerge]. unfold pm_body. rewrite Hd. simpl.
      destruct LS as [v|? ?|? ?]; try done. simpl in Hx. by rewrite Hx. }
  destruct (is_arr_root _ EA) as (a & ses & ->). simpl in Hx. injection Hx as ->.
  inversion HmS2 as [| |? ? Has Hses]; subst.
  unfold mergeArrays. apply wpg_bind, wpg_get_heap.
  assert (isFunction (hp s2) (arrayMerge o0) = false) as -> by done.
  rewrite bool_decide_eq_false_2 by done.
  rewrite bool_decide_eq_false_2 by done.
  assert (elems_of (hp s2) (root (LArr x ses)) = map root ses) as ->.
  { unfold elems_of. simpl. by rewrite Has. }
  apply wpg_alloc, wpg_ret.
  exists (LArr (length (hp s2)) ses).
  split; [|split; [done|split; [|split; [|exact Hvis]]]].
  - constructor.
    + rewrite hp_with_heap. by apply list_lookup_middle.
    + eapply Forall_impl; [exact Hses|]. intros c Hc. rewrite hp_with_heap.
      by apply models_alloc.
  - cbn [pmerge]. unfold pm_body. by rewrite Hd.
  - simpl. intros l Hl. apply elem_of_cons in Hl as [->|Hl].
    + right; right. rewrite Hhp2, Hhp1, length_app. lia.
    + right; left. by right.
Qed.

(** one call at a depth the guard admits or not *)
Lemma refine_body d s LT LS :
  models (hp s) LT → src_pre s LS → compat LT LS →
  (100 < Z.of_nat (S f') + d)%Z →
  wp (mergeObjects native o0 (S f') (root LT) [root LS] d)
     (refined (S f') d s LT LS) s.
Proof.
  intros HmT HS Hc Hfuel.
  destruct (100 <=? d)%Z eqn:Hd.
  { apply wp_returns. eexists _, _. split; [by apply depth_guard|].
    exists LT. split; [done|]. split; [done|]. split; [|auto].
    cbn [pmerge]. unfold pm_body. by rewrite Hd. }
  cbn [mergeObjects]. unfold mergeObjects_body.
  change (depth_reached d (maxDepth o0)) with (100 <=? d)%Z. rewrite Hd.
  apply wpg_bind, wpg_get_heap.
  rewrite (models_plain _ _ HmT), (models_array _ _ HmT).
  destruct LT as [v|t tpL|t tes]; simpl.
  - apply refine_leaf; [done..|apply HS].
  - by apply refine_plain.
  - by apply refine_array.
Qed.

End Refine.

(** with fuel above the depth limit, the engine returns the root of an
    unfolding whose shape is the merge of the shapes *)
Lemma mergeObjects_refines native f : ∀ d s LT LS,
  models (hp s) LT → src_pre s LS → compat LT LS →
  (100 < Z.of_nat f + d)%Z → 1 ≤ f →
  wp (mergeObjects native default_options f (root LT) [root LS] d)
     (refined f d s LT LS) s.
Proof.
  induction f as [|f IHf]; intros d s LT LS HmT HS Hc Hfuel Hf; [lia|].
  by apply refine_body.
Qed.


(** the entry point on one source that is not taken for the options *)
Lemma deepmerge_one_source native fuel target source st :
  is_options (heap st) source = false →
  deepmerge native fuel target [source] st
  = run_merge native default_options fuel target [source] st.
Proof.
  intros H. unfold deepmerge.
  change (parse_args (heap st) [source])
    with (if is_options (heap st) source
          then (removelast [source], resolve_options (heap st) source)
          else ([source], default_options)).
  by rewrite H.
Qed.

Lemma is_options_keeps s s' v :
  keeps anywhere s s' → (∀ l, v = VRef l → l < length (hp s)) →
  is_options (hp s') v = is_options (hp s) v.
Proof.
  intros Hk Hlt. destruct v as [| | | | |l]; try done. simpl.
  destruct (lookup_lt_is_Some_2 (hp s) l (Hlt l eq_refl)) as [ob Hob].
  by rewrite Hob, (Hk l ob I Hob).
Qed.

Lemma root_in_locs L l : root L = VRef l → l ∈ locs L.
Proof.
  destruct L as [v|x ps|x es]; simpl.
  - intros ->. left.
  - intros [= ->]. left.
  - intros [= ->]. left.
Qed.

Lemma leaf_shape L v : shape L = TPrim v → L = LLeaf v.
Proof. destruct L; try done. by intros [= ->]. Qed.



(** ** Where a second merge changes the value *)

Lemma deep_equal_keys h l1 l2 ps1 ps2 :
  h !! l1 = Some (OPlain ps1) → h !! l2 = Some (OPlain ps2) →
  deep_equal h (VRef l1) (VRef l2) → ps1.*1 = ps2.*1.
Proof.
  intros H1 H2 (L1 & L2 & Hm1 & Hr1 & Hm2 & Hr2 & Hsh).
  assert (∀ L l ps, models h L → root L = VRef l → h !! l = Some (OPlain ps) →
            ∃ cs, L = LObj l cs ∧ valP cs = ps) as Hinv.
  { intros L l ps Hm Hr Hl. inversion Hm as [v Hv|l' cs Hl' _|l' es Hl' _]; subst;
      simpl in Hr.
    - subst v. destruct (Hv _ eq_refl) as (ob & Hob & Hleaf).
      rewrite Hl in Hob. injection Hob as <-. discriminate.
    - injection Hr as ->. rewrite Hl in Hl'. injection Hl' as ->. eauto.
    - injection Hr as ->. rewrite Hl in Hl'. discriminate. }
  destruct (Hinv _ _ _ Hm1 Hr1 H1) as (cs1 & -> & <-).
  destruct (Hinv _ _ _ Hm2 Hr2 H2) as (cs2 & -> & <-).
  rewrite !shape_obj in Hsh. injection Hsh as Hsh.
  by rewrite !valP_keys, <- !shapeP_keys, Hsh.
Qed.

Lemma deep_equal_length h l1 l2 es1 es2 :
  h !! l1 = Some (OArr es1) → h !! l2 = Some (OArr es2) →
  deep_equal h (VRef l1) (VRef l2) → length es1 = length es2.
Proof.
  intros H1 H2 (L1 & L2 & Hm1 & Hr1 & Hm2 & Hr2 & Hsh).
  assert (∀ L l es, models h L → root L = VRef l → h !! l = Some (OArr es) →
            ∃ cs, L = LArr l cs ∧ map root cs = es) as Hinv.
  { intros L l es Hm Hr Hl. inversion Hm as [v Hv|l' cs Hl' _|l' cs Hl' _]; subst;
      simpl in Hr.
    - subst v. destruct (Hv _ eq_refl) as (ob & Hob & Hleaf).
      rewrite Hl in Hob. injection Hob as <-. discriminate.
    - injection Hr as ->. rewrite Hl in Hl'. discriminate.
    - injection Hr as ->. rewrite Hl in Hl'. injection Hl' as ->. eauto. }
  destruct (Hinv _ _ _ Hm1 Hr1 H1) as (cs1 & -> & <-).
  destruct (Hinv _ _ _ Hm2 Hr2 H2) as (cs2 & -> & <-).
  simpl in Hsh. injection Hsh as Hsh.
  rewrite !length_map. by rewrite <- (length_map shape cs1), Hsh, length_map.
Qed.

(** equal unfoldings have equal properties *)
Lemma deep_equal_get h v1 v2 k :
  deep_equal h v1 v2 → deep_equal h (get h v1 k) (get h v2 k).
Proof.
  intros (L1 & L2 & Hm1 & Hr1 & Hm2 & Hr2 & Hsh).
  assert (∀ L, models h L → is_obj (shape L) = false → get h (root L) k = VUndef) as Hno.
  { intros L Hm Ho. inversion Hm as [v Hv|l' cs Hl' _|l' cs Hl' _]; subst;
      unfold get; simpl.
    - destruct v; try done. destruct (Hv _ eq_refl) as (ob & -> & Hleaf). by destruct ob.
    - done.
    - by rewrite Hl'. }
  assert (∀ L l cs, models h L → L = LObj l cs → get h (root L) k = root (getL cs k)) as Hyes.
  { intros L l cs Hm ->. inversion_clear Hm as [|? ? Hl _|]. unfold get. simpl.
    rewrite Hl.
    apply get_prop_valP. }
  rewrite <- Hr1, <- Hr2.
  destruct (is_obj (shape L1)) eqn:E1.
  - pose proof E1 as E2. rewrite Hsh in E2.
    destruct (is_obj_root _ E1) as (l1 & cs1 & ->).
    destruct (is_obj_root _ E2) as (l2 & cs2 & ->).
    rewrite (Hyes _ _ _ Hm1 eq_refl), (Hyes _ _ _ Hm2 eq_refl).
    exists (getL cs1 k), (getL cs2 k).
    split; [by eapply models_child|]. split; [done|].
    split; [by eapply models_child|]. split; [done|].
    rewrite !shape_obj in Hsh. injection Hsh as Hsh.
    by rewrite <- !getT_shapeP, Hsh.
  - pose proof E1 as E2. rewrite Hsh in E2.
    rewrite (Hno _ Hm1 E1), (Hno _ Hm2 E2).
    exists (LLeaf VUndef), (LLeaf VUndef).
    split; [apply models_undef|]. split; [done|].
    split; [apply models_undef|done].
Qed.

(** a heap for [deepmerge({tags: ['x']}, {tags: ['y']}, {arrayMerge: 'concat'})] *)
Definition concat_heap : list obj :=
  [OPlain [("tags", VRef 1)]; OArr [VStr "x"];
   OPlain [("tags", VRef 3)]; OArr [VStr "y"];
   OPlain [("arrayMerge", VStr "concat")]].

(** [n] nested objects [{c: {c: ... {}}}], allocated from [base] on *)
Fixpoint target_chain (base n : nat) : list obj :=
  match n with
  | O => [OPlain []]
  | S n' => OPlain [("c", VRef (S base))] :: target_chain (S base) n'
  end.

(** [n] nested objects [{c: {c: ... {p: X}}}] around the object [X] at 2 *)
Fixpoint source_chain (base n : nat) : list obj :=
  match n with
  | O => [OPlain [("p", VRef 2)]]
  | S n' => OPlain [("c", VRef (S base))] :: source_chain (S base) n'
  end.

(** a target [{c: chain, q: {k: {}}, r: {}}] at 0 and a source
    [{c: chain around X, q: X, r: Y}] at 1, with [X = {k: Y}] at 2 and
    [Y = {z: 1}] at 3: the source has [X] and [Y] twice *)
Definition shared_heap (n : nat) : list obj :=
  [OPlain [("c", VRef 7); ("q", VRef 4); ("r", VRef 6)];
   OPlain [("c", VRef (8 + n)); ("q", VRef 2); ("r", VRef 3)];
   OPlain [("k", VRef 3)]; OPlain [("z", VNum 1)];
   OPlain [("k", VRef 5)]; OPlain []; OPlain []]
  ++ target_chain 7 n ++ source_chain (8 + n) n.


(** * The guards of [src/types/guards.ts]

    [isNullish] and [isPlainObject] are above; here are the other two. *)

(** [!val] *)
Definition isFalsy (val : value) : bool := negb (truthy val).

(** [null], [undefined], and the values whose [typeof] is a primitive
    type; objects and functions are not primitive *)
Definition isPrimitive (val : value) : bool :=
  match val with
  | VUndef | VNull => true
  | VStr _ | VNum _ | VBool _ => true
  | VRef _ => false
  end.

(** X1.  How the four guards relate: a nullish value is falsy, a falsy
    value is primitive, the values that are not primitive are the
    objects and functions, and a plain object passes none of the other
    guards. *)
Theorem guards_are_nested h val :
  (isNullish val = true → isFalsy val = true)
  ∧ (isFalsy val = true → isPrimitive val = true)
  ∧ (isPrimitive val = false ↔ ∃ l, val = VRef l)
  ∧ (isPlainObject h val = true →
     isPrimitive val = false ∧ isFalsy val = false ∧ isNullish val = false).
Proof.
  split; [by destruct val|]. split; [by destruct val|]. split.
  - split; [destruct val; try done; eauto|by intros [l ->]].
  - by destruct val.
Qed.


(** * More on the merge engine *)

(** ** What a call may write to *)

Lemma deepmerge_changes native fuel target args st sources o v st' :
  parse_args (heap st) args = (sources, o) → no_callbacks o →
  deepmerge native fuel target args st = Ok v st' →
  ∃ vis, changes o sources (MState st ∅) (MState st' vis).
Proof.
  intros Hp Hno H. unfold deepmerge in H. rewrite Hp in H.
  unfold run_merge in H.
  pose proof (mergeObjects_changes native o fuel target sources 0 (MState st ∅) Hno) as Hc.
  unfold wpg in Hc.
  destruct (mergeObjects native o fuel target sources 0 (MState st ∅)) as [r [st1 vis]| |];
    try done.
  injection H as -> <-. by exists vis.
Qed.





(** ** The options object *)



(** ** The [customMerge] callback *)



(** ** Arrays at the top level *)



(** ** Identities of the merge with the default options *)

Lemma deepmerge_refines native fuel LT LS st :
  models (heap st) LT → models (heap st) LS → NoDup (plocs LS) →
  compat LT LS → is_options (heap st) (root LS) = false → 100 < fuel →
  ∃ m st' L',
    deepmerge native fuel (root LT) [root LS] st = Ok m st'
    ∧ models (heap st') L' ∧ root L' = m
    ∧ shape L' = pmerge fuel 0 (shape LT) (shape LS)
    ∧ ∀ L, models (heap st) L → models (heap st') L.
Proof.
  intros HmT HmS Hnd Hc Hopt Hfuel.
  set (s := MState st ∅).
  assert (wp (mergeObjects native default_options fuel (root LT) [root LS] 0)
             (λ r s', refined fuel 0 s LT LS r s'
                      ∧ changes default_options [root LS] s s') s) as H1.
  { apply wp_wlp; [|apply mergeObjects_changes, no_callbacks_default].
    apply mergeObjects_refines; [done| |done|lia|lia].
    split; [done|]. split; [done|]. intros l _. apply not_elem_of_empty. }
  apply wp_returns in H1 as (m & s' & E & (L' & Hm' & Hr & Hsh & _ & _) & Hch).
  destruct Hch as (_ & Hkeep & _). specialize (Hkeep eq_refl).
  assert (keeps anywhere s s') as Hk.
  { intros l ob _ Hl. apply (Hkeep l ob); [|done]. apply not_elem_of_nil. }
  exists m, (mstore s'), L'. split.
  { rewrite deepmerge_one_source by done. unfold run_merge. fold s. by rewrite E. }
  split; [done|]. split; [done|]. split; [done|].
  intros L HL. exact (models_keeps s s' L HL Hk).
Qed.

(** X7.  With the default options and fuel above the depth limit,
    merging a value with itself returns a value that unfolds to the same
    tree. The value unfolds to a finite tree in which no plain object
    occurs twice, and it carries no option name. *)
Theorem merging_a_value_with_itself native fuel L st :
  models (heap st) L → NoDup (plocs L) →
  is_options (heap st) (root L) = false → 100 < fuel →
  ∃ m st', deepmerge native fuel (root L) [root L] st = Ok m st'
           ∧ deep_equal (heap st') (root L) m.
Proof.
  intros Hm Hnd Hopt Hfuel.
  assert (compat L L) as Hc.
  { destruct L as [v|l ps|l es]; [left; by eexists|right; right; by eexists..]. }
  destruct (deepmerge_refines native fuel L L st Hm Hm Hnd Hc Hopt Hfuel)
    as (m & st' & L' & E & Hm' & Hr & Hsh & Hk).
  exists m, st'. split; [done|]. exists L, L'. split; [by apply Hk|].
  split; [done|]. split; [done|]. split; [done|]. by rewrite Hsh, pmerge_self.
Qed.

Lemma merging_a_value_with_itself_witness :
  let st := Store [OPlain [("a", VNum 1); ("n", VRef 1)]; OPlain [("x", VRef 2)];
                   OArr [VNum 7]] [] in
  ∃ m st', deepmerge log_native 101 (VRef 0) [VRef 0] st = Ok m st'
           ∧ deep_equal (heap st') (VRef 0) m.
Proof.
  intros st.
  apply (merging_a_value_with_itself log_native 101
           (LObj 0 [("a", LLeaf (VNum 1));
                    ("n", LObj 1 [("x", LArr 2 [LLeaf (VNum 7)])])]) st).
  - constructor; [reflexivity|]. apply Forall_cons_2.
    { constructor. intros l. discriminate. }
    apply Forall_cons_2; [|apply Forall_nil_2].
    constructor; [reflexivity|]. apply Forall_cons_2; [|apply Forall_nil_2].
    constructor; [reflexivity|]. apply Forall_cons_2; [|apply Forall_nil_2].
    constructor. intros l. discriminate.
  - simpl. apply NoDup_cons. split; [|apply NoDup_singleton].
    intros H. apply list_elem_of_singleton in H. discriminate.
  - reflexivity.
  - lia.
Defined.



Lemma set_of_fold_NoDup (ks acc : list string) :
  NoDup (acc ++ ks) →
  fold_left (λ acc k, if decide (k ∈ acc) then acc else acc ++ [k]) ks acc = acc ++ ks.
Proof.
  revert acc. induction ks as [|k ks IH]; intros acc Hnd; cbn [fold_left].
  - by rewrite app_nil_r.
  - assert (k ∉ acc) as Hk.
    { apply NoDup_app in Hnd as (_ & Hdis & _). intros Hin. apply (Hdis _ Hin). left. }
    rewrite decide_False by done. rewrite IH; [by rewrite <- (assoc_L (++))|].
    by rewrite <- (assoc_L (++)).
Qed.

Lemma set_of_distinct ks : NoDup ks → set_of ks = ks.
Proof. intros H. unfold set_of. by rewrite set_of_fold_NoDup. Qed.

Lemma setT_new ps k t : k ∉ ps.*1 → setT ps k t = ps ++ [(k, t)].
Proof.
  induction ps as [|[k' t'] ps IH]; simpl; [done|].
  intros Hn. apply not_elem_of_cons in Hn as [Hne Hn].
  rewrite (proj2 (String.eqb_neq k' k)) by done. by rewrite IH.
Qed.

Lemma getT_app_r (pre : list (string * tree)) k t post :
  k ∉ pre.*1 → getT (pre ++ (k, t) :: post) k = t.
Proof.
  induction pre as [|[k' t'] pre IH]; simpl.
  - by rewrite String.eqb_refl.
  - intros Hn. apply not_elem_of_cons in Hn as [Hne Hn].
    rewrite (proj2 (String.eqb_neq k' k)) by done. by apply IH.
Qed.

(** the keys of the source, all defined, are added in their order *)
Lemma pm_fold_into_empty rec d (sp : list (string * tree)) :
  NoDup sp.*1 → Forall (λ kt, is_undefT kt.2 = false) sp →
  fold_left (pm_key rec d sp) sp.*1 [] = sp.
Proof.
  intros Hnd Hdef.
  assert (∀ post pre, sp = pre ++ post →
            fold_left (pm_key rec d sp) post.*1 pre = sp) as H.
  { induction post as [|[k t] post IH]; intros pre Hsp; rewrite ?fmap_cons;
      cbn [fold_left fmap list_fmap fst].
    - by rewrite app_nil_r in Hsp.
    - assert (k ∉ pre.*1) as Hk.
      { rewrite Hsp, fmap_app in Hnd. apply NoDup_app in Hnd as (_ & Hdis & _).
        intros Hin. apply (Hdis _ Hin). left. }
      assert (is_undefT t = false) as Ht.
      { apply (proj1 (Forall_forall _ _) Hdef (k, t)). rewrite Hsp.
        apply elem_of_app. right. left. }
      assert (pm_key rec d sp pre k = pre ++ [(k, t)]) as ->.
      { assert (getT sp k = t) as Hg by (rewrite Hsp; by apply getT_app_r).
        unfold pm_key. rewrite (getT_not_in pre k Hk), Hg. cbn [is_obj andb].
        rewrite Ht. cbn [negb]. by apply setT_new. }
      apply IH. by rewrite <- (assoc_L (++)). }
  by apply (H sp []).
Qed.



(** ** The properties of the result, one by one *)

(** the cases in which lines 244-262 build a new value for a key: two
    plain objects, two arrays, or two functions in compose mode *)
Definition merged_deeply (h : list obj) (o : options) (tv sv : value) : bool :=
  isPlainObject h tv && isPlainObject h sv
  || isArray h tv && isArray h sv
  || isFunction h tv && isFunction h sv && is_compose o.

(** what a key holds after the merge when no new value is built: the
    source's value, or the target's when the source has none *)
Definition key_result (h : list obj) (o : options) (tv sv rv : value) : Prop :=
  (sv = VUndef → rv = tv)
  ∧ (sv ≠ VUndef → merged_deeply h o tv sv = false → rv = sv).

Lemma kind_array_stable s s' v :
  ext s s' → old (length (hp s)) v → isArray (hp s') v = isArray (hp s) v.
Proof.
  intros (_ & _ & He) Hold. destruct v as [| | | | |l]; try done. simpl.
  destruct (lookup_lt_is_Some_2 (hp s) l (Hold l eq_refl)) as [ob Hob].
  destruct (He _ _ Hob) as (ob' & -> & Hst). rewrite Hob.
  destruct ob, ob'; simpl in Hst; try done.
Qed.

Lemma kind_function_stable s s' v :
  ext s s' → old (length (hp s)) v → isFunction (hp s') v = isFunction (hp s) v.
Proof.
  intros (_ & _ & He) Hold. destruct v as [| | | | |l]; try done. simpl.
  destruct (lookup_lt_is_Some_2 (hp s) l (Hold l eq_refl)) as [ob Hob].
  destruct (He _ _ Hob) as (ob' & -> & Hst). rewrite Hob.
  destruct ob, ob'; simpl in Hst; try done.
Qed.

Lemma merged_deeply_stable o s s' tv sv :
  ext s s' → old (length (hp s)) tv → old (length (hp s)) sv →
  merged_deeply (hp s') o tv sv = merged_deeply (hp s) o tv sv.
Proof.
  intros He Ht Hs. unfold merged_deeply.
  by rewrite !(kind_plain_stable s s'), !(kind_array_stable s s'),
    !(kind_function_stable s s').
Qed.

Lemma get_prop_old h l ps k :
  wf_heap h → h !! l = Some (OPlain ps) → old (length h) (get_prop ps k).
Proof.
  intros Hwf Hl. destruct (get_prop_in ps k) as [->|Hin]; [by intros ?|].
  by apply (Hwf l (OPlain ps)).
Qed.

Section KeyResults.
Context (native : nat → list value → M store value) (o : options) (n : nat).
Hypothesis Hno : no_callbacks o.
Hypothesis Hclone : truthy (clone o) = true.

Abbreviation rec2 := (mergeObjects native o n).

Lemma rec2_changes t srcs d s :
  wlp (rec2 t srcs d) (λ _ s', changes o srcs s s') s.
Proof. by apply mergeObjects_changes. Qed.

(** one key, lines 234-270: the other keys of the result and the
    source are as they were *)
Lemma merge_key_result d r x rp sp k s :
  hp s !! r = Some (OPlain rp) → hp s !! x = Some (OPlain sp) → r ≠ x →
  wlp (merge_key native o n rec2 d (VRef r) (VRef x) k)
    (λ _ s', ext s s' ∧ hp s' !! x = Some (OPlain sp)
             ∧ ∃ rp', hp s' !! r = Some (OPlain rp')
                      ∧ (∀ k', k' ≠ k → get_prop rp' k' = get_prop rp k')
                      ∧ key_result (hp s) o (get_prop rp k) (get_prop sp k)
                          (get_prop rp' k)) s.
Proof.
  intros Hr Hx Hne. unfold merge_key. apply wpg_bind, wpg_get_heap.
  destruct Hno as [Hcm Harr]. rewrite Hcm.
  apply wpg_bind, wpg_ret. cbv iota. apply wpg_bind, wpg_get_heap.
  assert (get (hp s) (VRef r) k = get_prop rp k) as -> by (unfold get; by rewrite Hr).
  assert (get (hp s) (VRef x) k = get_prop sp k) as -> by (unfold get; by rewrite Hx).
  set (tv := get_prop rp k). set (sv := get_prop sp k).
  (* storing [v] under [k] in a state that kept everything *)
  assert (∀ v s1, rel o anywhere s s1 →
            (sv ≠ VUndef → merged_deeply (hp s) o tv sv = false → v = sv) →
            sv ≠ VUndef →
            wlp (assign (VRef r) k v)
              (λ _ s', ext s s' ∧ hp s' !! x = Some (OPlain sp)
                 ∧ ∃ rp', hp s' !! r = Some (OPlain rp')
                    ∧ (∀ k', k' ≠ k → get_prop rp' k' = get_prop rp k')
                    ∧ key_result (hp s) o tv sv (get_prop rp' k)) s1) as Hset.
  { intros v s1 (He & Hk & _) Hv Hsv. specialize (Hk Hclone).
    pose proof (Hk r _ I Hr) as Hr1. pose proof (Hk x _ I Hx) as Hx1.
    apply wpg_assign; [|simpl; by rewrite Hr1].
    intros ? ps [= <-] Hl. rewrite Hr1 in Hl. injection Hl as <-.
    rewrite hp_with_heap. split.
    { eapply ext_trans; [done|]. by eapply update_plain_ext. }
    split; [by rewrite list_lookup_insert_ne|].
    exists (set_prop rp k v).
    split; [apply list_lookup_insert_eq; by eapply lookup_lt_Some|].
    split; [intros k' Hk'; by apply get_prop_set_prop_ne|].
    rewrite get_prop_set_prop_eq. split; [done|]. auto. }
  destruct (isFunction (hp s) tv && isFunction (hp s) sv) eqn:EF.
  { assert (sv ≠ VUndef) as Hsv.
    { intros E. rewrite E in EF. by rewrite andb_false_r in EF. }
    apply wpg_bind. unfold merge_functions. destruct (is_compose o) eqn:EC.
    - apply wpg_alloc. apply Hset; [by apply rel_alloc| |done].
      intros _ Hd. unfold merged_deeply in Hd. rewrite EF, EC in Hd.
      by rewrite orb_true_r in Hd.
    - apply wpg_ret. apply Hset; [apply rel_refl|done..]. }
  destruct (isPlainObject (hp s) tv && isPlainObject (hp s) sv) eqn:EP.
  { assert (sv ≠ VUndef) as Hsv.
    { intros E. rewrite E in EP. by rewrite andb_false_r in EP. }
    apply wpg_bind. eapply wpg_mono; [apply (rec_single_rel o rec2 rec2_changes)|].
    intros rv s1 H1. simpl. apply Hset; [done| |done].
    intros _ Hd. unfold merged_deeply in Hd. by rewrite EP in Hd. }
  destruct (isArray (hp s) tv && isArray (hp s) sv) eqn:EA.
  { assert (sv ≠ VUndef) as Hsv.
    { intros E. rewrite E in EA. by rewrite andb_false_r in EA. }
    apply wpg_bind. eapply wpg_mono.
    { apply (mergeArrays_rel native o n rec2); [done|apply rec2_changes]. }
    intros rv s1 [H1 _]. simpl. apply Hset; [done| |done].
    intros _ Hd. unfold merged_deeply in Hd. rewrite EA in Hd.
    by rewrite orb_true_r in Hd. }
  destruct (is_undef sv) eqn:EU; simpl.
  - apply wpg_ret. split; [apply ext_refl|]. split; [done|]. exists rp.
    split; [done|]. split; [done|]. split; [done|]. intros Hsv. by destruct sv.
  - apply Hset; [apply rel_refl|done|]. intros E. by rewrite E in EU.
Qed.

(** the key loop, lines 226-270 *)
Lemma merge_keys_result d r x tp sp K s1 :
  hp s1 !! r = Some (OPlain tp) → hp s1 !! x = Some (OPlain sp) → r ≠ x →
  (∀ k, old (length (hp s1)) (get_prop tp k)) →
  (∀ k, old (length (hp s1)) (get_prop sp k)) →
  NoDup K →
  wlp (forM_ K (merge_key native o n rec2 d (VRef r) (VRef x)))
    (λ _ s', ∃ rp, hp s' !! r = Some (OPlain rp)
       ∧ (∀ k, k ∈ K → key_result (hp s1) o (get_prop tp k) (get_prop sp k)
                          (get_prop rp k))
       ∧ (∀ k, k ∉ K → get_prop rp k = get_prop tp k)) s1.
Proof.
  intros Hr Hx Hne Holdt Holds Hnd.
  eapply wpg_mono.
  { apply wpg_forM with (I := λ rest s',
      ∃ done, K = done ++ rest ∧ ext s1 s' ∧ hp s' !! x = Some (OPlain sp)
        ∧ ∃ rp, hp s' !! r = Some (OPlain rp)
          ∧ (∀ k, k ∈ done → key_result (hp s1) o (get_prop tp k) (get_prop sp k)
                                (get_prop rp k))
          ∧ (∀ k, k ∉ done → get_prop rp k = get_prop tp k)).
    - exists []. split; [done|]. split; [apply ext_refl|]. split; [done|].
      exists tp. split; [done|]. split; [|done].
      intros k Hk. by apply elem_of_nil in Hk.
    - intros k rest s' (done & HK & He & Hx' & rp & Hr' & Hdone & Hrest).
      assert (k ∉ done) as Hk.
      { rewrite HK in Hnd. apply NoDup_app in Hnd as (_ & Hdis & _).
        intros Hin. apply (Hdis _ Hin). left. }
      eapply wpg_mono; [by apply (merge_key_result d r x rp sp k s')|].
      intros ? s2 (He2 & Hx2 & rp2 & Hr2 & Hother & Hres).
      exists (done ++ [k]). split; [by rewrite <- (assoc_L (++))|].
      split; [by eapply ext_trans|]. split; [done|].
      exists rp2. split; [done|]. split.
      + intros k' Hk'. apply elem_of_app in Hk' as [Hk'|Hk'].
        * rewrite Hother by (by intros ->). by apply Hdone.
        * apply list_elem_of_singleton in Hk' as ->.
          rewrite (Hrest k Hk) in Hres. destruct Hres as [H1 H2].
          split; [done|]. intros Hsv Hd. apply H2; [done|].
          by rewrite (merged_deeply_stable o s1 s').
      + intros k' Hk'. apply not_elem_of_app in Hk' as [Hk1 Hk2].
        rewrite Hother; [by apply Hrest|].
        intros ->. apply Hk2. left. }
  intros ? s' (done & HK & _ & _ & rp & Hr' & Hdone & Hrest).
  rewrite app_nil_r in HK. subst done. by exists rp.
Qed.

(** a plain target and one plain source, lines 176-278 *)
Lemma merge_plain_result t x tp sp d s :
  hp s !! t = Some (OPlain tp) → hp s !! x = Some (OPlain sp) →
  x ∉ visited s → wf_heap (hp s) →
  depth_reached d (maxDepth o) = false →
  wlp (mergeObjects native o (S n) (VRef t) [VRef x] d)
    (λ v s', v = VRef (length (hp s))
       ∧ ∃ rp, hp s' !! length (hp s) = Some (OPlain rp)
         ∧ ∀ k, key_result (hp s) o (get_prop tp k) (get_prop sp k) (get_prop rp k)) s.
Proof.
  intros Ht Hx Hvis Hwf Hd. cbn [mergeObjects]. unfold mergeObjects_body. rewrite Hd.
  apply wpg_bind, wpg_get_heap.
  assert (isPlainObject (hp s) (VRef t) = true) as -> by (simpl; by rewrite Ht).
  cbn [negb andb]. apply wpg_bind. unfold clone_target. rewrite Hclone.
  apply wpg_bind, wpg_get_heap.
  assert (isArray (hp s) (VRef t) = false) as -> by (simpl; by rewrite Ht).
  rewrite Ht. apply wpg_alloc.
  set (r := length (hp s)). set (s1 := with_heap s _).
  assert (hp s1 = hp s ++ [OPlain tp]) as Hhp1 by done.
  assert (hp s1 !! r = Some (OPlain tp)) as Hr1.
  { rewrite Hhp1. by apply list_lookup_middle. }
  assert (hp s1 !! x = Some (OPlain sp)) as Hx1.
  { rewrite Hhp1. by apply lookup_app_l_Some. }
  assert (r ≠ x) as Hne.
  { apply lookup_lt_Some in Hx. unfold r. lia. }
  cbn [foldM]. apply wpg_bind. unfold merge_source. cbn [isNullish].
  unfold visited_has. apply wpg_bind, wpg_gets.
  rewrite bool_decide_eq_false_2 by done.
  unfold visited_set. apply wpg_bind, wpg_modify. apply wpg_bind, wpg_get_heap.
  set (s2 := MState _ _).
  assert (hp s2 = hp s1) as Hhp2 by done.
  assert (isArray (hp s2) (VRef r) = false) as ->.
  { simpl. by rewrite Hhp2, Hr1. }
  assert (isPlainObject (hp s2) (VRef r) = true) as ->.
  { simpl. by rewrite Hhp2, Hr1. }
  assert (isPlainObject (hp s2) (VRef x) = true) as ->.
  { simpl. by rewrite Hhp2, Hx1. }
  cbn [andb].
  assert (keys (hp s2) (VRef r) = tp.*1) as -> by (simpl; by rewrite Hhp2, Hr1).
  assert (keys (hp s2) (VRef x) = sp.*1) as -> by (simpl; by rewrite Hhp2, Hx1).
  assert (ext s s2) as He.
  { eapply ext_trans; [apply (alloc_ext s (OPlain tp))|].
    apply (rel_visit o anywhere s1 x). }
  assert (∀ ps l k, hp s !! l = Some (OPlain ps) → old (length (hp s2)) (get_prop ps k))
    as Hold.
  { intros ps l k Hl l' Hl'. pose proof (get_prop_old _ _ _ k Hwf Hl l' Hl').
    rewrite Hhp2, Hhp1, length_app. lia. }
  apply wpg_bind. eapply wpg_mono.
  { apply (merge_keys_result d r x tp sp (set_of (tp.*1 ++ sp.*1)) s2);
      [by rewrite Hhp2..|done|intros k; by eapply Hold|intros k; by eapply Hold|
       apply set_of_NoDup]. }
  intros ? s3 (rp & Hr3 & Hin & Hout). apply wpg_ret, wpg_ret.
  split; [done|]. exists rp. split; [done|]. intros k.
  assert (∀ rv, key_result (hp s2) o (get_prop tp k) (get_prop sp k) rv →
                key_result (hp s) o (get_prop tp k) (get_prop sp k) rv) as Hconv.
  { intros rv [H1 H2]. split; [done|]. intros Hsv Hdeep. apply H2; [done|].
    rewrite (merged_deeply_stable o s s2); [done..| |]; by eapply get_prop_old. }
  destruct (decide (k ∈ set_of (tp.*1 ++ sp.*1))) as [Hk|Hk]; [by apply Hconv, Hin|].
  rewrite elem_of_set_of, elem_of_app in Hk.
  assert (get_prop sp k = VUndef) as Hs.
  { apply get_prop_not_in. tauto. }
  split; [intros _; by apply Hout; rewrite elem_of_set_of, elem_of_app|].
  by intros Hsv.
Qed.

End KeyResults.



(** * Sources without nesting *)

(** a plain value of a source that is primitive is stored as it is,
    unless it is [undefined] *)
Definition override (tv sv : value) : value :=
  if is_undef sv then tv else sv.

(** every property of the object is primitive *)
Definition flat (ps : list (string * value)) : Prop :=
  Forall (λ v, isPrimitive v = true) ps.*2.

Lemma flat_get_prop ps k : flat ps → isPrimitive (get_prop ps k) = true.
Proof.
  intros H. destruct (get_prop_in ps k) as [->|Hin]; [done|].
  by apply (proj1 (Forall_forall _ _) H).
Qed.

Lemma copy_defined_override ps acc k :
  get_prop (copy_defined ps (set_of (acc.*1 ++ ps.*1)) acc) k
  = override (get_prop acc k) (get_prop ps k).
Proof.
  rewrite copy_defined_get by apply set_of_NoDup. unfold override.
  destruct (decide (k ∈ set_of (acc.*1 ++ ps.*1))) as [Hin|Hout]; [done|].
  rewrite elem_of_set_of, elem_of_app in Hout.
  rewrite (get_prop_not_in ps k) by tauto. done.
Qed.

Section Flat.
Context (native : nat → list value → M store value) (o : options) (fuel : nat).
Context (rec : value → list value → Z → M mstate value).
Context (h : list obj) (con : list event).
Hypothesis Hcm : truthy (customMerge o) = false.

Lemma merge_key_flat depth x sp acc vis k :
  h !! x = Some (OPlain sp) → flat sp →
  merge_key native o fuel rec depth (VRef (length h)) (VRef x) k
    (MState (Store (h ++ [OPlain acc]) con) vis)
  = Ok tt (MState (Store (h ++ [OPlain (copy_step sp acc k)]) con) vis).
Proof.
  intros Hx Hflat. unfold merge_key, bind at 1, get_heap at 1, gets.
  rewrite Hcm. cbn [mstore heap]. unfold bind at 1, ret at 1.
  unfold bind at 1, get_heap, gets. cbn [mstore heap].
  assert (get (h ++ [OPlain acc]) (VRef x) k = get_prop sp k) as ->.
  { unfold get. by rewrite (lookup_alloc_old _ _ _ _ Hx). }
  pose proof (flat_get_prop sp k Hflat) as Hprim.
  unfold copy_step.
  destruct (get_prop sp k) as [| | | | |l] eqn:E; try done;
    cbn [isFunction isPlainObject isArray andb is_undef negb];
    rewrite ?andb_false_r; try done;
    unfold assign, bind, get_heap, gets; cbn [mstore heap];
    rewrite lookup_alloc; unfold update, modify; cbn [mstore heap console visited];
    by rewrite insert_alloc.
Qed.

Lemma merge_keys_flat depth x sp ks acc vis :
  h !! x = Some (OPlain sp) → flat sp →
  forM_ ks (merge_key native o fuel rec depth (VRef (length h)) (VRef x))
    (MState (Store (h ++ [OPlain acc]) con) vis)
  = Ok tt (MState (Store (h ++ [OPlain (copy_defined sp ks acc)]) con) vis).
Proof.
  intros Hx Hflat. revert acc.
  induction ks as [|k ks IH]; intros acc; cbn [forM_]; [done|].
  unfold bind. rewrite (merge_key_flat depth x sp) by done. apply IH.
Qed.

(** one flat source, lines 214-270 *)
Lemma merge_source_flat depth x sp acc vis :
  h !! x = Some (OPlain sp) → flat sp → x ∉ vis →
  merge_source native o fuel rec depth (VRef (length h)) (VRef x)
    (MState (Store (h ++ [OPlain acc]) con) vis)
  = Ok (VRef (length h))
       (MState (Store (h ++ [OPlain (copy_defined sp (set_of (acc.*1 ++ sp.*1)) acc)])
                      con) ({[x]} ∪ vis)).
Proof.
  intros Hx Hflat Hvis. unfold merge_source. cbn [isNullish].
  unfold bind at 1. cbn [visited_has gets visited].
  rewrite bool_decide_eq_false_2 by done.
  unfold bind at 1. cbn [visited_set modify mstore visited].
  unfold bind at 1, get_heap, gets. cbn [mstore heap].
  assert (isArray (h ++ [OPlain acc]) (VRef (length h)) = false) as ->.
  { simpl. by rewrite lookup_alloc. }
  assert (isPlainObject (h ++ [OPlain acc]) (VRef (length h)) = true) as ->.
  { simpl. by rewrite lookup_alloc. }
  assert (isPlainObject (h ++ [OPlain acc]) (VRef x) = true) as ->.
  { simpl. by rewrite (lookup_alloc_old _ _ _ _ Hx). }
  cbn [andb].
  assert (keys (h ++ [OPlain acc]) (VRef (length h)) = acc.*1) as ->.
  { simpl. by rewrite lookup_alloc. }
  assert (keys (h ++ [OPlain acc]) (VRef x) = sp.*1) as ->.
  { simpl. by rewrite (lookup_alloc_old _ _ _ _ Hx). }
  unfold bind. by rewrite (merge_keys_flat depth x sp).
Qed.

(** the working result after the sources [xs] *)
Definition merge_flat (sps : list (list (string * value)))
  (acc : list (string * value)) : list (string * value) :=
  fold_left (λ acc sp, copy_defined sp (set_of (acc.*1 ++ sp.*1)) acc) sps acc.

Lemma merge_sources_flat depth xs sps : ∀ acc vis,
  Forall2 (λ x sp, h !! x = Some (OPlain sp) ∧ flat sp) xs sps →
  NoDup xs → (∀ x, x ∈ xs → x ∉ vis) →
  ∃ vis',
    foldM (merge_source native o fuel rec depth) (map VRef xs) (VRef (length h))
      (MState (Store (h ++ [OPlain acc]) con) vis)
    = Ok (VRef (length h))
         (MState (Store (h ++ [OPlain (merge_flat sps acc)]) con) vis').
Proof.
  revert sps. induction xs as [|x xs IH]; intros sps acc vis HF Hnd Hvis.
  - apply Forall2_nil_inv_l in HF as ->. by exists vis.
  - apply Forall2_cons_inv_l in HF as (sp & sps' & [Hx Hflat] & HF & ->).
    apply NoDup_cons in Hnd as [Hx' Hnd].
    cbn [map foldM]. unfold bind.
    rewrite (merge_source_flat depth x sp) by (try done; apply Hvis; left).
    change (merge_flat (sp :: sps') acc)
      with (merge_flat sps' (copy_defined sp (set_of (acc.*1 ++ sp.*1)) acc)).
    apply IH; [done..|].
    intros y Hy Hin. apply elem_of_union in Hin as [Hin|Hin].
    + apply elem_of_singleton in Hin as ->. done.
    + apply (Hvis y); [by right|done].
Qed.

End Flat.

Lemma merge_flat_get sps : ∀ acc k,
  get_prop (merge_flat sps acc) k
  = fold_left override (map (λ sp, get_prop sp k) sps) (get_prop acc k).
Proof.
  induction sps as [|sp sps IH]; intros acc k; [done|].
  unfold merge_flat in *. cbn [fold_left map]. by rewrite IH, copy_defined_override.
Qed.

(** the engine on flat sources, lines 176-278 *)
Lemma mergeObjects_flat native o fuel st t tp xs sps :
  heap st !! t = Some (OPlain tp) →
  Forall2 (λ x sp, heap st !! x = Some (OPlain sp) ∧ flat sp) xs sps →
  NoDup xs →
  truthy (customMerge o) = false → truthy (clone o) = true →
  depth_reached 0 (maxDepth o) = false →
  ∃ vis,
    mergeObjects native o (S fuel) (VRef t) (map VRef xs) 0 (MState st ∅)
    = Ok (VRef (length (heap st)))
         (MState (Store (heap st ++ [OPlain (merge_flat sps tp)]) (console st)) vis).
Proof.
  intros Ht HF Hnd Hcm Hc Hd.
  destruct (merge_sources_flat native o fuel (mergeObjects native o fuel)
              (heap st) (console st) Hcm 0 xs sps tp ∅ HF Hnd)
    as [vis' E]; [intros x _; apply not_elem_of_empty|].
  exists vis'. cbn [mergeObjects].
  unfold mergeObjects_body. rewrite Hd.
  unfold bind at 1, get_heap at 1, gets. cbn [mstore].
  assert (isPlainObject (heap st) (VRef t) = true) as -> by (simpl; by rewrite Ht).
  cbn [negb andb]. unfold bind at 1.
  assert (clone_target o (VRef t) (MState st ∅)
          = Ok (VRef (length (heap st)))
               (MState (Store (heap st ++ [OPlain tp]) (console st)) ∅)) as ->.
  { unfold clone_target. rewrite Hc. unfold bind, get_heap, gets. simpl. by rewrite Ht. }
  by rewrite E.
Qed.



(** * Merging in place *)

Lemma wlp_true {S A} (m : M S A) s : wlp m (λ _ _, True) s.
Proof. unfold wpg. by destruct (m s). Qed.

Lemma wlp_and {S A} (m : M S A) (Q Q' : A → S → Prop) s :
  wlp m Q s → wlp m Q' s → wlp m (λ a s', Q a s' ∧ Q' a s') s.
Proof. unfold wpg. destruct (m s); auto. Qed.

(** a source that is skipped or merged key by key: [null], [undefined]
    or a plain object *)
Definition plain_or_nullish (h : list obj) (v : value) : bool :=
  isNullish v || isPlainObject h v.

Section InPlace.
Context (native : nat → list value → M store value) (o : options) (n : nat).
Hypothesis Hno : no_callbacks o.

Abbreviation rec3 := (mergeObjects native o n).

Lemma rec3_changes t srcs d s :
  wlp (rec3 t srcs d) (λ _ s', changes o srcs s s') s.
Proof. by apply mergeObjects_changes. Qed.

Lemma merge_source_returns_result depth t source s :
  isPlainObject (hp s) (VRef t) = true →
  plain_or_nullish (hp s) source = true →
  wlp (merge_source native o n rec3 depth (VRef t) source)
    (λ r s', r = VRef t ∧ ext s s') s.
Proof.
  intros Ht Hsrc. apply wlp_and.
  - unfold merge_source.
    destruct (isNullish source) eqn:EN; [by apply wpg_ret|].
    unfold plain_or_nullish in Hsrc. rewrite EN in Hsrc. cbn [orb] in Hsrc.
    destruct source as [| | | | |x]; try done.
    unfold visited_has. apply wpg_bind, wpg_gets.
    case_bool_decide; [by apply wpg_ret|].
    unfold visited_set. apply wpg_bind, wpg_modify, wpg_bind, wpg_get_heap.
    set (s1 := MState _ _).
    assert (hp s1 = hp s) as Hhp by done. rewrite Hhp, Ht, Hsrc.
    assert (isArray (hp s) (VRef t) = false) as ->.
    { simpl in *. by destruct (hp s !! t) as [[]|]. }
    cbn [andb]. apply wpg_bind. eapply wpg_mono; [apply wlp_true|].
    intros ? s2 _. by apply wpg_ret.
  - eapply wpg_mono.
    { apply (merge_source_rel native o n rec3 Hno rec3_changes). }
    by intros r s' [[He _] _].
Qed.

Lemma merge_sources_return_result depth t sources s0 : ∀ s,
  ext s0 s →
  isPlainObject (hp s0) (VRef t) = true →
  Forall (λ v, plain_or_nullish (hp s0) v = true) sources →
  wlp (foldM (merge_source native o n rec3 depth) sources (VRef t))
    (λ r s', r = VRef t) s.
Proof.
  induction sources as [|x sources IH]; intros s He Ht HF; cbn [foldM].
  - by apply wpg_ret.
  - apply Forall_cons_1 in HF as [Hx HF].
    apply wpg_bind. eapply wpg_mono.
    { apply (merge_source_returns_result depth t x s).
      - by eapply ext_kind_plain.
      - unfold plain_or_nullish in *.
        destruct (isNullish x); [done|]. cbn [orb] in *.
        by eapply ext_kind_plain. }
    intros r s1 [-> He1]. apply IH; [by eapply ext_trans|done..].
Qed.

Lemma mergeObjects_returns_target t sources depth s :
  truthy (clone o) = false →
  isPlainObject (hp s) (VRef t) = true →
  Forall (λ v, plain_or_nullish (hp s) v = true) sources →
  wlp (mergeObjects native o (S n) (VRef t) sources depth) (λ r s', r = VRef t) s.
Proof.
  intros Hc Ht HF. cbn [mergeObjects]. unfold mergeObjects_body.
  destruct (depth_reached depth (maxDepth o)).
  { apply wpg_bind, wpg_modify. by apply wpg_ret. }
  apply wpg_bind, wpg_get_heap. rewrite Ht. cbn [negb andb].
  unfold clone_target. rewrite Hc. apply wpg_bind, wpg_ret.
  by apply (merge_sources_return_result depth t sources s s (ext_refl s)).
Qed.

End InPlace.



(** * A source that occurs twice *)

Lemma foldM_app {S A B} (f : B → A → M S B) (l1 l2 : list A) (b : B) (s : S) :
  foldM f (l1 ++ l2) b s = (b' <~ foldM f l1 b ;; foldM f l2 b') s.
Proof.
  revert b s. induction l1 as [|x l1 IH]; intros b s; cbn [app foldM].
  - done.
  - unfold bind. destruct (f b x s) as [b' s'| |]; [|done..].
    specialize (IH b' s'). unfold bind in IH. exact IH.
Qed.

Section Twice.
Context (native : nat → list value → M store value) (o : options) (n : nat).
Hypothesis Hno : no_callbacks o.

Abbreviation rec4 := (mergeObjects native o n).

Lemma rec4_changes t srcs d s :
  wlp (rec4 t srcs d) (λ _ s', changes o srcs s s') s.
Proof. by apply mergeObjects_changes. Qed.

(** line 222: past the test of line 215, a source is in the map when
    its turn ends *)
Lemma merge_source_visits depth result l s :
  wlp (merge_source native o n rec4 depth result (VRef l))
    (λ _ s', l ∈ visited s') s.
Proof.
  unfold merge_source. cbn [isNullish].
  unfold visited_has. apply wpg_bind, wpg_gets.
  case_bool_decide; [by apply wpg_ret|].
  unfold visited_set. apply wpg_bind, wpg_modify, wpg_bind, wpg_get_heap.
  set (s1 := MState _ _).
  assert (l ∈ visited s1) as Hl by (apply elem_of_union; left; by apply elem_of_singleton).
  assert (∀ s', ext s1 s' → l ∈ visited s') as Hext.
  { intros s' (_ & Hv & _). by apply Hv. }
  destruct (isArray (hp s1) result && isArray (hp s1) (VRef l)).
  { eapply wpg_mono; [apply (mergeArrays_rel native o n rec4 Hno rec4_changes)|].
    intros r s2 [[He _] _]. by apply Hext. }
  destruct (isPlainObject (hp s1) result && isPlainObject (hp s1) (VRef l)).
  - apply wpg_bind. eapply wpg_mono.
    + apply wpg_forM with (I := λ _ s2, ext s1 s2); [apply ext_refl|].
      intros k ? s2 H2. eapply wpg_mono.
      { apply (merge_key_rel native o n rec4 Hno rec4_changes). }
      intros ? s3 [He _]. by eapply ext_trans.
    + intros ? s2 H2. apply wpg_ret. by apply Hext.
  - apply wpg_ret. apply Hext, ext_refl.
Qed.

Lemma merge_sources_visit depth sources : ∀ result s x,
  VRef x ∈ sources ∨ x ∈ visited s →
  wlp (foldM (merge_source native o n rec4 depth) sources result)
    (λ _ s', x ∈ visited s') s.
Proof.
  induction sources as [|v sources IH]; intros result s x Hx; cbn [foldM].
  - apply wpg_ret. destruct Hx as [Hx|Hx]; [by apply elem_of_nil in Hx|done].
  - apply wpg_bind.
    destruct Hx as [Hx|Hx]; [apply elem_of_cons in Hx as [<-|Hx]|].
    + eapply wpg_mono; [apply merge_source_visits|].
      intros r s1 H1. apply IH. by right.
    + eapply wpg_mono; [apply wlp_true|]. intros r s1 _. apply IH. by left.
    + eapply wpg_mono.
      { apply (merge_source_rel native o n rec4 Hno rec4_changes). }
      intros r s1 [[(_ & Hv & _) _] _]. apply IH. right. by apply Hv.
Qed.

(** the loop of lines 186-204 returns at the first source that is not
    [undefined] *)
Lemma leaf_loop_app target sources more s :
  Exists (λ v, is_undef v = false) sources →
  leaf_loop native o n target (sources ++ more) s
  = leaf_loop native o n target sources s.
Proof.
  destruct Hno as [Hcm _].
  induction sources as [|v sources IH]; intros Hex; [by apply Exists_nil in Hex|].
  cbn [app leaf_loop]. destruct (is_undef v) eqn:E.
  - apply IH. apply Exists_cons in Hex as [Hex|Hex]; [congruence|done].
  - done.
Qed.

Lemma mergeObjects_source_again target sources x depth s :
  VRef x ∈ sources →
  mergeObjects native o (S n) target (sources ++ [VRef x]) depth s
  = mergeObjects native o (S n) target sources depth s.
Proof.
  intros Hx. cbn [mergeObjects]. unfold mergeObjects_body.
  destruct (depth_reached depth (maxDepth o)); [done|].
  unfold bind, get_heap, gets.
  destruct (negb (isPlainObject (heap (mstore s)) target)
            && negb (isArray (heap (mstore s)) target)).
  { apply leaf_loop_app. apply Exists_exists. by exists (VRef x). }
  destruct (clone_target o target s) as [r s0| |]; [|done..].
  rewrite foldM_app. unfold bind.
  pose proof (merge_sources_visit depth sources r s0 x (or_introl Hx)) as Hv.
  unfold wpg in Hv.
  destruct (foldM (merge_source native o n rec4 depth) sources r s0) as [r1 s1| |];
    [|done..].
  cbn [foldM]. unfold bind.
  by rewrite (visited_source_is_skipped native o n rec4 depth r1 x s1 Hv).
Qed.

End Twice.



(** * hydrate: a shallow embedding of [src/functions/hydrate.ts]

    [hydrate] works on the same values and the same heap as the merge
    engine; it has no visited map, so the [visited] component of the
    state is carried along untouched.  As before arrays are dense and
    a plain object has its own properties only, so [for (key in value)]
    runs over [Object.keys(value)]; [Array.prototype.map] creates the
    new array first and then fills it index by index. *)

(** [typeof v === 'object'] for a value that is not [null]: functions
    have the type ['function'] *)
Definition isObject (h : list obj) (v : value) : bool :=
  match v with
  | VRef l => match h !! l with Some (OFun _) | None => false | Some _ => true end
  | _ => false
  end.

Section ConvertNulls.

(** [rec] stands for the recursive call [convertNulls]. *)
Variable rec : value → M mstate value.

(** one step of [value.map(convertNulls)], line 65: the callback gets
    the element (its index and the array are ignored by [convertNulls])
    and its result is stored at the same index of the new array *)
Definition convert_index (val result : value) (i : nat) : M mstate unit :=
  h <~ get_heap ;;
  r <~ rec (index h val i) ;;
  assign_index result i r.

(** line 71: [result[key] = convertNulls(value[key])] *)
Definition convert_key (val result : value) (key : string) : M mstate unit :=
  h <~ get_heap ;;
  r <~ rec (get h val key) ;;
  assign result key r.

(** lines 59-76 *)
Definition convertNulls_body (val : value) : M mstate value :=
  match val with
  | VNull => ret VUndef
  | _ =>
      h <~ get_heap ;;
      if negb (isObject h val) then ret val
      else if isArray h val then
        result <~ alloc (OArr []) ;;
        forM_ (seq 0 (length (elems_of h val))) (convert_index val result) ;;;
        ret result
      else if isPlainObject h val then
        result <~ alloc (OPlain []) ;;
        forM_ (keys h val) (convert_key val result) ;;;
        ret result
      else ret val
  end.

End ConvertNulls.

Fixpoint convertNulls (fuel : nat) (val : value) : M mstate value :=
  match fuel with
  | O => diverge
  | S fuel' => convertNulls_body (convertNulls fuel') val
  end.

(** lines 55-57 *)
Definition hydrate (fuel : nat) (data : value) : M store value :=
  λ st,
    match convertNulls fuel data (MState st ∅) with
    | Ok v s => Ok v (mstore s)
    | Throw e s => Throw e (mstore s)
    | Diverge => Diverge
    end.

Arguments convert_index : simpl never.
Arguments convert_key : simpl never.

(** ** What [hydrate] computes, on unfoldings *)

(** every [null] replaced by [undefined] *)
Fixpoint denull (t : tree) : tree :=
  match t with
  | TPrim VNull => TPrim VUndef
  | TPrim v => TPrim v
  | TObj ps => TObj (map (λ '(k, c), (k, denull c)) ps)
  | TArr es => TArr (map denull es)
  end.

(** no [null] at any place *)
Fixpoint null_free (t : tree) : bool :=
  match t with
  | TPrim VNull => false
  | TPrim _ => true
  | TObj ps => forallb (λ '(k, c), null_free c) ps
  | TArr es => forallb null_free es
  end.

(** no object has a property name twice *)
Fixpoint distinct_keys (t : tree) : bool :=
  match t with
  | TPrim _ => true
  | TObj ps => bool_decide (NoDup ps.*1) && forallb (λ '(k, c), distinct_keys c) ps
  | TArr es => forallb distinct_keys es
  end.

(** the nesting of plain objects and arrays *)
Fixpoint height (t : tree) : nat :=
  match t with
  | TPrim _ => 0
  | TObj ps => S (foldr (λ '(k, c) n, height c `max` n) 0 ps)
  | TArr es => S (foldr (λ c n, height c `max` n) 0 es)
  end.

Section tree_induction.
Context (P : tree → Prop).
Hypothesis Hprim : ∀ v, P (TPrim v).
Hypothesis Hobj : ∀ ps, Forall (λ kc, P kc.2) ps → P (TObj ps).
Hypothesis Harr : ∀ es, Forall P es → P (TArr es).

Fixpoint tree_induction (t : tree) : P t :=
  match t with
  | TPrim v => Hprim v
  | TObj ps =>
      Hobj ps
        ((fix go (ps : list (string * tree)) : Forall (λ kc, P kc.2) ps :=
            match ps with
            | [] => @List.Forall_nil _ _
            | kc :: ps' => @List.Forall_cons _ (λ kc, P kc.2) kc ps'
                             (tree_induction kc.2) (go ps')
            end) ps)
  | TArr es =>
      Harr es
        ((fix go (es : list tree) : Forall P es :=
            match es with
            | [] => @List.Forall_nil _ _
            | c :: es' => @List.Forall_cons _ P c es' (tree_induction c) (go es')
            end) es)
  end.

End tree_induction.

Lemma denull_idempotent t : denull (denull t) = denull t.
Proof.
  induction t as [v|ps IH|es IH] using tree_induction.
  - by destruct v.
  - simpl. f_equal. rewrite map_map. apply map_ext_Forall.
    eapply Forall_impl; [exact IH|]. intros [k c] Hc. simpl in *. by rewrite Hc.
  - simpl. f_equal. rewrite map_map. apply map_ext_Forall.
    eapply Forall_impl; [exact IH|]. by intros c ->.
Qed.

Lemma null_free_denull t : null_free (denull t) = true.
Proof.
  induction t as [v|ps IH|es IH] using tree_induction.
  - by destruct v.
  - simpl. apply forallb_forall. intros kc Hin. apply in_map_iff in Hin as ([k c] & <- & Hin).
    apply (proj1 (List.Forall_forall _ _) IH) in Hin. exact Hin.
  - simpl. apply forallb_forall. intros c' Hin. apply in_map_iff in Hin as (c & <- & Hin).
    by apply (proj1 (List.Forall_forall _ _) IH) in Hin.
Qed.

Lemma denull_null_free t : null_free t = true → denull t = t.
Proof.
  induction t as [v|ps IH|es IH] using tree_induction; simpl.
  - by destruct v.
  - intros H. f_equal. rewrite <- (map_id ps) at 2. apply map_ext_Forall.
    rewrite forallb_forall in H. apply Forall_forall. intros [k c] Hin.
    simpl. f_equal. apply (proj1 (Forall_forall _ _) IH (k, c) Hin).
    apply (H (k, c)). by apply list_elem_of_In.
  - intros H. f_equal. rewrite <- (map_id es) at 2. apply map_ext_Forall.
    rewrite forallb_forall in H. apply Forall_forall. intros c Hin.
    apply (proj1 (Forall_forall _ _) IH c Hin). apply H. by apply list_elem_of_In.
Qed.

(** ** The engine of [hydrate] on a finite unfolding *)

Definition hydrated (s : mstate) (L : ltree) (r : value) (s' : mstate) : Prop :=
  ∃ L', models (hp s') L' ∧ root L' = r ∧ shape L' = denull (shape L)
        ∧ (∀ l, l ∈ locs L' → l ∈ locs L ∨ length (hp s) ≤ l)
        ∧ keeps anywhere s s' ∧ length (hp s) ≤ length (hp s').

Lemma height_child ps k : height (shape (getL ps k)) ≤ foldr (λ '(k, c) n, height c `max` n) 0 (shapeP ps).
Proof.
  induction ps as [|[k' c] ps IH]; simpl; [lia|].
  destruct (String.eqb k' k); lia.
Qed.

Lemma height_elem (es : list ltree) i c :
  es !! i = Some c → height (shape c) ≤ foldr (λ c n, height c `max` n) 0 (map shape es).
Proof.
  revert i. induction es as [|c' es IH]; intros [|i]; simpl; try done.
  - intros [= ->]. lia.
  - intros H. apply IH in H. lia.
Qed.

Lemma distinct_child ps k :
  forallb (λ '(k, c), distinct_keys c) (shapeP ps) = true →
  distinct_keys (shape (getL ps k)) = true.
Proof.
  induction ps as [|[k' c] ps IH]; simpl; [done|].
  intros H. apply andb_true_iff in H as [H1 H2].
  destruct (String.eqb k' k); auto.
Qed.

Lemma distinct_elem (es : list ltree) i c :
  es !! i = Some c → forallb distinct_keys (map shape es) = true →
  distinct_keys (shape c) = true.
Proof.
  revert i. induction es as [|c' es IH]; intros [|i]; simpl; try done.
  - intros [= ->] H. by apply andb_true_iff in H as [? _].
  - intros Hi H. apply andb_true_iff in H as [_ H]. by eapply IH.
Qed.

Lemma elem_of_elem_locs (es : list ltree) c l :
  c ∈ es → l ∈ locs c → l ∈ concat (map locs es).
Proof.
  induction es as [|c' es IH]; simpl.
  - intros H. by apply elem_of_nil in H.
  - rewrite elem_of_cons, elem_of_app. intros [->|H] Hl; auto.
Qed.

Lemma elem_of_concat_elem_locs (es : list ltree) l :
  l ∈ concat (map locs es) → ∃ c, c ∈ es ∧ l ∈ locs c.
Proof.
  induction es as [|c' es IH]; simpl.
  - intros H. by apply elem_of_nil in H.
  - rewrite elem_of_app. intros [H|H].
    + exists c'. split; [left|done].
    + destruct (IH H) as (c & ? & ?). exists c. split; [by right|done].
Qed.

Lemma getL_app_r (pre : list (string * ltree)) k c post :
  k ∉ pre.*1 → getL (pre ++ (k, c) :: post) k = c.
Proof.
  induction pre as [|[k' c'] pre IH]; simpl.
  - by rewrite String.eqb_refl.
  - intros Hn. apply not_elem_of_cons in Hn as [Hne Hn].
    rewrite (proj2 (String.eqb_neq k' k)) by done. by apply IH.
Qed.

Lemma set_prop_new ps k v : k ∉ ps.*1 → set_prop ps k v = ps ++ [(k, v)].
Proof.
  induction ps as [|[k' v'] ps IH]; simpl; [done|].
  intros Hn. apply not_elem_of_cons in Hn as [Hne Hn].
  rewrite (proj2 (String.eqb_neq k' k)) by done. by rewrite IH.
Qed.

Section HydrateRefines.
Context (f' : nat).

Hypothesis IH : ∀ s L,
  models (hp s) L → distinct_keys (shape L) = true → height (shape L) < f' →
  wp (convertNulls f' (root L)) (hydrated s L) s.

(** what the loops keep of an element already converted: it does not
    hold the array or object under construction *)
Definition converted (s : mstate) (L : ltree) (s' : mstate) (c' : ltree) : Prop :=
  models (hp s') c' ∧ ∀ l, l ∈ locs c' → l ∈ locs L ∨ length (hp s) < l.

Lemma converted_step s L s1 s2 c' ob :
  models (hp s) L →
  converted s L s1 c' → keeps anywhere s1 s2 →
  converted s L (with_heap s2 (<[length (hp s):=ob]> (hp s2))) c'.
Proof.
  intros HL [Hm Hl] Hk. split; [|done].
  rewrite hp_with_heap. apply models_update; [by eapply models_keeps|].
  intros Hin. destruct (Hl _ Hin) as [Hold|?]; [|lia].
  apply (models_lt _ _ _ HL) in Hold. lia.
Qed.

Lemma converted_new s L s1 s2 c c' ob :
  models (hp s) L → (∀ l, l ∈ locs c → l ∈ locs L) →
  length (hp s) < length (hp s1) →
  hydrated s1 c (root c') s2 → models (hp s2) c' →
  (∀ l, l ∈ locs c' → l ∈ locs c ∨ length (hp s1) ≤ l) →
  converted s L (with_heap s2 (<[length (hp s):=ob]> (hp s2))) c'.
Proof.
  intros HL Hsub Hlt _ Hm Hl.
  assert (∀ l, l ∈ locs c' → l ∈ locs L ∨ length (hp s) < l) as Hl'.
  { intros l Hin. destruct (Hl _ Hin) as [?|?]; [left; auto|right; lia]. }
  split; [|done]. rewrite hp_with_heap. apply models_update; [done|].
  intros Hin. destruct (Hl' _ Hin) as [Hold|?]; [|lia].
  apply (models_lt _ _ _ HL) in Hold. lia.
Qed.

(** an array, line 65 *)
Lemma hydrate_array s l es :
  models (hp s) (LArr l es) → distinct_keys (shape (LArr l es)) = true →
  height (shape (LArr l es)) < S f' →
  wp (result <~ alloc (OArr []) ;;
      forM_ (seq 0 (length (map root es)))
        (convert_index (convertNulls f') (VRef l) result) ;;;
      ret result)
     (hydrated s (LArr l es)) s.
Proof.
  intros Hm Hd Hh. inversion Hm as [| |? ? Hl Hes]; subst.
  simpl in Hd, Hh.
  apply wpg_bind, wpg_alloc.
  set (r := length (hp s)). set (s1 := with_heap s _).
  assert (hp s1 = hp s ++ [OArr []]) as Hhp1 by done.
  apply wpg_bind.
  set (n := length es). rewrite length_map. fold n.
  eapply wpg_mono.
  { apply wpg_forM with (I := λ rest s',
      ∃ done', rest = seq (length done') (n - length done')
        ∧ length done' ≤ n
        ∧ hp s' !! r = Some (OArr (map root done'))
        ∧ Forall (converted s (LArr l es) s') done'
        ∧ map shape done' = map denull (map shape (take (length done') es))
        ∧ keeps anywhere s s' ∧ length (hp s) < length (hp s')).
    - exists []. simpl. rewrite Nat.sub_0_r. split; [done|]. split; [lia|].
      split; [rewrite Hhp1; by apply list_lookup_middle|]. split; [done|].
      split; [done|]. split; [apply alloc_keeps|]. rewrite Hhp1, length_app. simpl. lia.
    - intros i rest s' (done' & Hrest & Hlen & Hr & Hdone & Hsh & Hk & Hle).
      apply seq_cons_inv in Hrest as (-> & -> & Hpos).
      assert (length done' < n) as Hlt by lia.
      destruct (lookup_lt_is_Some_2 es (length done') Hlt) as [c Hc].
      assert (c ∈ es) as Hcin by by eapply list_elem_of_lookup_2.
      unfold convert_index. apply wpg_bind, wpg_get_heap.
      assert (index (hp s') (VRef l) (length done') = root c) as ->.
      { unfold index, elems_of. rewrite (Hk l _ I Hl).
        by rewrite list_lookup_fmap, Hc. }
      apply wpg_bind. eapply wpg_mono.
      { apply (IH s' c).
        - eapply models_keeps; [|exact Hk].
          by apply (proj1 (Forall_forall _ _) Hes c).
        - by eapply distinct_elem.
        - pose proof (height_elem _ _ _ Hc). lia. }
      intros rv s2 (L' & Hm' & <- & Hsh' & Hl' & Hk2 & Hle2).
      apply wpg_assign_index.
      2:{ simpl. by rewrite (Hk2 r _ I Hr). }
      intros ? es0 [= <-] Hr2. rewrite (Hk2 r _ I Hr) in Hr2. injection Hr2 as <-.
      assert (r < length (hp s2)) as Hrlt.
      { apply (lookup_lt_Some _ _ _ (Hk2 r _ I Hr)). }
      exists (done' ++ [L']). rewrite length_app. simpl.
      split; [f_equal; lia|]. split; [lia|].
      split.
      { rewrite hp_with_heap.
        replace (length done') with (length (map root done')) by apply length_map.
        rewrite array_set_end.
        rewrite list_lookup_insert_eq by done. by rewrite map_app. }
      split.
      { apply Forall_app. split.
        - eapply Forall_impl; [exact Hdone|]. intros c0 Hc0.
          by eapply converted_step.
        - apply Forall_singleton. eapply (converted_new s _ s' s2 c); try done.
          + intros l0 Hl0. simpl. right. by eapply elem_of_elem_locs.
          + by exists L'. }
      split.
      { replace (length done' + 1) with (S (length done')) by lia.
        rewrite map_app, Hsh. simpl. rewrite Hsh'.
        rewrite (take_S_r _ _ c) by done. by rewrite !map_app. }
      split.
      { apply keeps_update_fresh; [by eapply keeps_trans|done]. }
      rewrite hp_with_heap, length_insert. lia. }
  intros _ s3 (done' & Hrest & Hlen & Hr & Hdone & Hsh & Hk & Hle).
  apply wpg_ret.
  assert (length done' = n) as Hn.
  { destruct (n - length done') as [|m] eqn:E; [lia|done]. }
  exists (LArr r done'). split; [|split; [done|split; [|split; [|split; [done|lia]]]]].
  - constructor; [done|]. eapply Forall_impl; [exact Hdone|]. by intros c [? _].
  - simpl. rewrite Hsh, Hn. unfold n. by rewrite firstn_all.
  - simpl. intros l0 Hl0. apply elem_of_cons in Hl0 as [->|Hl0]; [right; lia|].
    destruct (elem_of_concat_elem_locs _ _ Hl0) as (c & Hc & Hlc).
    destruct (proj1 (Forall_forall _ _) Hdone c Hc) as [_ Hb].
    destruct (Hb _ Hlc) as [?|?]; [by left|right; lia].
Qed.

(** a plain object, lines 69-72 *)
Lemma hydrate_plain s l ps :
  models (hp s) (LObj l ps) → distinct_keys (shape (LObj l ps)) = true →
  height (shape (LObj l ps)) < S f' →
  wp (result <~ alloc (OPlain []) ;;
      forM_ (valP ps).*1 (convert_key (convertNulls f') (VRef l) result) ;;;
      ret result)
     (hydrated s (LObj l ps)) s.
Proof.
  intros Hm Hd Hh. inversion Hm as [|? ? Hl Hps|]; subst.
  rewrite shape_obj in Hd, Hh. simpl in Hd, Hh.
  apply andb_true_iff in Hd as [Hnd Hd]. apply bool_decide_eq_true in Hnd.
  rewrite shapeP_keys in Hnd.
  apply wpg_bind, wpg_alloc.
  set (r := length (hp s)). set (s1 := with_heap s _).
  assert (hp s1 = hp s ++ [OPlain []]) as Hhp1 by done.
  apply wpg_bind. rewrite valP_keys.
  eapply wpg_mono.
  { apply wpg_forM with (I := λ rest s',
      ∃ pre post done', ps = pre ++ post ∧ rest = post.*1
        ∧ done'.*1 = pre.*1
        ∧ hp s' !! r = Some (OPlain (valP done'))
        ∧ Forall (λ kc, converted s (LObj l ps) s' kc.2) done'
        ∧ shapeP done' = map (λ '(k, c), (k, denull c)) (shapeP pre)
        ∧ keeps anywhere s s' ∧ length (hp s) < length (hp s')).
    - exists [], ps, []. split; [done|]. split; [done|]. split; [done|].
      split; [rewrite Hhp1; by apply list_lookup_middle|]. split; [done|].
      split; [done|]. split; [apply alloc_keeps|]. rewrite Hhp1, length_app. simpl. lia.
    - intros k rest s' (pre & post & done' & -> & Hrest & Hkeys & Hr & Hdone & Hsh & Hk & Hle).
      destruct post as [|[k0 c] post]; [done|]. simpl in Hrest. injection Hrest as <- ->.
      rewrite fmap_app, fmap_cons in Hnd. simpl in Hnd.
      apply NoDup_app in Hnd as (_ & Hdis & _).
      assert (k ∉ pre.*1) as Hkpre.
      { intros Hin. apply (Hdis _ Hin). left. }
      unfold convert_key. apply wpg_bind, wpg_get_heap.
      assert (get (hp s') (VRef l) k = root c) as ->.
      { unfold get. rewrite (Hk l _ I Hl), get_prop_valP. by rewrite getL_app_r. }
      assert ((k, c) ∈ pre ++ (k, c) :: post) as Hcin.
      { apply elem_of_app. right. left. }
      apply wpg_bind. eapply wpg_mono.
      { apply (IH s' c).
        - eapply models_keeps; [|exact Hk].
          by apply (proj1 (Forall_forall _ _) Hps (k, c)).
        - rewrite <- (getL_app_r pre k c post Hkpre). by apply distinct_child.
        - pose proof (height_child (pre ++ (k, c) :: post) k) as Hc.
          rewrite getL_app_r in Hc by done. lia. }
      intros rv s2 (L' & Hm' & <- & Hsh' & Hl' & Hk2 & Hle2).
      apply wpg_assign.
      2:{ simpl. by rewrite (Hk2 r _ I Hr). }
      intros ? ps0 [= <-] Hr2. rewrite (Hk2 r _ I Hr) in Hr2. injection Hr2 as <-.
      assert (r < length (hp s2)) as Hrlt.
      { apply (lookup_lt_Some _ _ _ (Hk2 r _ I Hr)). }
      exists (pre ++ [(k, c)]), post, (done' ++ [(k, L')]).
      split; [by rewrite <- (assoc_L (++))|]. split; [done|].
      split; [by rewrite !fmap_app, Hkeys|].
      split.
      { rewrite hp_with_heap, list_lookup_insert_eq by done.
        rewrite set_prop_new by (by rewrite valP_keys, Hkeys).
        unfold valP. by rewrite map_app. }
      split.
      { apply Forall_app. split.
        - eapply Forall_impl; [exact Hdone|]. intros c0 Hc0. simpl in Hc0.
          by eapply converted_step.
        - apply Forall_singleton. eapply (converted_new s _ s' s2 c); try done.
          + intros l0 Hl0. simpl. right. by eapply (elem_of_member_locs _ (k, c)).
          + by exists L'. }
      split.
      { unfold shapeP in *. rewrite !map_app, Hsh. simpl. by rewrite Hsh'. }
      split.
      { apply keeps_update_fresh; [by eapply keeps_trans|done]. }
      rewrite hp_with_heap, length_insert. lia. }
  intros _ s3 (pre & post & done' & Hps' & Hrest & Hkeys & Hr & Hdone & Hsh & Hk & Hle).
  apply wpg_ret.
  destruct post; [|done]. rewrite app_nil_r in Hps'. subst pre.
  exists (LObj r done'). split; [|split; [done|split; [|split; [|split; [done|lia]]]]].
  - constructor; [done|]. eapply Forall_impl; [exact Hdone|]. by intros c [? _].
  - rewrite !shape_obj. simpl. by rewrite Hsh.
  - simpl. intros l0 Hl0. apply elem_of_cons in Hl0 as [->|Hl0]; [right; lia|].
    destruct (elem_of_concat_locs _ _ Hl0) as (c & Hc & Hlc).
    destruct (proj1 (Forall_forall _ _) Hdone c Hc) as [_ Hb].
    destruct (Hb _ Hlc) as [?|?]; [by left|right; lia].
Qed.

(** one call, lines 59-76 *)
Lemma hydrate_body s L :
  models (hp s) L → distinct_keys (shape L) = true → height (shape L) < S f' →
  wp (convertNulls (S f') (root L)) (hydrated s L) s.
Proof.
  intros Hm Hd Hh. cbn [convertNulls]. unfold convertNulls_body.
  assert (∀ L', models (hp s) L' → root L' = root L → shape L' = denull (shape L) →
            (∀ l, l ∈ locs L' → l ∈ locs L) →
            wp (ret (root L)) (hydrated s L) s) as Hsame.
  { intros L' Hm' Hr Hs Hl. apply wpg_ret. exists L'. split; [done|]. split; [done|].
    split; [done|]. split; [auto|]. split; [apply keeps_refl|done]. }
  inversion Hm as [v Hv|l ps Hl Hps|l es Hl Hes]; subst.
  - assert (∀ l, v = VRef l → isObject (hp s) v && (isArray (hp s) v || isPlainObject (hp s) v) = false)
      as Hleaf.
    { intros l ->. simpl. destruct (Hv _ eq_refl) as (ob & -> & Hob). by destruct ob. }
    destruct (decide (v = VNull)) as [->|Hnn].
    { apply wpg_ret. exists (LLeaf VUndef). split; [apply models_undef|].
      split; [done|]. split; [done|]. split.
      - intros l Hl. by apply elem_of_nil in Hl.
      - split; [apply keeps_refl|done]. }
    assert (wp (ret v) (hydrated s (LLeaf v)) s) as Hret.
    { apply (Hsame (LLeaf v)); [done..| |done]. by destruct v. }
    destruct v as [| | | | |l]; try done;
      try (apply wpg_bind, wpg_get_heap; exact Hret).
    apply wpg_bind, wpg_get_heap. cbn [root].
    specialize (Hleaf l eq_refl).
    destruct (isObject (hp s) (VRef l)); [|exact Hret].
    cbn [andb] in Hleaf. apply orb_false_iff in Hleaf as [-> ->]. exact Hret.
  - cbn [root]. apply wpg_bind, wpg_get_heap.
    assert (isObject (hp s) (VRef l) = true) as -> by (simpl; by rewrite Hl).
    assert (isArray (hp s) (VRef l) = false) as -> by (simpl; by rewrite Hl).
    assert (isPlainObject (hp s) (VRef l) = true) as -> by (simpl; by rewrite Hl).
    assert (keys (hp s) (VRef l) = (valP ps).*1) as -> by (simpl; by rewrite Hl).
    by apply hydrate_plain.
  - cbn [root]. apply wpg_bind, wpg_get_heap.
    assert (isObject (hp s) (VRef l) = true) as -> by (simpl; by rewrite Hl).
    assert (isArray (hp s) (VRef l) = true) as -> by (simpl; by rewrite Hl).
    assert (elems_of (hp s) (VRef l) = map root es) as -> by (simpl; by rewrite Hl).
    by apply hydrate_array.
Qed.

End HydrateRefines.

Lemma convertNulls_refines fuel : ∀ s L,
  models (hp s) L → distinct_keys (shape L) = true → height (shape L) < fuel →
  wp (convertNulls fuel (root L)) (hydrated s L) s.
Proof.
  induction fuel as [|f IHf]; intros s L Hm Hd Hh; [lia|].
  by apply hydrate_body.
Qed.

(** ** What a run of [convertNulls] may change: nothing that exists *)

Definition same_console (s s' : mstate) : Prop :=
  console (mstore s') = console (mstore s).

Definition grows (s s' : mstate) : Prop :=
  keeps anywhere s s' ∧ length (hp s) ≤ length (hp s') ∧ same_console s s'.

Lemma grows_refl s : grows s s.
Proof. split; [apply keeps_refl|]. by split. Qed.

Lemma grows_trans s1 s2 s3 : grows s1 s2 → grows s2 s3 → grows s1 s3.
Proof.
  intros (Hk1 & Hl1 & Hc1) (Hk2 & Hl2 & Hc2). split; [by eapply keeps_trans|].
  split; [lia|]. unfold same_console in *. congruence.
Qed.

Lemma grows_alloc s ob : grows s (with_heap s (hp s ++ [ob])).
Proof.
  split; [apply alloc_keeps|]. split; [|done].
  rewrite hp_with_heap, length_app. lia.
Qed.

Lemma grows_update_fresh s0 s m ob :
  grows s0 s → length (hp s0) ≤ m → grows s0 (with_heap s (<[m:=ob]> (hp s))).
Proof.
  intros (Hk & Hl & Hc) Hm. split; [by apply keeps_update_fresh|].
  split; [|done]. by rewrite hp_with_heap, length_insert.
Qed.

Section HydrateFrame.
Context (rec : value → M mstate value).
Hypothesis Hrec : ∀ v s, wlp (rec v) (λ _ s', grows s s') s.

Lemma convert_index_grows s0 val m i s :
  grows s0 s → length (hp s0) ≤ m →
  wlp (convert_index rec val (VRef m) i) (λ _ s', grows s0 s') s.
Proof.
  intros H0 Hm. unfold convert_index. apply wpg_bind, wpg_get_heap, wpg_bind.
  eapply wpg_mono; [apply Hrec|]. intros r s1 H1. simpl.
  assert (grows s0 s1) as H01 by by eapply grows_trans.
  apply wpg_assign_index; [|done].
  intros l es [= <-] _. by apply grows_update_fresh.
Qed.

Lemma convert_key_grows s0 val m k s :
  grows s0 s → length (hp s0) ≤ m →
  wlp (convert_key rec val (VRef m) k) (λ _ s', grows s0 s') s.
Proof.
  intros H0 Hm. unfold convert_key. apply wpg_bind, wpg_get_heap, wpg_bind.
  eapply wpg_mono; [apply Hrec|]. intros r s1 H1. simpl.
  assert (grows s0 s1) as H01 by by eapply grows_trans.
  apply wpg_assign; [|done].
  intros l ps [= <-] _. by apply grows_update_fresh.
Qed.

Lemma convertNulls_body_grows val s :
  wlp (convertNulls_body rec val)
    (λ r s', grows s s'
             ∧ (isArray (hp s) val || isPlainObject (hp s) val = true →
                r = VRef (length (hp s)))) s.
Proof.
  unfold convertNulls_body.
  assert (wlp (h <~ get_heap ;;
               if negb (isObject h val) then ret val
               else if isArray h val then
                 result <~ alloc (OArr []) ;;
                 forM_ (seq 0 (length (elems_of h val))) (convert_index rec val result) ;;;
                 ret result
               else if isPlainObject h val then
                 result <~ alloc (OPlain []) ;;
                 forM_ (keys h val) (convert_key rec val result) ;;;
                 ret result
               else ret val)
            (λ r s', grows s s'
               ∧ (isArray (hp s) val || isPlainObject (hp s) val = true →
                  r = VRef (length (hp s)))) s) as Hgo.
  { apply wpg_bind, wpg_get_heap.
    destruct (isObject (hp s) val) eqn:EO; simpl.
    2:{ apply wpg_ret. split; [apply grows_refl|].
        destruct val as [| | | | |l]; try done. simpl in *.
        by destruct (hp s !! l) as [[]|]. }
    destruct (isArray (hp s) val) eqn:EA; simpl.
    { apply wpg_bind, wpg_alloc, wpg_bind. eapply wpg_mono.
      - apply wpg_forM with (I := λ _ s', grows s s'); [apply grows_alloc|].
        intros i _ s1 H1. by apply convert_index_grows.
      - intros ? s1 H1. by apply wpg_ret. }
    destruct (isPlainObject (hp s) val) eqn:EP.
    { apply wpg_bind, wpg_alloc, wpg_bind. eapply wpg_mono.
      - apply wpg_forM with (I := λ _ s', grows s s'); [apply grows_alloc|].
        intros i _ s1 H1. by apply convert_key_grows.
      - intros ? s1 H1. by apply wpg_ret. }
    apply wpg_ret. split; [apply grows_refl|done]. }
  destruct val; try exact Hgo.
  apply wpg_ret. split; [apply grows_refl|done].
Qed.

End HydrateFrame.

Lemma convertNulls_grows fuel : ∀ val s,
  wlp (convertNulls fuel val)
    (λ r s', grows s s'
             ∧ (isArray (hp s) val || isPlainObject (hp s) val = true →
                r = VRef (length (hp s)))) s.
Proof.
  induction fuel as [|f IH]; intros val s; [done|].
  cbn [convertNulls]. apply convertNulls_body_grows.
  intros v s1. eapply wpg_mono; [apply IH|]. by intros ? ? [? _].
Qed.

(** ** A value that contains itself *)

(** [w] is the value of a property or an element of the plain object
    or array [v] *)
Definition child (h : list obj) (v w : value) : Prop :=
  ∃ l, v = VRef l
       ∧ ((∃ ps k, h !! l = Some (OPlain ps) ∧ k ∈ ps.*1 ∧ get_prop ps k = w)
          ∨ (∃ es, h !! l = Some (OArr es) ∧ w ∈ es)).

Definition never {A} (m : M mstate A) (s : mstate) : Prop :=
  wlp m (λ _ _, False) s.

Lemma forM_never {A} (f : A → M mstate unit) (I : mstate → Prop) l x s :
  x ∈ l → I s →
  (∀ y s, I s → wlp (f y) (λ _ s', I s') s) →
  (∀ s, I s → never (f x) s) →
  never (forM_ l f) s.
Proof.
  intros Hx HI Hstep Hfail. revert s HI.
  induction l as [|y l IHl]; intros s HI; [by apply elem_of_nil in Hx|].
  cbn [forM_]. apply wpg_bind. apply elem_of_cons in Hx as [->|Hx].
  - eapply wpg_mono; [by apply Hfail|]. intros ? ? [].
  - eapply wpg_mono; [by apply Hstep|]. intros ? s' HI'. by apply IHl.
Qed.

Lemma convertNulls_never fuel : ∀ s0 s v,
  grows s0 s → tc (child (hp s0)) v v → never (convertNulls fuel v) s.
Proof.
  induction fuel as [|f IH]; intros s0 s v Hg Hcyc; [done|].
  assert (∃ w, child (hp s0) v w ∧ tc (child (hp s0)) w w) as (w & Hvw & Hw).
  { inversion Hcyc as [? ? H|? w ? H Ht]; subst.
    - exists v. split; [done|]. by apply tc_once.
    - exists w. split; [done|]. by eapply tc_r. }
  destruct Hvw as (l & -> & Hl).
  assert (∀ v s1, wlp (convertNulls f v) (λ _ s', grows s1 s') s1) as Hrec.
  { intros v s1. eapply wpg_mono; [apply convertNulls_grows|]. by intros ? ? [? _]. }
  assert (∀ s1, grows s s1 → grows s0 s1) as Hg0.
  { intros s1 H1. by eapply grows_trans. }
  unfold never. cbn [convertNulls]. unfold convertNulls_body.
  apply wpg_bind, wpg_get_heap.
  destruct Hl as [(ps & k & Hl & Hk & Hget)|(es & Hl & Hin)].
  - pose proof (proj1 Hg l _ I Hl) as Hls.
    assert (isObject (hp s) (VRef l) = true) as -> by (simpl; by rewrite Hls).
    assert (isArray (hp s) (VRef l) = false) as -> by (simpl; by rewrite Hls).
    assert (isPlainObject (hp s) (VRef l) = true) as -> by (simpl; by rewrite Hls).
    assert (keys (hp s) (VRef l) = ps.*1) as -> by (simpl; by rewrite Hls).
    cbn [negb]. apply wpg_bind, wpg_alloc, wpg_bind.
    eapply wpg_mono; [|intros ? ? Hf; exact Hf].
    apply (forM_never _ (λ s1, grows s s1) _ k); [done|apply grows_alloc| |].
    + intros y s1 H1. by apply convert_key_grows.
    + intros s1 H1. unfold never, convert_key. apply wpg_bind, wpg_get_heap.
      assert (get (hp s1) (VRef l) k = w) as ->.
      { unfold get. by rewrite (proj1 (Hg0 _ H1) l _ I Hl). }
      apply wpg_bind. eapply wpg_mono; [apply (IH s0 s1 w); auto|]. intros ? ? [].
  - pose proof (proj1 Hg l _ I Hl) as Hls.
    assert (isObject (hp s) (VRef l) = true) as -> by (simpl; by rewrite Hls).
    assert (isArray (hp s) (VRef l) = true) as -> by (simpl; by rewrite Hls).
    assert (elems_of (hp s) (VRef l) = es) as -> by (simpl; by rewrite Hls).
    cbn [negb]. apply wpg_bind, wpg_alloc, wpg_bind.
    eapply wpg_mono; [|intros ? ? Hf; exact Hf].
    apply list_elem_of_lookup in Hin as [i Hi].
    apply (forM_never _ (λ s1, grows s s1) _ i).
    + apply elem_of_seq. split; [lia|]. apply lookup_lt_Some in Hi. lia.
    + apply grows_alloc.
    + intros y s1 H1. by apply convert_index_grows.
    + intros s1 H1. unfold never, convert_index. apply wpg_bind, wpg_get_heap.
      assert (index (hp s1) (VRef l) i = w) as ->.
      { unfold index, elems_of. by rewrite (proj1 (Hg0 _ H1) l _ I Hl), Hi. }
      apply wpg_bind. eapply wpg_mono; [apply (IH s0 s1 w); auto|]. intros ? ? [].
Qed.

Lemma denull_keys (ps : list (string * tree)) :
  (map (λ '(k, c), (k, denull c)) ps).*1 = ps.*1.
Proof. induction ps as [|[k c] ps IH]; [done|]. simpl. f_equal. apply IH. Qed.

Lemma distinct_keys_denull t : distinct_keys (denull t) = distinct_keys t.
Proof.
  induction t as [v|ps IH|es IH] using tree_induction.
  - by destruct v.
  - cbn [denull distinct_keys]. rewrite denull_keys. f_equal.
    induction IH as [|[k c] ps Hc _ IHps]; simpl in *; [done|]. by rewrite Hc, IHps.
  - simpl. induction IH as [|c es Hc _ IHes]; simpl; [done|]. by rewrite Hc, IHes.
Qed.

Lemma height_denull t : height (denull t) = height t.
Proof.
  induction t as [v|ps IH|es IH] using tree_induction.
  - by destruct v.
  - simpl. f_equal.
    induction IH as [|[k c] ps Hc _ IHps]; simpl in *; [done|]. by rewrite Hc, IHps.
  - simpl. f_equal. induction IH as [|c es Hc _ IHes]; simpl; [done|]. by rewrite Hc, IHes.
Qed.

Lemma hydrate_run fuel data st (Q : value → mstate → Prop) :
  wp (convertNulls fuel data) Q (MState st ∅) →
  ∃ v s', hydrate fuel data st = Ok v (mstore s') ∧ Q v s'.
Proof.
  intros H. apply wp_returns in H as (v & s' & E & HQ).
  exists v, s'. split; [|done]. unfold hydrate. by rewrite E.
Qed.



(** X15.  [hydrate] is idempotent: on such a value a second run returns
    a value that unfolds to the same tree as the first. *)
Theorem hydrate_twice_is_hydrate_once fuel st L :
  models (heap st) L → distinct_keys (shape L) = true → height (shape L) < fuel →
  ∃ v1 st1 v2 st2,
    hydrate fuel (root L) st = Ok v1 st1
    ∧ hydrate fuel v1 st1 = Ok v2 st2
    ∧ deep_equal (heap st2) v1 v2.
Proof.
  intros Hm Hd Hh.
  destruct (hydrate_run fuel (root L) st _
              (convertNulls_refines fuel (MState st ∅) L Hm Hd Hh))
    as (v1 & s1 & E1 & L1 & Hm1 & Hr1 & Hs1 & _).
  assert (distinct_keys (shape L1) = true) as Hd1.
  { by rewrite Hs1, distinct_keys_denull. }
  assert (height (shape L1) < fuel) as Hh1.
  { by rewrite Hs1, height_denull. }
  destruct (hydrate_run fuel (root L1) (mstore s1) _
              (convertNulls_refines fuel (MState (mstore s1) ∅) L1 Hm1 Hd1 Hh1))
    as (v2 & s2 & E2 & L2 & Hm2 & Hr2 & Hs2 & _ & Hk2 & _).
  exists v1, (mstore s1), v2, (mstore s2). split; [done|]. rewrite <- Hr1.
  split; [done|]. exists L1, L2.
  split; [exact (models_keeps (MState (mstore s1) ∅) s2 L1 Hm1 Hk2)|].
  split; [done|]. split; [done|]. split; [done|].
  by rewrite Hs2, Hs1, denull_idempotent.
Qed.

Lemma hydrate_twice_is_hydrate_once_witness :
  let h := [OPlain [("name", VNull); ("tags", VRef 1)]; OArr [VStr "a"; VNull]] in
  ∃ v1 st1 v2 st2,
    hydrate 3 (VRef 0) (Store h []) = Ok v1 st1
    ∧ hydrate 3 v1 st1 = Ok v2 st2
    ∧ deep_equal (heap st2) v1 v2.
Proof.
  intros h.
  apply (hydrate_twice_is_hydrate_once 3 (Store h [])
           (LObj 0 [("name", LLeaf VNull);
                    ("tags", LArr 1 [LLeaf (VStr "a"); LLeaf VNull])])).
  - constructor; [reflexivity|]. apply Forall_cons_2.
    { constructor. intros l. discriminate. }
    apply Forall_cons_2; [|apply Forall_nil_2].
    constructor; [reflexivity|]. apply Forall_cons_2.
    { constructor. intros l. discriminate. }
    apply Forall_cons_2; [|apply Forall_nil_2].
    constructor. intros l. discriminate.
  - reflexivity.
  - simpl. lia.
Defined.



(** X17.  [hydrate] writes to no object that exists and prints nothing:
    when it returns, every object of the heap is as it was, whatever the
    heap; and for an array or a plain object it returns a new object. *)
Theorem hydrate_changes_no_object fuel data st v st' :
  hydrate fuel data st = Ok v st' →
  console st' = console st
  ∧ (∀ l ob, heap st !! l = Some ob → heap st' !! l = Some ob)
  ∧ (isArray (heap st) data || isPlainObject (heap st) data = true →
     v = VRef (length (heap st))).
Proof.
  unfold hydrate. intros H.
  pose proof (convertNulls_grows fuel data (MState st ∅)) as Hg.
  unfold wpg in Hg.
  destruct (convertNulls fuel data (MState st ∅)) as [r s'| |]; try done.
  injection H as -> <-. destruct Hg as [(Hk & _ & Hc) Hf].
  split; [done|]. split; [|done]. intros l ob Hl. by apply (Hk l ob I).
Qed.

Lemma hydrate_changes_no_object_witness :
  let st := Store [OPlain [("a", VNull)]] [] in
  ∃ st', hydrate 2 (VRef 0) st = Ok (VRef 1) st'
         ∧ heap st' !! 0 = Some (OPlain [("a", VNull)])
         ∧ heap st' !! 1 = Some (OPlain [("a", VUndef)]).
Proof.
  intros st. exists (Store [OPlain [("a", VNull)]; OPlain [("a", VUndef)]] []).
  assert (hydrate 2 (VRef 0) st
          = Ok (VRef 1) (Store [OPlain [("a", VNull)]; OPlain [("a", VUndef)]] [])) as E
    by reflexivity.
  destruct (hydrate_changes_no_object 2 (VRef 0) st _ _ E) as (_ & Hk & _).
  split; [exact E|]. split; [|reflexivity]. apply Hk. reflexivity.
Defined.

(** X18.  [convertNulls] has no guard against cycles: on a plain object
    or an array that contains itself, at any depth, the recursion does
    not end and no amount of fuel returns a value (in JavaScript the
    call stack overflows). *)
Theorem hydrate_does_not_return_on_a_cycle fuel data st :
  tc (child (heap st)) data data →
  ¬ ∃ v st', hydrate fuel data st = Ok v st'.
Proof.
  intros Hcyc (v & st' & H). unfold hydrate in H.
  pose proof (convertNulls_never fuel (MState st ∅) (MState st ∅) data
                (grows_refl _) Hcyc) as Hn.
  unfold never, wpg in Hn.
  by destruct (convertNulls fuel data (MState st ∅)).
Qed.

Lemma hydrate_does_not_return_on_a_cycle_witness :
  ¬ ∃ v st', hydrate 7 (VRef 0)
               (Store [OPlain [("name", VStr "a"); ("list", VRef 1)]; OArr [VRef 0]] [])
             = Ok v st'.
Proof.
  apply hydrate_does_not_return_on_a_cycle.
  eapply tc_l; [|apply tc_once].
  - exists 0. split; [reflexivity|]. left.
    exists [("name", VStr "a"); ("list", VRef 1)], "list".
    split; [reflexivity|]. split; [|reflexivity]. right. left.
  - exists 1. split; [reflexivity|]. right. exists [VRef 0]. split; [reflexivity|left].
Defined.

(** * [hydrate] before a merge *)

(** a primitive value after [hydrate] *)
Definition denull_value (v : value) : value :=
  match v with VNull => VUndef | _ => v end.

(** the unfolding of a flat object *)
Definition leaves (ps : list (string * value)) : list (string * ltree) :=
  map (λ '(k, v), (k, LLeaf v)) ps.

Lemma valP_leaves ps : valP (leaves ps) = ps.
Proof.
  unfold valP, leaves. induction ps as [|[k v] ps IH]; [done|].
  cbn [map root]. by rewrite IH.
Qed.

Lemma shapeP_leaves ps : shapeP (leaves ps) = map (λ '(k, v), (k, TPrim v)) ps.
Proof.
  unfold shapeP, leaves. induction ps as [|[k v] ps IH]; [done|].
  cbn [map shape]. by rewrite IH.
Qed.

Lemma models_leaves h x ps :
  h !! x = Some (OPlain ps) → flat ps → models h (LObj x (leaves ps)).
Proof.
  intros Hx Hflat. constructor; [by rewrite valP_leaves|].
  unfold flat in Hflat. unfold leaves. clear Hx.
  induction ps as [|[k v] ps IH]; cbn [map]; [apply Forall_nil_2|].
  apply Forall_cons_1 in Hflat as [Hv Hflat].
  apply Forall_cons_2; [|by apply IH].
  constructor. intros l ->. discriminate.
Qed.

Lemma leaves_distinct ps :
  NoDup ps.*1 → distinct_keys (TObj (shapeP (leaves ps))) = true.
Proof.
  intros Hnd. cbn [distinct_keys]. apply andb_true_iff. split.
  - apply bool_decide_eq_true. by rewrite shapeP_keys, <- valP_keys, valP_leaves.
  - rewrite shapeP_leaves. induction ps as [|[k v] ps IH]; [done|].
    apply NoDup_cons in Hnd as [_ Hnd]. cbn [map forallb distinct_keys andb]. by apply IH.
Qed.

Lemma leaves_height ps : height (TObj (shapeP (leaves ps))) = 1.
Proof.
  cbn [height]. f_equal. rewrite shapeP_leaves.
  induction ps as [|[k v] ps IH]; [done|]. cbn [map foldr height]. by rewrite IH.
Qed.

Lemma denull_leaves ps :
  denull (TObj (shapeP (leaves ps)))
  = TObj (map (λ '(k, v), (k, TPrim (denull_value v))) ps).
Proof.
  cbn [denull]. f_equal. rewrite shapeP_leaves.
  induction ps as [|[k v] ps IH]; [done|]. cbn [map]. rewrite IH. by destruct v.
Qed.

(** an unfolding whose shape is flat holds the values themselves *)
Lemma valP_of_flat_shape (ps' : list (string * ltree)) (ps : list (string * value)) :
  shapeP ps' = map (λ '(k, v), (k, TPrim v)) ps → valP ps' = ps.
Proof.
  unfold shapeP, valP. revert ps.
  induction ps' as [|[k' c] ps' IH]; intros [|[k v] ps]; cbn [map]; try done.
  intros [= -> Hc Hrest]. apply leaf_shape in Hc as ->. by rewrite (IH ps).
Qed.

Lemma get_prop_map (f : value → value) ps k :
  f VUndef = VUndef →
  get_prop (map (λ '(k, v), (k, f v)) ps) k = f (get_prop ps k).
Proof.
  intros Hf. induction ps as [|[k' v] ps IH]; cbn [map get_prop]; [done|].
  by destruct (String.eqb k' k).
Qed.

(** [hydrate] on a flat object, in full *)
Lemma hydrate_flat fuel st x sp :
  heap st !! x = Some (OPlain sp) → flat sp → NoDup sp.*1 → 2 ≤ fuel →
  ∃ l st1,
    hydrate fuel (VRef x) st = Ok (VRef l) st1
    ∧ heap st1 !! l = Some (OPlain (map (λ '(k, v), (k, denull_value v)) sp))
    ∧ console st1 = console st
    ∧ ∀ l' ob, heap st !! l' = Some ob → heap st1 !! l' = Some ob.
Proof.
  intros Hx Hflat Hnd Hfuel.
  set (L := LObj x (leaves sp)).
  assert (models (heap st) L) as Hm by by apply models_leaves.
  assert (distinct_keys (shape L) = true) as Hd by by apply leaves_distinct.
  assert (height (shape L) < fuel) as Hh.
  { unfold L. rewrite shape_obj, leaves_height. lia. }
  pose proof (wp_wlp _ _ _ _ (convertNulls_refines fuel (MState st ∅) L Hm Hd Hh)
                (convertNulls_grows fuel (root L) (MState st ∅))) as H.
  destruct (hydrate_run fuel (root L) st _ H)
    as (v & s' & E & (L' & Hm' & Hr & Hs & _) & (Hk & _ & Hc) & _).
  unfold L in Hs. rewrite shape_obj, denull_leaves in Hs.
  destruct L' as [w|l ps'|l es]; try done.
  rewrite shape_obj in Hs. injection Hs as Hs.
  inversion Hm' as [|? ? Hl _|]; subst.
  exists l, (mstore s'). split; [done|]. split.
  { change (heap (mstore s')) with (hp s'). rewrite Hl. do 2 f_equal.
    apply valP_of_flat_shape. rewrite Hs. clear.
    induction sp as [|[k v] sp IH]; [done|]. cbn [map]. by rewrite IH. }
  split; [done|]. intros l' ob Hl'. by apply (Hk l' ob I).
Qed.


